(** * RealtimeVoiceChat: the PCM16 playback pipeline

    A shallow embedding of the audio path of [RealtimeVoiceChatMP3.tsx]:
    the [audioChunk] socket handler (base64 PCM16 to Float32 samples,
    pushed on [queueRef]) and the async drain loop [playNextChunk]
    guarded by [isPlayingRef].

    JavaScript runs handlers to completion on one thread; the only
    suspension point of the audio path is the [await] on the timer in
    the drain loop.  The embedding therefore has one transition per
    event-loop task (a socket event, a direct call, a timer firing),
    each a total function on the state of the three refs.

    The chat side of the component (the transcript, the text box and
    their socket handlers) and the record button are embedded in the
    modules [Chat] and [Recorder], each with the events that drive it. *)

From Stdlib Require Import ZArith QArith Qminmax Qround Qpower Qabs.
From Stdlib Require Import List Bool Ascii String Lia Lqa Arith.
Import ListNotations.

Open Scope Z_scope.

(** ** Platform values *)

(** Errors the audio path can raise.  [InvalidCharacterError] is what
    [atob] throws, [RangeError] what [new Int16Array(buffer)] throws on a
    byte length that is not a multiple of 2, [NotSupportedError] what the
    Web Audio calls throw when they refuse a buffer. *)
Inductive JsError : Type :=
| InvalidCharacterError
| RangeError
| NotSupportedError.

(** How a synchronous call ends. *)
Inductive Completion : Type :=
| Normal
| Throw (e : JsError).

(** The state of the promise returned by an async call once the call has
    run up to its next suspension point. *)
Inductive Settled : Type :=
| Pending
| Fulfilled
| Rejected (e : JsError).

(** A fallible synchronous expression. *)
Inductive Result (A : Type) : Type :=
| Ok (a : A)
| Err (e : JsError).
Arguments Ok {A} a.
Arguments Err {A} e.

Definition SAMPLE_RATE : Z := 24000.

(** A [Float32Array].  Every value the handler stores is [s / 32768] for
    a 16-bit integer [s]; such a quotient has at most 16 significant bits
    and is exactly representable in binary32, so rationals model the
    stored values without rounding. *)
Definition Chunk : Type := list Q.

(** ** [atob]: forgiving base64 decoding

    The binary string returned by [atob] is modelled by the list of its
    character codes. *)
Module Base64.

Definition is_ascii_whitespace (c : ascii) : bool :=
  let n := nat_of_ascii c in
  ((n =? 9) || (n =? 10) || (n =? 12) || (n =? 13) || (n =? 32))%nat.

(** Position of a character in the base64 alphabet. *)
Definition sextet (c : ascii) : option Z :=
  let n := Z.of_nat (nat_of_ascii c) in
  if (65 <=? n) && (n <=? 90) then Some (n - 65)
  else if (97 <=? n) && (n <=? 122) then Some (n - 71)
  else if (48 <=? n) && (n <=? 57) then Some (n + 4)
  else if n =? 43 then Some 62
  else if n =? 47 then Some 63
  else None.

Fixpoint sextets (l : list ascii) : option (list Z) :=
  match l with
  | [] => Some []
  | c :: r =>
      match sextet c, sextets r with
      | Some v, Some vs => Some (v :: vs)
      | _, _ => None
      end
  end.

Definition is_pad (c : ascii) : bool := (nat_of_ascii c =? 61)%nat.

(** When the length is a multiple of four, one or two trailing [=] are
    removed. *)
Definition strip_padding (l : list ascii) : list ascii :=
  if (Nat.modulo (List.length l) 4 =? 0)%nat then
    match rev l with
    | p1 :: p2 :: r =>
        if is_pad p1 then (if is_pad p2 then rev r else rev (p2 :: r)) else l
    | [p1] => if is_pad p1 then [] else l
    | [] => l
    end
  else l.

(** Four sextets give three bytes; a final group of three gives two
    bytes and a final group of two gives one, the spare low bits being
    discarded. *)
Fixpoint bytes_of_sextets (l : list Z) : list Z :=
  match l with
  | a :: b :: c :: d :: rest =>
      let n := ((a * 64 + b) * 64 + c) * 64 + d in
      (n / 65536) :: ((n / 256) mod 256) :: (n mod 256) :: bytes_of_sextets rest
  | [a; b; c] =>
      let n := ((a * 64 + b) * 64 + c) / 4 in
      [n / 256; n mod 256]
  | [a; b] => [(a * 64 + b) / 16]
  | _ => []
  end.

Definition atob (data : string) : Result (list Z) :=
  let d := strip_padding
             (filter (fun c => negb (is_ascii_whitespace c))
                     (list_ascii_of_string data)) in
  if (Nat.modulo (List.length d) 4 =? 1)%nat then Err InvalidCharacterError
  else match sextets d with
       | None => Err InvalidCharacterError
       | Some vs => Ok (bytes_of_sextets vs)
       end.

(** The standard encoder (RFC 4648), which the sender applies to the
    raw PCM bytes.  It is not part of the component; it serves to state
    that every byte sequence has a payload that [atob] maps back to it. *)
Definition alphabet : list ascii :=
  list_ascii_of_string
    "ABCDEFGHIJKLMNOPQRSTUVWXYZabcdefghijklmnopqrstuvwxyz0123456789+/".

Definition letter (v : Z) : ascii := nth (Z.to_nat v) alphabet "="%char.

Fixpoint sextets_of_bytes (l : list Z) : list Z :=
  match l with
  | a :: b :: c :: rest =>
      let n := (a * 256 + b) * 256 + c in
      (n / 262144) :: ((n / 4096) mod 64) :: ((n / 64) mod 64) :: (n mod 64)
        :: sextets_of_bytes rest
  | [a; b] =>
      let n := (a * 256 + b) * 4 in
      [n / 4096; (n / 64) mod 64; n mod 64]
  | [a] => [(a * 16) / 64; (a * 16) mod 64]
  | [] => []
  end.

Fixpoint pads (l : list Z) : list ascii :=
  match l with
  | _ :: _ :: _ :: rest => pads rest
  | [_; _] => ["="%char]
  | [_] => ["="%char; "="%char]
  | [] => []
  end.

Definition btoa (bytes : list Z) : string :=
  string_of_list_ascii (map letter (sextets_of_bytes bytes) ++ pads bytes).

End Base64.

(** ** The [audioChunk] payload *)

Record Fragment : Type := mkFragment {
  audio : string;
  format : string;
  sampleRate : Z
}.

(** ** Decoding (handler lines 104-111) *)

(** [view[i] = binary.charCodeAt(i)]: a store into a [Uint8Array] keeps
    the value modulo 256. *)
Definition Uint8Array_fill (binary : list Z) : list Z :=
  map (fun c => c mod 256) binary.

(** The values a [Uint8Array] holds. *)
Definition is_byte (b : Z) : Prop := 0 <= b < 256.

(** One element of an [Int16Array] view: two bytes read as a two's
    complement 16-bit integer, low byte first (typed arrays use the byte
    order of the platform, which is little-endian wherever browsers
    run). *)
Definition int16_of_bytes (lo hi : Z) : Z :=
  let u := lo + 256 * hi in
  if u <? 32768 then u else u - 65536.

Fixpoint int16_view (bytes : list Z) : list Z :=
  match bytes with
  | lo :: hi :: rest => int16_of_bytes lo hi :: int16_view rest
  | _ => []
  end.

(** [new Int16Array(buffer)] *)
Definition new_Int16Array (buffer : list Z) : Result (list Z) :=
  if Nat.even (List.length buffer) then Ok (int16_view buffer)
  else Err RangeError.

(** [float32[i] = pcm[i] / 32768] *)
Definition to_float32 (pcm : list Z) : Chunk :=
  map (fun s => (inject_Z s / 32768)%Q) pcm.

(** The decoding part of the handler, from the byte buffer on. *)
Definition decode_bytes (binary : list Z) : Result Chunk :=
  match new_Int16Array (Uint8Array_fill binary) with
  | Err e => Err e
  | Ok pcm => Ok (to_float32 pcm)
  end.

(** The decoding part of the handler, from the [audio] string on. *)
Definition decode (data : string) : Result Chunk :=
  match Base64.atob data with
  | Err e => Err e
  | Ok binary => decode_bytes binary
  end.

(** ** The state of the component

    [audioCtx], [queue] and [isPlaying] are the [current] fields of
    [audioCtxRef], [queueRef] and [isPlayingRef].  [loops] holds the
    invocations of [playNextChunk] that are suspended on their timer.
    [now] is the clock of the event loop in milliseconds.  The last three
    fields are history: every chunk ever pushed, every chunk ever shifted,
    and every [source.start()] with the time of the call. *)

Record AudioContext : Type := mkAudioContext {
  ctx_sampleRate : Z
}.

(** A drain loop waiting at [await new Promise((r) => setTimeout(r, duration))]:
    the [ctx] it captured, when the timer was set, and the delay asked for. *)
Record Suspended : Type := mkSuspended {
  sus_ctx : AudioContext;
  sus_since : Q;
  sus_delay : Q
}.

Record State : Type := mkState {
  audioCtx : option AudioContext;
  queue : list Chunk;
  isPlaying : bool;
  socketOpen : bool;
  loops : list Suspended;
  now : Q;
  enqueued : list Chunk;
  dequeued : list Chunk;
  started : list (Q * Chunk)
}.

(** Before the effect has run: the initial values of the refs. *)
Definition init : State :=
  mkState None [] false false [] 0%Q [] [] [].

Definition set_audioCtx (c : option AudioContext) (s : State) : State :=
  mkState c (queue s) (isPlaying s) (socketOpen s) (loops s) (now s)
          (enqueued s) (dequeued s) (started s).

Definition set_isPlaying (b : bool) (s : State) : State :=
  mkState (audioCtx s) (queue s) b (socketOpen s) (loops s) (now s)
          (enqueued s) (dequeued s) (started s).

Definition set_socketOpen (b : bool) (s : State) : State :=
  mkState (audioCtx s) (queue s) (isPlaying s) b (loops s) (now s)
          (enqueued s) (dequeued s) (started s).

Definition set_loops (l : list Suspended) (s : State) : State :=
  mkState (audioCtx s) (queue s) (isPlaying s) (socketOpen s) l (now s)
          (enqueued s) (dequeued s) (started s).

Definition set_now (t : Q) (s : State) : State :=
  mkState (audioCtx s) (queue s) (isPlaying s) (socketOpen s) (loops s) t
          (enqueued s) (dequeued s) (started s).

(** [queueRef.current.push(c)] *)
Definition push (c : Chunk) (s : State) : State :=
  mkState (audioCtx s) (queue s ++ [c]) (isPlaying s) (socketOpen s) (loops s)
          (now s) (enqueued s ++ [c]) (dequeued s) (started s).

(** [Array.prototype.shift]: the first element, or [undefined] on an
    empty array, and the array that is left. *)
Definition shift (q : list Chunk) : option Chunk * list Chunk :=
  match q with
  | [] => (None, [])
  | c :: r => (Some c, r)
  end.

(** The state after [queueRef.current.shift()] returned [c]. *)
Definition shifted (c : option Chunk) (q : list Chunk) (s : State) : State :=
  mkState (audioCtx s) q (isPlaying s) (socketOpen s) (loops s) (now s)
          (enqueued s)
          (match c with Some x => dequeued s ++ [x] | None => dequeued s end)
          (started s).

(** *** Numbers

    [buffer.duration] and [duration] are doubles.  A double is modelled
    by the rational it stands for, and an operation on doubles by the
    exact operation followed by rounding to the nearest double, ties to
    even.  Overflow and subnormal numbers are left out: they would take
    more samples than an array can hold. *)

(** The integer nearest to [m], the even one of the two when [m] lies
    halfway. *)
Definition round_half_even (m : Q) : Z :=
  let f := Qfloor m in
  match (m - inject_Z f ?= 1 # 2)%Q with
  | Lt => f
  | Gt => f + 1
  | Eq => if Z.even f then f else f + 1
  end.

(** The exponent [e] with [2^e <= q < 2^(e+1)], for [q > 0]. *)
Definition binade (q : Q) : Z :=
  let e := Z.log2 (Qnum q) - Z.log2 (Zpos (Qden q)) in
  if Qle_bool (2 ^ e) q then e else e - 1.

(** The double nearest to a rational that is not negative: a
    significand of 53 bits times a power of two. *)
Definition binary64 (q : Q) : Q :=
  if Qle_bool q 0 then 0%Q
  else
    let ulp := (2 ^ (binade q - 52))%Q in
    (inject_Z (round_half_even (q / ulp)) * ulp)%Q.

(** [buffer.duration] of the buffer made by
    [ctx.createBuffer(1, chunk.length, SAMPLE_RATE)], in seconds: the
    length divided by the sample rate. *)
Definition buffer_duration (c : Chunk) : Q :=
  binary64 (inject_Z (Z.of_nat (List.length c)) / inject_Z SAMPLE_RATE).

(** [const duration = buffer.duration * 1000] *)
Definition duration (c : Chunk) : Q := binary64 (buffer_duration c * 1000).

(** The time the samples of a chunk take at the sample rate, in
    milliseconds. *)
Definition nominal_ms (c : Chunk) : Q :=
  (inject_Z (Z.of_nat (List.length c)) / inject_Z SAMPLE_RATE * 1000)%Q.

(** [setTimeout(r, d)]: the delay is converted to an integer number of
    milliseconds, dropping the fraction, and a negative one counts as
    zero; the timer cannot fire before that many milliseconds have
    passed.  Browsers raise the delay of a timer set from a chain of
    more than five timers to 4 ms; that makes such a timer fire later
    only, which the clock of the model lets every timer do.  Delays of
    2^31 ms and more, which wrap around, would take more samples than an
    array can hold. *)
Definition timer_delay (d : Q) : Q := inject_Z (Z.max 0 (Qfloor d)).

(** [source.start()] followed by the [await] on the timer: the start is
    logged at the current time and the loop is parked with the delay it
    passed to [setTimeout]. *)
Definition start_and_wait (ctx : AudioContext) (c : Chunk) (s : State) : State :=
  mkState (audioCtx s) (queue s) (isPlaying s) (socketOpen s)
          (loops s ++ [mkSuspended ctx (now s) (duration c)]) (now s)
          (enqueued s) (dequeued s) (started s ++ [(now s, c)]).

(** What the Web Audio API does on the calls of the loop body:
    [createBuffer] throws [NotSupportedError] when the number of frames
    is zero, and nothing else in the body throws. *)
Definition webaudio_accepts (c : Chunk) : bool := (0 <? List.length c)%nat.

(** The chunks handed to [source.start()], oldest first. *)
Definition played (s : State) : list Chunk := map snd (started s).

(** The handler accepts [f] and decodes it to [c]. *)
Definition decodes_to (f : Fragment) (c : Chunk) : Prop :=
  format f = "pcm16"%string /\ decode (audio f) = Ok c.

(** The payload of [f] is not base64, or decodes to an odd number of
    bytes. *)
Definition corrupt (f : Fragment) : Prop :=
  Base64.atob (audio f) = Err InvalidCharacterError \/
  exists binary, Base64.atob (audio f) = Ok binary /\
                 Nat.odd (List.length binary) = true.

(** The flag is set and no drain loop is left to clear it. *)
Definition wedged (s : State) : Prop :=
  isPlaying s = true /\ loops s = [].

(** Sample fragments: one sample of value -1, one of value 32767/32768,
    no sample at all, a payload with a character outside the alphabet, a
    payload of three bytes, a fragment with another format tag, and 25
    samples of silence (50 zero bytes), which last 25/24 ms. *)
Definition frag_low : Fragment := mkFragment "AIA=" "pcm16" 24000.
Definition frag_high : Fragment := mkFragment "/38=" "pcm16" 24000.
Definition frag_empty : Fragment := mkFragment "" "pcm16" 24000.
Definition frag_garbled : Fragment := mkFragment "A*AA" "pcm16" 24000.
Definition frag_odd : Fragment := mkFragment "AAAA" "pcm16" 24000.
Definition frag_mp3 : Fragment := mkFragment "AIA=" "mp3" 24000.
Definition frag_silence : Fragment :=
  mkFragment
    "AAAAAAAAAAAAAAAAAAAAAAAAAAAAAAAAAAAAAAAAAAAAAAAAAAAAAAAAAAAAAAAAAAA="
    "pcm16" 24000.

Definition chunk_low : Chunk := [(-32768 # 32768)%Q].
Definition chunk_high : Chunk := [(32767 # 32768)%Q].
Definition chunk_silence : Chunk := repeat (0 # 32768)%Q 25.

(** 24024 samples of silence, which take 1001 ms. *)
Definition chunk_long : Chunk := repeat (0 # 32768)%Q (Z.to_nat 24024).

(** 100 samples of silence, as the sender encodes them. *)
Definition frag_tone : Fragment :=
  mkFragment (Base64.btoa (repeat 0 200)) "pcm16" 24000.
Definition chunk_tone : Chunk := repeat (0 # 32768)%Q 100.

(** ** Definitions for the rest of the component *)

(** Two's complement bytes of a 16-bit sample, low byte first: what the
    sender lays out before encoding. *)
Definition bytes_of_int16 (s : Z) : list Z :=
  [(s mod 65536) mod 256; (s mod 65536) / 256].

Definition bytes_of_pcm (pcm : list Z) : list Z :=
  flat_map bytes_of_int16 pcm.

Definition is_int16 (s : Z) : Prop := -32768 <= s <= 32767.

(** Starting at [t], each chunk begins when the timer set for the one
    before it is due. *)
Fixpoint schedule (t : Q) (q : list Chunk) : list (Q * Chunk) :=
  match q with
  | [] => []
  | c :: r => (t, c) :: schedule (t + timer_delay (duration c))%Q r
  end.

(** Two logs of starts with the same chunks at equal times. *)
Definition same_log (l1 l2 : list (Q * Chunk)) : Prop :=
  Forall2 (fun a b => (fst a == fst b)%Q /\ snd a = snd b) l1 l2.

(** [a[n] = x] on an array that has an index [n]; used for the message
    objects, the closure variables and the recorders. *)
Fixpoint set_nth {A : Type} (n : nat) (x : A) (l : list A) : list A :=
  match l, n with
  | [], _ => []
  | _ :: r, O => x :: r
  | y :: r, S n' => y :: set_nth n' x r
  end.

(** * The chat side of the component

    The transcript, the text box and the socket handlers that feed them:
    [userTranscript], [textChunk], [responseDone], [connect],
    [disconnect] and [sendMessage].

    React state is modelled by the values of the last render, which the
    handlers created by that render read, and a queue of updates that
    the next render applies in the order of the calls.  An updater
    function normally runs when its update is applied, so what it reads
    from a closure variable is the value at that time.  When the
    component has no update pending, React may instead run the updater
    inside the call of the setter, on the rendered state, and keep the
    result for the render; whether it does depends on bookkeeping of
    React that is not modelled, so a [textChunk] event says which of the
    two happened.  This is modelled for the [textChunk] updater, which
    reads a closure variable and writes into an object; the other
    updaters give the same transcript either way.  Messages are objects
    in a heap and the [messages] array holds references, since the
    [textChunk] updater writes into the last object.  Texts are
    sequences of UTF-16 code units. *)
Module Chat.

Definition Text : Type := list N.

(** The code units [String.prototype.trim] strips: WhiteSpace and
    LineTerminator of ECMAScript. *)
Definition is_white_space (c : N) : bool :=
  ((c =? 9) || (c =? 10) || (c =? 11) || (c =? 12) || (c =? 13)
   || (c =? 32) || (c =? 160) || (c =? 5760)
   || ((8192 <=? c) && (c <=? 8202))
   || (c =? 8232) || (c =? 8233) || (c =? 8239) || (c =? 8287)
   || (c =? 12288) || (c =? 65279))%N.

Fixpoint trim_start (t : Text) : Text :=
  match t with
  | [] => []
  | c :: r => if is_white_space c then trim_start r else t
  end.

Definition trim (t : Text) : Text := rev (trim_start (rev (trim_start t))).

(** [!s] for a string [s]: only the empty string is falsy. *)
Definition falsy (t : Text) : bool :=
  match t with [] => true | _ :: _ => false end.

Inductive Sender : Type := User | Bot.

Record Message : Type := mkMessage {
  from : Sender;
  text : Text
}.

Definition USER_ID : string := "68d6eaf2e30a9a7097c6202c".

(** What [emit] is called with. *)
Inductive Packet : Type :=
| SendText (userId : string) (text : Text) (conversationId : option Text).

(** The two updater functions passed to [setMessages]:
    [(m) => [...m, { from: "user", text }]] and the updater of the
    [textChunk] handler, which reads the [botTextBuffer] of the run of
    the effect that created it. *)
Inductive Updater : Type :=
| AppendUser (t : Text)
| BotText (closure : nat).

(** A call of a setter waiting for the next render.  [SetMessagesEager]
    is a call of [setMessages] whose updater has run already, with the
    array it returned. *)
Inductive Update : Type :=
| SetMessages (u : Updater)
| SetMessagesEager (msgs : list nat)
| SetInput (v : Text)
| SetConnected (b : bool)
| SetConversationId (c : option Text).

(** [heap] holds the message objects; [messages], [input], [connected]
    and [conversationId] are the state of the last render; [pending] the
    updates queued since; [socketRef] numbers the run of the effect that
    created the current socket, [socketOpen] tells whether that socket
    still delivers events and [socketConnected] whether it is connected;
    [closures] holds the [botTextBuffer] of every run of the effect;
    [emitted] logs the calls of [emit] with the socket they went to. *)
Record State : Type := mkState {
  heap : list Message;
  messages : list nat;
  input : Text;
  connected : bool;
  conversationId : option Text;
  pending : list Update;
  socketRef : option nat;
  socketOpen : bool;
  socketConnected : bool;
  closures : list Text;
  emitted : list (nat * Packet)
}.

Definition init : State :=
  mkState [] [] [] false None [] None false false [] [].

(** The transcript as rendered: the objects the array refers to. *)
Definition deref (h : list Message) (r : nat) : Message :=
  nth r h (mkMessage User []).

Definition view_of (h : list Message) (msgs : list nat) : list Message :=
  map (deref h) msgs.

Definition view (st : State) : list Message :=
  view_of (heap st) (messages st).

Definition botTextBuffer (closure : nat) (st : State) : Text :=
  nth closure (closures st) [].

Definition enqueue (u : Update) (st : State) : State :=
  mkState (heap st) (messages st) (input st) (connected st)
          (conversationId st) (pending st ++ [u]) (socketRef st)
          (socketOpen st) (socketConnected st) (closures st) (emitted st).

Definition set_closure (g : nat) (t : Text) (st : State) : State :=
  mkState (heap st) (messages st) (input st) (connected st)
          (conversationId st) (pending st) (socketRef st)
          (socketOpen st) (socketConnected st)
          (set_nth g t (closures st)) (emitted st).

Definition set_transcript (h : list Message) (msgs : list nat) (st : State) : State :=
  mkState h msgs (input st) (connected st) (conversationId st) (pending st)
          (socketRef st) (socketOpen st) (socketConnected st) (closures st)
          (emitted st).

(** [socketRef.current?.emit(...)] *)
Definition emit (p : Packet) (st : State) : State :=
  match socketRef st with
  | None => st
  | Some g =>
      mkState (heap st) (messages st) (input st) (connected st)
              (conversationId st) (pending st) (socketRef st)
              (socketOpen st) (socketConnected st) (closures st)
              (emitted st ++ [(g, p)])
  end.

(** The updater of the [textChunk] handler applied to [prev]: the copy
    [msgs] holds the same references, so the assignment to [last.text]
    writes into the object [prev] holds too. *)
Definition botTextUpdater (buffer : Text) (h : list Message) (prev : list nat)
  : list Message * list nat :=
  let msgs := prev in
  match nth_error msgs (List.length msgs - 1) with
  | Some last =>
      match nth_error h last with
      | Some m =>
          match from m with
          | Bot => (set_nth last (mkMessage Bot buffer) h, msgs)
          | User => (h ++ [mkMessage Bot buffer], msgs ++ [List.length h])
          end
      | None => (h ++ [mkMessage Bot buffer], msgs ++ [List.length h])
      end
  | None => (h ++ [mkMessage Bot buffer], msgs ++ [List.length h])
  end.

Definition appendUserUpdater (t : Text) (h : list Message) (prev : list nat)
  : list Message * list nat :=
  (h ++ [mkMessage User t], prev ++ [List.length h]).

(** One queued update, applied by a render. *)
Definition apply (u : Update) (st : State) : State :=
  match u with
  | SetMessages (AppendUser t) =>
      let (h, msgs) := appendUserUpdater t (heap st) (messages st) in
      set_transcript h msgs st
  | SetMessages (BotText g) =>
      let (h, msgs) := botTextUpdater (botTextBuffer g st) (heap st) (messages st) in
      set_transcript h msgs st
  | SetMessagesEager msgs => set_transcript (heap st) msgs st
  | SetInput v =>
      mkState (heap st) (messages st) v (connected st) (conversationId st)
              (pending st) (socketRef st) (socketOpen st) (socketConnected st)
              (closures st) (emitted st)
  | SetConnected b =>
      mkState (heap st) (messages st) (input st) b (conversationId st)
              (pending st) (socketRef st) (socketOpen st) (socketConnected st)
              (closures st) (emitted st)
  | SetConversationId c =>
      mkState (heap st) (messages st) (input st) (connected st) c
              (pending st) (socketRef st) (socketOpen st) (socketConnected st)
              (closures st) (emitted st)
  end.

Definition clear_pending (st : State) : State :=
  mkState (heap st) (messages st) (input st) (connected st)
          (conversationId st) [] (socketRef st) (socketOpen st)
          (socketConnected st) (closures st) (emitted st).

(** A render applies the queued updates in the order of the calls. *)
Definition render (st : State) : State :=
  fold_left (fun s u => apply u s) (pending st) (clear_pending st).

(** [socket.on("userTranscript", ...)] *)
Definition onUserTranscript (transcript : Text) (st : State) : State :=
  enqueue (SetMessages (AppendUser transcript)) st.

Definition is_set_messages (u : Update) : bool :=
  match u with
  | SetMessages _ | SetMessagesEager _ => true
  | _ => false
  end.

Definition is_eager (u : Update) : bool :=
  match u with
  | SetMessagesEager _ => true
  | _ => false
  end.

(** An update of [messages] is waiting for the next render. *)
Definition messages_pending (st : State) : bool :=
  existsb is_set_messages (pending st).

(** [socket.on("textChunk", ...)] in the run [g] of the effect.  With
    [eager] and no update of [messages] pending, the updater runs inside
    [setMessages], on the rendered array: it reads [botTextBuffer] now
    and, when the last rendered message is the bot's, writes into that
    object now.  The condition is on the updates of [messages] only,
    since the queue of the model may hold a call of another setter that
    React has dropped because it changed nothing. *)
Definition onTextChunk (g : nat) (d_text : Text) (eager : bool) (st : State)
  : State :=
  let st1 := set_closure g (botTextBuffer g st ++ d_text) st in
  if eager && negb (messages_pending st) then
    let (h, msgs) :=
      botTextUpdater (botTextBuffer g st1) (heap st1) (messages st1) in
    enqueue (SetMessagesEager msgs) (set_transcript h (messages st1) st1)
  else enqueue (SetMessages (BotText g)) st1.

(** [socket.on("responseDone", ...)] in the run [g] of the effect. *)
Definition onResponseDone (g : nat) (textBuffer : Text) (cid : option Text)
    (st : State) : State :=
  enqueue (SetConversationId cid) (set_closure g textBuffer st).

(** [sendMessage], as created by the last render. *)
Definition sendMessage (st : State) : State :=
  if falsy (trim (input st)) then st
  else
    enqueue (SetInput [])
      (enqueue (SetMessages (AppendUser (input st)))
         (emit (SendText USER_ID (input st) (conversationId st)) st)).

(** The socket part of the effect body.  React runs the cleanup of an
    effect before it runs the effect again, so the effect finds no open
    socket. *)
Definition mount (st : State) : State :=
  if socketOpen st then st
  else
    mkState (heap st) (messages st) (input st) (connected st)
            (conversationId st) (pending st)
            (Some (List.length (closures st))) true false
            (closures st ++ [[]]) (emitted st).

(** [socket.disconnect()]: the socket delivers nothing any more; when
    it was connected its [disconnect] handler runs first. *)
Definition cleanup (st : State) : State :=
  if socketOpen st then
    let st1 := if socketConnected st then enqueue (SetConnected false) st else st in
    mkState (heap st1) (messages st1) (input st1) (connected st1)
            (conversationId st1) (pending st1) (socketRef st1) false false
            (closures st1) (emitted st1)
  else st.

Definition set_socketConnected (b : bool) (st : State) : State :=
  mkState (heap st) (messages st) (input st) (connected st)
          (conversationId st) (pending st) (socketRef st) (socketOpen st) b
          (closures st) (emitted st).

Inductive Event : Type :=
| Mount
| Cleanup
| Connect
| Disconnect
| UserTranscript (transcript : Text)
| TextChunk (d_text : Text) (eager : bool)
| ResponseDone (textBuffer : Text) (cid : option Text)
| Change (value : Text)
| KeyDownEnter
| ClickSend
| Render.

(** One task.  Socket events reach their handlers while the socket of
    the current run of the effect is open; the Send button is disabled
    while [connected] is false, the Enter key is not. *)
Definition step (e : Event) (st : State) : State :=
  match e with
  | Mount => mount st
  | Cleanup => cleanup st
  | Connect =>
      if socketOpen st && negb (socketConnected st)
      then enqueue (SetConnected true) (set_socketConnected true st)
      else st
  | Disconnect =>
      if socketOpen st && socketConnected st
      then enqueue (SetConnected false) (set_socketConnected false st)
      else st
  | UserTranscript t =>
      if socketOpen st then onUserTranscript t st else st
  | TextChunk d eager =>
      match socketOpen st, socketRef st with
      | true, Some g => onTextChunk g d eager st
      | _, _ => st
      end
  | ResponseDone t c =>
      match socketOpen st, socketRef st with
      | true, Some g => onResponseDone g t c st
      | _, _ => st
      end
  | Change v => enqueue (SetInput v) st
  | KeyDownEnter => sendMessage st
  | ClickSend => if connected st then sendMessage st else st
  | Render => render st
  end.

Definition run (evs : list Event) (st : State) : State :=
  fold_left (fun s e => step e s) evs st.

Definition reachable (st : State) : Prop :=
  exists evs, st = run evs init.

(** Every reference of the array points into the heap, and no object is
    in the array twice. *)
Definition wf_heap (h : list Message) (refs : list nat) : Prop :=
  Forall (fun r => (r < List.length h)%nat) refs /\ NoDup refs.

Definition well_formed (st : State) : Prop :=
  wf_heap (heap st) (messages st).

(** The current socket belongs to a run of the effect that has its
    closure variable. *)
Definition wired (st : State) : Prop :=
  forall g, socketRef st = Some g -> (g < List.length (closures st))%nat.

(** The payloads of the [textChunk] events of a list of events. *)
Fixpoint chunk_texts (evs : list Event) : list Text :=
  match evs with
  | [] => []
  | TextChunk d _ :: r => d :: chunk_texts r
  | _ :: r => chunk_texts r
  end.

Definition is_burst_event (e : Event) : Prop :=
  e = Render \/ exists d eager, e = TextChunk d eager.

(** What the [textChunk] updater does to the rendered transcript: the
    text of a trailing bot message is replaced, otherwise a bot message
    is added. *)
Definition coalesce (buffer : Text) (v : list Message) : list Message :=
  match rev v with
  | m :: pre =>
      match from m with
      | Bot => rev pre ++ [mkMessage Bot buffer]
      | User => v ++ [mkMessage Bot buffer]
      end
  | [] => [mkMessage Bot buffer]
  end.

(** The part of a transcript that no later update touches: all of it but
    a trailing bot message. *)
Definition settled (v : list Message) : list Message :=
  match rev v with
  | m :: pre => match from m with Bot => rev pre | User => v end
  | [] => []
  end.

Definition prefix {A : Type} (l l' : list A) : Prop :=
  exists suffix, l' = l ++ suffix.

(** What an update does to the rendered transcript, given the closure
    variables at the time it is applied and the heap at the start of the
    render. *)
Definition apply_view (cl : list Text) (h : list Message) (u : Update)
    (v : list Message) : list Message :=
  match u with
  | SetMessages (AppendUser t) => v ++ [mkMessage User t]
  | SetMessages (BotText g) => coalesce (nth g cl []) v
  | SetMessagesEager msgs => view_of h msgs
  | _ => v
  end.

Definition fold_view (cl : list Text) (h : list Message) (us : list Update)
    (v : list Message) : list Message :=
  fold_left (fun v u => apply_view cl h u v) us v.

(** An array computed ahead is the first update of [messages] in the
    queue, and it was computed from the rendered array [v] by the
    [textChunk] updater. *)
Fixpoint eager_first (h : list Message) (v : list Message) (us : list Update)
  : Prop :=
  match us with
  | [] => True
  | SetMessagesEager msgs :: r =>
      wf_heap h msgs /\ (exists b, view_of h msgs = coalesce b v) /\
      existsb is_eager r = false
  | SetMessages _ :: r => existsb is_eager r = false
  | _ :: r => eager_first h v r
  end.

(** What holds of the state between any two tasks. *)
Definition consistent (st : State) : Prop :=
  well_formed st /\ wired st /\
  eager_first (heap st) (view st) (pending st).

Fixpoint no_adjacent_bots (v : list Message) : Prop :=
  match v with
  | m1 :: ((m2 :: _) as r) =>
      ~ (from m1 = Bot /\ from m2 = Bot) /\ no_adjacent_bots r
  | _ => True
  end.

(** The relation between a transcript and a later one. *)
Definition grows (v v' : list Message) : Prop :=
  prefix (settled v) (settled v') /\ prefix (map from v) (map from v').

(** Where a burst of chunks that began in [st0] stands, after the chunks
    [ds]: what the next render will show is the transcript from before
    the burst with the buffer in its last bot message. *)
Definition in_burst (st0 st : State) (g : nat) (ds : list Text) : Prop :=
  consistent st /\
  socketOpen st = true /\
  socketRef st = Some g /\
  botTextBuffer g st = botTextBuffer g st0 ++ List.concat ds /\
  (forall cl b,
     coalesce b (fold_view cl (heap st) (pending st) (view st))
     = coalesce b (view st0)) /\
  (ds <> [] ->
   fold_view (closures st) (heap st) (pending st) (view st)
   = coalesce (botTextBuffer g st) (view st0)).

(** A task either leaves the heap and the array alone and queues
    updates that compute nothing ahead, or is a render, or is a text
    chunk whose updater runs at once. *)
Inductive StepKind (e : Event) (st : State) : Prop :=
| Quiet (us : list Update) :
    heap (step e st) = heap st ->
    messages (step e st) = messages st ->
    pending (step e st) = pending st ++ us ->
    existsb is_eager us = false ->
    StepKind e st
| Rendering : e = Render -> StepKind e st
| Eager (d : Text) (g : nat) :
    e = TextChunk d true ->
    socketOpen st = true ->
    socketRef st = Some g ->
    messages_pending st = false ->
    step e st
    = enqueue
        (SetMessagesEager
           (snd (botTextUpdater
                   (botTextBuffer g (set_closure g (botTextBuffer g st ++ d) st))
                   (heap st) (messages st))))
        (set_transcript
           (fst (botTextUpdater
                   (botTextBuffer g (set_closure g (botTextBuffer g st ++ d) st))
                   (heap st) (messages st)))
           (messages st)
           (set_closure g (botTextBuffer g st ++ d) st)) ->
    StepKind e st.

(** Nothing but white space, or nothing at all. *)
Definition blank (t : Text) : Prop :=
  Forall (fun c => is_white_space c = true) t.

(** A text given by its Latin-1 characters. *)
Definition text_of_string (s : string) : Text :=
  map N_of_ascii (list_ascii_of_string s).

End Chat.


(** * The record button

    [startRecording], [stopRecording] and the button that toggles
    between them.  A [MediaRecorder] is modelled by whether its state is
    ["recording"]; the recorded data and the [FileReader] that encodes
    it are not modelled. *)
Module Recorder.

(** [recorders] holds the [MediaRecorder] objects created so far;
    [recording] is the state of the last render and [pending] the calls
    of [setRecording] since; [connected] is the state of the last
    render, which enables the button; [requests] counts the calls of
    [startRecording] that wait for [getUserMedia]. *)
Record State : Type := mkState {
  recorders : list bool;
  mediaRecorderRef : option nat;
  recording : bool;
  pending : list bool;
  connected : bool;
  requests : nat
}.

Definition init : State := mkState [] None false [] false 0.

Definition setRecording (b : bool) (st : State) : State :=
  mkState (recorders st) (mediaRecorderRef st) (recording st)
          (pending st ++ [b]) (connected st) (requests st).

Definition is_active (r : nat) (st : State) : bool :=
  nth r (recorders st) false.

Section Platform.

(** Whether [stop()] on a recorder that is not recording throws, as it
    did in earlier versions of the MediaStream Recording API, or does
    nothing, as it does now. *)
Variable stop_inactive_throws : bool.

(** [startRecording] up to [await getUserMedia]. *)
Definition startRecording (st : State) : State :=
  mkState (recorders st) (mediaRecorderRef st) (recording st) (pending st)
          (connected st) (S (requests st)).

(** The rest of [startRecording], once the stream is there.  The
    constructor throws when the platform does not support the mime type,
    and then nothing else happens. *)
Definition granted (supported : bool) (st : State) : State :=
  match requests st with
  | O => st
  | S n =>
      if supported then
        setRecording true
          (mkState (recorders st ++ [true])
                   (Some (List.length (recorders st)))
                   (recording st) (pending st) (connected st) n)
      else
        mkState (recorders st) (mediaRecorderRef st) (recording st)
                (pending st) (connected st) n
  end.

(** [getUserMedia] rejects. *)
Definition denied (st : State) : State :=
  mkState (recorders st) (mediaRecorderRef st) (recording st) (pending st)
          (connected st) (Nat.pred (requests st)).

Definition stopRecording (st : State) : State :=
  match mediaRecorderRef st with
  | None => setRecording false st
  | Some r =>
      if is_active r st then
        setRecording false
          (mkState (set_nth r false (recorders st)) (mediaRecorderRef st)
                   (recording st) (pending st) (connected st) (requests st))
      else if stop_inactive_throws then st
      else setRecording false st
  end.

Definition render (st : State) : State :=
  mkState (recorders st) (mediaRecorderRef st)
          (last (pending st) (recording st)) [] (connected st) (requests st).

Inductive Event : Type :=
| ClickRecord
| Granted (supported : bool)
| Denied
| Connection (b : bool)
| Render.

(** One task.  The button is disabled while [connected] is false, and
    its handler is the one the last render chose. *)
Definition step (e : Event) (st : State) : State :=
  match e with
  | ClickRecord =>
      if connected st
      then (if recording st then stopRecording st else startRecording st)
      else st
  | Granted supported => granted supported st
  | Denied => denied st
  | Connection b =>
      mkState (recorders st) (mediaRecorderRef st) (recording st)
              (pending st) b (requests st)
  | Render => render st
  end.

Definition run (evs : list Event) (st : State) : State :=
  fold_left (fun s e => step e s) evs st.

Definition ref_valid (st : State) : Prop :=
  forall k, mediaRecorderRef st = Some k ->
            (k < List.length (recorders st))%nat.

End Platform.

End Recorder.

Section Pipeline.

(** The audio output device: whether the Web Audio calls of one loop
    iteration (lines 33-40: [createBuffer], [copyToChannel],
    [createBufferSource], [connect], [start]) all succeed on a chunk.
    When one of them throws, nothing has been started. *)
Variable accepts : Chunk -> bool.

(** The [while] loop of [playNextChunk] from its head up to the next
    [await], the exit of the loop or an exception.  The only iteration
    that goes round without suspending is the [continue] taken when
    [shift] gave [undefined]; [fuel] bounds those. *)
Fixpoint drain (fuel : nat) (ctx : AudioContext) (s : State) : State * Settled :=
  match fuel with
  | O => (s, Pending)
  | S fuel' =>
      if (0 <? List.length (queue s))%nat then
        match shift (queue s) with
        | (None, q') => drain fuel' ctx (shifted None q' s)
        | (Some chunk, q') =>
            let s1 := shifted (Some chunk) q' s in
            if accepts chunk
            then (start_and_wait ctx chunk s1, Pending)
            else (s1, Rejected NotSupportedError)
        end
      else (set_isPlaying false s, Fulfilled)
  end.

Definition fuel_for (s : State) : nat := S (List.length (queue s)).

(** [playNextChunk()] up to its first suspension point. *)
Definition playNextChunk (s : State) : State * Settled :=
  if isPlaying s then (s, Fulfilled)
  else
    match audioCtx s with
    | None => (s, Fulfilled)
    | Some ctx =>
        if (List.length (queue s) =? 0)%nat then (s, Fulfilled)
        else drain (fuel_for s) ctx (set_isPlaying true s)
    end.

(** The [audioChunk] handler.  The promise returned by
    [playNextChunk()] is not used. *)
Definition onAudioChunk (f : Fragment) (s : State) : State * Completion :=
  if negb (String.eqb (format f) "pcm16") then (s, Normal)
  else
    match decode (audio f) with
    | Err e => (s, Throw e)
    | Ok float32 => (fst (playNextChunk (push float32 s)), Normal)
    end.

(** The body of the effect: the context is created and the handlers are
    registered on a fresh socket. *)
Definition mount (s : State) : State :=
  set_socketOpen true (set_audioCtx (Some (mkAudioContext SAMPLE_RATE)) s).

(** The cleanup of the effect: [socket.disconnect()]. *)
Definition cleanup (s : State) : State := set_socketOpen false s.

Definition remove_nth {A : Type} (i : nat) (l : list A) : list A :=
  firstn i l ++ skipn (S i) l.

(** The timer of the [i]-th suspended loop fires: the clock is at the
    time the timer was set plus its whole-millisecond delay, or later,
    and the loop goes on from the head of the [while]. *)
Definition resume (i : nat) (s : State) : State * Settled :=
  match nth_error (loops s) i with
  | None => (s, Pending)
  | Some l =>
      let s1 := set_now (Qmax (now s) (sus_since l + timer_delay (sus_delay l)))
                        (set_loops (remove_nth i (loops s)) s) in
      drain (fuel_for s1) (sus_ctx l) s1
  end.

(** The tasks of the event loop that touch the audio path. *)
Inductive Event : Type :=
| Mount
| Cleanup
| AudioChunk (f : Fragment)
| Wake
| Timer (i : nat)
| Elapse (dt : Q).

(** One task.  An [audioChunk] event reaches the handler only while the
    socket of the effect is open, that is between the effect and its
    cleanup; the completion of the handler goes to the emitter and the
    promise of [playNextChunk] to nobody. *)
Definition step (e : Event) (s : State) : State :=
  match e with
  | Mount => mount s
  | Cleanup => cleanup s
  | AudioChunk f => if socketOpen s then fst (onAudioChunk f s) else s
  | Wake => fst (playNextChunk s)
  | Timer i => fst (resume i s)
  | Elapse dt => if Qle_bool 0 dt then set_now (now s + dt) s else s
  end.

(** A run applies the events from left to right. *)
Definition run (evs : list Event) (s : State) : State :=
  fold_left (fun st e => step e st) evs s.

Definition reachable (s : State) : Prop :=
  exists evs, s = run evs init.

(** The tasks that neither run the effect nor come from the socket. *)
Definition is_local (e : Event) : bool :=
  match e with
  | Mount | AudioChunk _ => false
  | Cleanup | Wake | Timer _ | Elapse _ => true
  end.

(** One turn of the loop, without the fuel. *)
Definition turn (ctx : AudioContext) (s : State) : State * Settled :=
  match queue s with
  | [] => (set_isPlaying false s, Fulfilled)
  | c :: q =>
      if accepts c
      then (start_and_wait ctx c (shifted (Some c) q s), Pending)
      else (shifted (Some c) q s, Rejected NotSupportedError)
  end.

(** What holds between any two tasks. *)
Record Inv (s : State) : Prop := mkInv {
  inv_flight :
    loops s = [] \/ exists l, loops s = [l] /\ isPlaying s = true;
  inv_fifo : dequeued s ++ queue s = enqueued s;
  inv_started : map snd (started s) = filter accepts (dequeued s);
  inv_idle : isPlaying s = false -> queue s = [];
  inv_ctx : socketOpen s = true -> audioCtx s <> None;
  inv_timer :
    forall l, In l (loops s) ->
      exists prev c,
        started s = prev ++ [(sus_since l, c)] /\ sus_delay l = duration c;
  inv_clock : forall t c, In (t, c) (started s) -> (t <= now s)%Q;
  inv_wedged :
    isPlaying s = true -> loops s = [] ->
    exists c, In c (dequeued s) /\ accepts c = false
}.

(** ** The loop, one turn at a time *)

Lemma drain_turn (n : nat) (ctx : AudioContext) (s : State) :
  drain (S n) ctx s = turn ctx s.
Proof.
  unfold turn; simpl.
  destruct (queue s) as [|c q]; reflexivity.
Qed.

Lemma playNextChunk_turn (s : State) :
  playNextChunk s =
    if isPlaying s then (s, Fulfilled)
    else match audioCtx s, queue s with
         | Some ctx, _ :: _ => turn ctx (set_isPlaying true s)
         | _, _ => (s, Fulfilled)
         end.
Proof.
  unfold playNextChunk, fuel_for.
  destruct (isPlaying s); [reflexivity|].
  destruct (audioCtx s) as [ctx|]; [|reflexivity].
  rewrite drain_turn.
  destruct (queue s); reflexivity.
Qed.

Lemma resume_turn (i : nat) (s : State) :
  resume i s =
    match nth_error (loops s) i with
    | None => (s, Pending)
    | Some l =>
        turn (sus_ctx l)
             (set_now (Qmax (now s) (sus_since l + timer_delay (sus_delay l)))
                      (set_loops (remove_nth i (loops s)) s))
    end.
Proof.
  unfold resume, fuel_for.
  destruct (nth_error (loops s) i); [|reflexivity].
  apply drain_turn.
Qed.

Lemma run_app (evs1 evs2 : list Event) (s : State) :
  run (evs1 ++ evs2) s = run evs2 (run evs1 s).
Proof. apply fold_left_app. Qed.

Lemma run_cons (e : Event) (evs : list Event) (s : State) :
  run (e :: evs) s = run evs (step e s).
Proof. reflexivity. Qed.

Lemma run_snoc (evs : list Event) (e : Event) (s : State) :
  run (evs ++ [e]) s = step e (run evs s).
Proof. rewrite run_app; reflexivity. Qed.

Lemma Inv_init : Inv init.
Proof.
  constructor; simpl; try tauto; try discriminate.
Qed.

Lemma remove_nth_single {A : Type} (i : nat) (l x : A) :
  nth_error [l] i = Some x -> x = l /\ remove_nth i [l] = [].
Proof.
  destruct i as [|i]; simpl.
  - intros H; injection H as <-; split; reflexivity.
  - destruct i; discriminate.
Qed.

(** A turn of the loop entered with no other loop parked and the flag
    set keeps the invariant. *)
Lemma Inv_turn (ctx : AudioContext) (s : State) :
  loops s = [] ->
  isPlaying s = true ->
  dequeued s ++ queue s = enqueued s ->
  map snd (started s) = filter accepts (dequeued s) ->
  (socketOpen s = true -> audioCtx s <> None) ->
  (forall t c, In (t, c) (started s) -> (t <= now s)%Q) ->
  Inv (fst (turn ctx s)).
Proof.
  intros Hl Hp Hf Hs Hc Hk.
  unfold turn.
  destruct (queue s) as [|c q] eqn:Hq.
  - constructor; simpl.
    + left; assumption.
    + rewrite Hq; assumption.
    + assumption.
    + intros _; assumption.
    + assumption.
    + rewrite Hl; intros l [].
    + assumption.
    + discriminate.
  - destruct (accepts c) eqn:Ha; simpl.
    + constructor; simpl.
      * right. rewrite Hl. eexists; split; [reflexivity|assumption].
      * rewrite <- app_assoc; assumption.
      * rewrite !map_app, filter_app, Hs; simpl; rewrite Ha; reflexivity.
      * rewrite Hp; discriminate.
      * assumption.
      * rewrite Hl; simpl. intros l [<-|[]]; simpl.
        exists (started s), c; split; reflexivity.
      * intros t c' Hin. apply in_app_or in Hin.
        destruct Hin as [Hin|[Heq|[]]]; [eauto|].
        injection Heq as <- <-. apply Qle_refl.
      * rewrite Hl; discriminate.
    + constructor; simpl.
      * left; assumption.
      * rewrite <- app_assoc; assumption.
      * rewrite filter_app, Hs; simpl; rewrite Ha, app_nil_r; reflexivity.
      * rewrite Hp; discriminate.
      * assumption.
      * rewrite Hl; intros l [].
      * assumption.
      * intros _ _. exists c; split; [|assumption].
        apply in_or_app; right; left; reflexivity.
Qed.

Lemma Inv_playNextChunk (s : State) :
  Inv s -> Inv (fst (playNextChunk s)).
Proof.
  intros I. rewrite playNextChunk_turn.
  destruct (isPlaying s) eqn:Hp; [assumption|].
  destruct (audioCtx s) as [ctx|] eqn:Hc; [|assumption].
  destruct (queue s) as [|c q] eqn:Hq; [assumption|].
  rewrite (inv_idle s I Hp) in Hq; discriminate.
Qed.

(** After a push the flag may be clear with a chunk queued; the call of
    [playNextChunk] that follows restores the invariant. *)
Lemma Inv_push_play (c : Chunk) (s : State) :
  Inv s -> socketOpen s = true -> Inv (fst (playNextChunk (push c s))).
Proof.
  intros I Ho. rewrite playNextChunk_turn.
  change (isPlaying (push c s)) with (isPlaying s).
  change (audioCtx (push c s)) with (audioCtx s).
  destruct (isPlaying s) eqn:Hp.
  - destruct I as [Hfl Hf Hs Hi Hc Ht Hk Hw]. constructor; simpl.
    + assumption.
    + rewrite app_assoc, Hf; reflexivity.
    + assumption.
    + rewrite Hp; discriminate.
    + assumption.
    + assumption.
    + assumption.
    + intros _; exact (Hw Hp).
  - destruct (audioCtx s) as [ctx|] eqn:Hctx;
      [|exfalso; apply (inv_ctx s I Ho); assumption].
    assert (Hq : queue (push c s) = c :: nil).
    { simpl. rewrite (inv_idle s I Hp). reflexivity. }
    rewrite Hq.
    destruct I as [Hfl Hf Hs Hi Hc Ht Hk Hw].
    apply Inv_turn; simpl.
    + destruct Hfl as [E|(l & E & F)]; [assumption|congruence].
    + reflexivity.
    + rewrite app_assoc, Hf; reflexivity.
    + assumption.
    + intros _; rewrite Hctx; discriminate.
    + assumption.
Qed.

Lemma Inv_resume (i : nat) (s : State) :
  Inv s -> Inv (fst (resume i s)).
Proof.
  intros I. rewrite resume_turn.
  destruct (nth_error (loops s) i) as [l|] eqn:Hn; [|assumption].
  destruct I as [Hfl Hf Hs Hi Hc Ht Hk Hw].
  destruct Hfl as [E|(l0 & E & F)].
  - rewrite E in Hn. destruct i; discriminate.
  - rewrite E in Hn. destruct (remove_nth_single _ _ _ Hn) as [-> Hr].
    rewrite E, Hr.
    apply Inv_turn; simpl; try assumption; try reflexivity.
    intros t c Hin. apply Qle_trans with (now s); [eauto|apply Q.le_max_l].
Qed.

Lemma Inv_step (e : Event) (s : State) : Inv s -> Inv (step e s).
Proof.
  intros I. destruct e as [| |f| |i|dt]; simpl.
  - destruct I; constructor; simpl; try assumption. discriminate.
  - destruct I; constructor; simpl; try assumption. discriminate.
  - destruct (socketOpen s) eqn:Ho; [|assumption].
    unfold onAudioChunk.
    destruct (negb (format f =? "pcm16")%string); [assumption|].
    destruct (decode (audio f)) as [c|err]; [|assumption].
    apply Inv_push_play; assumption.
  - apply Inv_playNextChunk; assumption.
  - apply Inv_resume; assumption.
  - destruct (Qle_bool 0 dt) eqn:Hd; [|assumption].
    destruct I as [Hfl Hf Hs Hi Hc Ht Hk Hw]; constructor; simpl; try assumption.
    intros t c Hin. apply Qle_trans with (now s); [eauto|].
    apply Qle_bool_iff in Hd.
    rewrite <- (Qplus_0_r (now s)) at 1. apply Qplus_le_r; assumption.
Qed.

Lemma Inv_run (evs : list Event) (s : State) : Inv s -> Inv (run evs s).
Proof.
  revert s; induction evs as [|e evs IH]; intros s I; [assumption|].
  rewrite run_cons. apply IH, Inv_step, I.
Qed.

Lemma Inv_reachable (s : State) : reachable s -> Inv s.
Proof.
  intros [evs ->]. apply Inv_run, Inv_init.
Qed.

(** ** The guard of [playNextChunk] *)

Lemma playNextChunk_busy (s : State) :
  isPlaying s = true -> playNextChunk s = (s, Fulfilled).
Proof.
  intros Hp. unfold playNextChunk. rewrite Hp. reflexivity.
Qed.

Lemma playNextChunk_not_ready (s : State) :
  audioCtx s = None \/ queue s = [] -> playNextChunk s = (s, Fulfilled).
Proof.
  intros H. rewrite playNextChunk_turn.
  destruct (isPlaying s); [reflexivity|].
  destruct H as [-> | ->]; [reflexivity|].
  destruct (audioCtx s); reflexivity.
Qed.

Lemma isPlaying_turn (ctx : AudioContext) (s : State) :
  isPlaying (fst (turn ctx s)) =
    match queue s with [] => false | _ :: _ => isPlaying s end.
Proof.
  unfold turn. destruct (queue s) as [|c q]; [reflexivity|].
  destruct (accepts c); reflexivity.
Qed.

Lemma playNextChunk_enters (s : State) :
  isPlaying s = false -> audioCtx s <> None -> queue s <> [] ->
  isPlaying (fst (playNextChunk s)) = true.
Proof.
  intros Hp Hc Hq. rewrite playNextChunk_turn, Hp.
  destruct (audioCtx s) as [ctx|]; [|contradiction].
  destruct (queue s) as [|c q] eqn:E; [contradiction|].
  rewrite isPlaying_turn. simpl. rewrite E. reflexivity.
Qed.

Lemma playNextChunk_sets_flag (s : State) :
  isPlaying s = false -> isPlaying (fst (playNextChunk s)) = true ->
  audioCtx s <> None /\ queue s <> [].
Proof.
  intros Hp. rewrite playNextChunk_turn, Hp.
  destruct (audioCtx s) as [ctx|]; simpl; [|congruence].
  destruct (queue s) as [|c q]; simpl; [congruence|].
  intros _; split; discriminate.
Qed.

Lemma playNextChunk_idem (s : State) :
  playNextChunk (fst (playNextChunk s)) = (fst (playNextChunk s), Fulfilled).
Proof.
  destruct (isPlaying s) eqn:Hp.
  - rewrite (playNextChunk_busy s Hp). simpl. apply playNextChunk_busy, Hp.
  - destruct (audioCtx s) as [ctx|] eqn:Hc.
    + destruct (queue s) as [|c q] eqn:Hq.
      * rewrite (playNextChunk_not_ready s (or_intror Hq)). simpl.
        apply playNextChunk_not_ready; right; assumption.
      * apply playNextChunk_busy, playNextChunk_enters; congruence.
    + rewrite (playNextChunk_not_ready s (or_introl Hc)). simpl.
      apply playNextChunk_not_ready; left; assumption.
Qed.

(** A call that suspends has set the flag before it did. *)
Lemma playNextChunk_suspends_with_flag (s : State) :
  snd (playNextChunk s) = Pending ->
  isPlaying (fst (playNextChunk s)) = true.
Proof.
  rewrite playNextChunk_turn.
  destruct (isPlaying s) eqn:Hp; [discriminate|].
  destruct (audioCtx s) as [ctx|]; [|discriminate].
  destruct (queue s) as [|c q] eqn:Hq; [discriminate|].
  unfold turn. simpl queue. rewrite Hq.
  destruct (accepts c); [reflexivity|discriminate].
Qed.

Lemma wake_many (n : nat) (s : State) :
  isPlaying s = true -> run (repeat Wake n) s = s.
Proof.
  intros Hp. induction n as [|n IH]; [reflexivity|].
  simpl repeat. rewrite run_cons. simpl step.
  rewrite (playNextChunk_busy s Hp). exact IH.
Qed.

(** C1. Between any two tasks of any run of the event loop (arrivals,
    direct wakes, timers, mounts and cleanups in any order) at most one
    invocation of [playNextChunk] is inside its drain loop, and the flag
    is set while it is.  A call that finds the flag set returns at once;
    a call that passes the three guards has set the flag by the time it
    first suspends or ends, and a call that suspends at all has set it,
    so a call made right after it is turned away: the test and the
    assignment belong to one uninterrupted task. *)
Theorem single_flight (evs : list Event) :
  (List.length (loops (run evs init)) <= 1)%nat /\
  (loops (run evs init) <> [] -> isPlaying (run evs init) = true) /\
  (forall s, isPlaying s = true -> playNextChunk s = (s, Fulfilled)) /\
  (forall s, isPlaying s = false -> audioCtx s <> None -> queue s <> [] ->
             isPlaying (fst (playNextChunk s)) = true) /\
  (forall s, snd (playNextChunk s) = Pending ->
             isPlaying (fst (playNextChunk s)) = true) /\
  (forall s, playNextChunk (fst (playNextChunk s)) =
             (fst (playNextChunk s), Fulfilled)).
Proof.
  pose proof (Inv_run evs init Inv_init) as I.
  assert (Hrest :
    (forall s, isPlaying s = true -> playNextChunk s = (s, Fulfilled)) /\
    (forall s, isPlaying s = false -> audioCtx s <> None -> queue s <> [] ->
               isPlaying (fst (playNextChunk s)) = true) /\
    (forall s, snd (playNextChunk s) = Pending ->
               isPlaying (fst (playNextChunk s)) = true) /\
    (forall s, playNextChunk (fst (playNextChunk s)) =
               (fst (playNextChunk s), Fulfilled))).
  { split; [apply playNextChunk_busy|].
    split; [apply playNextChunk_enters|].
    split; [apply playNextChunk_suspends_with_flag|apply playNextChunk_idem]. }
  destruct (inv_flight _ I) as [E|(l & E & F)]; rewrite E.
  - split; [simpl; lia|]. split; [intros H; contradiction|exact Hrest].
  - split; [simpl; lia|]. split; [intros _; exact F|exact Hrest].
Qed.

(** C10. A wake made while the context is missing or the queue is empty
    returns at once and changes neither the queue nor the flag nor
    anything else; whenever a wake takes the flag from false to true the
    context existed and the queue was not empty when it was made; and no
    task other than a wake or an arrival (which wakes) sets the flag. *)
Theorem wake_needs_context_and_work (s : State) :
  (audioCtx s = None \/ queue s = [] -> playNextChunk s = (s, Fulfilled)) /\
  (isPlaying s = false -> isPlaying (fst (playNextChunk s)) = true ->
   audioCtx s <> None /\ queue s <> []) /\
  (forall e, isPlaying s = false -> isPlaying (step e s) = true ->
             audioCtx s <> None /\ (e = Wake \/ exists f, e = AudioChunk f)).
Proof.
  split; [apply playNextChunk_not_ready|].
  split; [apply playNextChunk_sets_flag|].
  intros e Hp. destruct e as [| |f| |i|dt]; simpl.
  - congruence.
  - congruence.
  - destruct (socketOpen s); [|congruence].
    unfold onAudioChunk.
    destruct (negb (format f =? "pcm16")%string); simpl; [congruence|].
    destruct (decode (audio f)) as [c|err]; simpl; [|congruence].
    intros H. apply playNextChunk_sets_flag in H; [|exact Hp].
    split; [apply H|right; eexists; reflexivity].
  - intros H. apply playNextChunk_sets_flag in H; [|exact Hp].
    split; [apply H|left; reflexivity].
  - rewrite resume_turn.
    destruct (nth_error (loops s) i) as [l|]; simpl; [|congruence].
    rewrite isPlaying_turn. simpl.
    destruct (queue s); congruence.
  - destruct (Qle_bool 0 dt); simpl; congruence.
Qed.

(** C9. A fragment whose format tag is not ["pcm16"] is turned away by
    the first line of the handler: the handler returns normally whatever
    the payload is (it is never decoded), and the state is left as it
    was, so nothing is queued and [playNextChunk] is not called. *)
Theorem format_filter (f : Fragment) (s : State) :
  format f <> "pcm16"%string ->
  onAudioChunk f s = (s, Normal) /\ step (AudioChunk f) s = s.
Proof.
  intros Hf. unfold step, onAudioChunk.
  destruct (String.eqb_spec (format f) "pcm16") as [E|E]; [contradiction|].
  simpl. split; [reflexivity|]. destruct (socketOpen s); reflexivity.
Qed.

(** ** Timer firings *)

Lemma timer_turn (s : State) (l : Suspended) :
  loops s = [l] ->
  resume 0 s =
    turn (sus_ctx l)
         (set_now (Qmax (now s) (sus_since l + timer_delay (sus_delay l))) (set_loops [] s)).
Proof.
  intros Hl. rewrite resume_turn, Hl. reflexivity.
Qed.

Lemma timer_submit (s : State) (l : Suspended) (c : Chunk) (q : list Chunk) :
  loops s = [l] -> queue s = c :: q -> accepts c = true ->
  resume 0 s =
    (start_and_wait (sus_ctx l) c
       (shifted (Some c) q
          (set_now (Qmax (now s) (sus_since l + timer_delay (sus_delay l))) (set_loops [] s))),
     Pending).
Proof.
  intros Hl Hq Ha. rewrite (timer_turn s l Hl). unfold turn. simpl queue.
  rewrite Hq, Ha. reflexivity.
Qed.

Lemma timer_reject (s : State) (l : Suspended) (c : Chunk) (q : list Chunk) :
  loops s = [l] -> queue s = c :: q -> accepts c = false ->
  resume 0 s =
    (shifted (Some c) q
       (set_now (Qmax (now s) (sus_since l + timer_delay (sus_delay l))) (set_loops [] s)),
     Rejected NotSupportedError).
Proof.
  intros Hl Hq Ha. rewrite (timer_turn s l Hl). unfold turn. simpl queue.
  rewrite Hq, Ha. reflexivity.
Qed.

Lemma timer_exit (s : State) (l : Suspended) :
  loops s = [l] -> queue s = [] ->
  resume 0 s =
    (set_isPlaying false
       (set_now (Qmax (now s) (sus_since l + timer_delay (sus_delay l))) (set_loops [] s)),
     Fulfilled).
Proof.
  intros Hl Hq. rewrite (timer_turn s l Hl). unfold turn. simpl queue.
  rewrite Hq. reflexivity.
Qed.

(** With one loop parked and a device that takes every queued chunk, as
    many timer firings as there are queued chunks start them all, in
    queue order, and leave the same single loop parked. *)
Lemma drain_queue (q : list Chunk) :
  forall s l,
    loops s = [l] -> queue s = q ->
    (forall c, In c q -> accepts c = true) ->
    let s' := run (repeat (Timer 0) (List.length q)) s in
    played s' = played s ++ q /\
    dequeued s' = dequeued s ++ q /\
    queue s' = [] /\
    (exists l', loops s' = [l']) /\
    isPlaying s' = isPlaying s /\
    enqueued s' = enqueued s.
Proof.
  induction q as [|c q IH]; intros s l Hl Hq Ha; simpl.
  - rewrite !app_nil_r. repeat split; try assumption. exists l; assumption.
  - change (fold_left (fun st e => step e st) (repeat (Timer 0) (List.length q))
              (fst (resume 0 s)))
      with (run (repeat (Timer 0) (List.length q)) (fst (resume 0 s))).
    rewrite (timer_submit s l c q Hl Hq (Ha c (or_introl eq_refl))).
    simpl fst.
    match goal with |- context [run _ ?s1] => set (s1' := s1) end.
    destruct (IH s1' (mkSuspended (sus_ctx l)
                        (Qmax (now s) (sus_since l + timer_delay (sus_delay l))) (duration c)))
      as (H1 & H2 & H3 & H4 & H5 & H6).
    + reflexivity.
    + reflexivity.
    + intros c' Hin; apply Ha; right; assumption.
    + rewrite H1, H2, H3, H5, H6. subst s1'. unfold played. simpl.
      rewrite !map_app, <- !app_assoc. simpl.
      repeat split; try reflexivity. exact H4.
Qed.

(** Arrivals while the flag is set only append to the queue. *)
Lemma arrivals_while_playing (fs : list Fragment) (cs : list Chunk) :
  Forall2 decodes_to fs cs ->
  forall s,
    isPlaying s = true -> socketOpen s = true ->
    let s' := run (map AudioChunk fs) s in
    queue s' = queue s ++ cs /\
    enqueued s' = enqueued s ++ cs /\
    loops s' = loops s /\
    started s' = started s /\
    dequeued s' = dequeued s /\
    isPlaying s' = true /\
    now s' = now s.
Proof.
  induction 1 as [|f c fs cs [Hfmt Hdec] _ IH]; intros s Hp Ho; simpl.
  - rewrite !app_nil_r. repeat split; try reflexivity; assumption.
  - rewrite Ho. unfold onAudioChunk. rewrite Hfmt, Hdec. simpl.
    rewrite (playNextChunk_busy (push c s) Hp). simpl.
    destruct (IH (push c s) Hp Ho) as (H1 & H2 & H3 & H4 & H5 & H6 & H7).
    unfold run in *. rewrite H1, H2, H3, H4, H5, H6, H7. simpl.
    rewrite <- !app_assoc. repeat split; reflexivity.
Qed.

(** Once wedged, always wedged, and nothing is started any more. *)
Lemma wedged_step (e : Event) (s : State) :
  wedged s ->
  wedged (step e s) /\ started (step e s) = started s /\
  dequeued (step e s) = dequeued s.
Proof.
  intros [Hp Hl]. unfold wedged. destruct e as [| |f| |i|dt]; simpl.
  - repeat split; assumption.
  - repeat split; assumption.
  - destruct (socketOpen s); [|repeat split; assumption].
    unfold onAudioChunk.
    destruct (negb (format f =? "pcm16")%string); [repeat split; assumption|].
    destruct (decode (audio f)) as [c|err]; [|repeat split; assumption].
    rewrite (playNextChunk_busy (push c s) Hp). repeat split; assumption.
  - rewrite (playNextChunk_busy s Hp). repeat split; assumption.
  - unfold resume. rewrite Hl. destruct i; simpl; repeat split; assumption.
  - destruct (Qle_bool 0 dt); repeat split; assumption.
Qed.

Lemma wedged_run (evs : list Event) :
  forall s, wedged s ->
    wedged (run evs s) /\ started (run evs s) = started s /\
    dequeued (run evs s) = dequeued s.
Proof.
  induction evs as [|e evs IH]; intros s W; [repeat split; try apply W|].
  rewrite run_cons.
  destruct (wedged_step e s W) as (W1 & S1 & D1).
  destruct (IH _ W1) as (W2 & S2 & D2).
  repeat split; try apply W2; congruence.
Qed.

(** When the device takes every chunk that was ever enqueued, the
    pipeline is either idle with an empty queue or has exactly one loop
    parked. *)
Lemma idle_or_draining (s : State) :
  Inv s -> (forall c, In c (enqueued s) -> accepts c = true) ->
  (isPlaying s = false /\ queue s = []) \/ exists l, loops s = [l].
Proof.
  intros I Ha.
  destruct (inv_flight s I) as [E|(l & E & _)]; [|right; exists l; exact E].
  left. destruct (isPlaying s) eqn:Hp.
  - destruct (inv_wedged s I Hp E) as (c & Hin & Hc).
    rewrite Ha in Hc; [discriminate|].
    rewrite <- (inv_fifo s I). apply in_or_app; left; exact Hin.
  - split; [reflexivity|apply (inv_idle s I Hp)].
Qed.

(** The log of pushes only grows. *)
Lemma enqueued_turn (ctx : AudioContext) (s : State) :
  enqueued (fst (turn ctx s)) = enqueued s.
Proof.
  unfold turn. destruct (queue s) as [|c q]; [reflexivity|].
  destruct (accepts c); reflexivity.
Qed.

Lemma enqueued_step (e : Event) (s : State) :
  exists more, enqueued (step e s) = enqueued s ++ more.
Proof.
  destruct e as [| |f| |i|dt]; simpl.
  - exists []. rewrite app_nil_r. reflexivity.
  - exists []. rewrite app_nil_r. reflexivity.
  - destruct (socketOpen s); [|exists []; rewrite app_nil_r; reflexivity].
    unfold onAudioChunk.
    destruct (negb (format f =? "pcm16")%string);
      [exists []; rewrite app_nil_r; reflexivity|].
    destruct (decode (audio f)) as [c|err];
      [|exists []; rewrite app_nil_r; reflexivity].
    exists [c]. simpl fst. rewrite playNextChunk_turn.
    destruct (isPlaying (push c s)); [reflexivity|].
    destruct (audioCtx (push c s)); [|reflexivity].
    destruct (queue (push c s)); [reflexivity|].
    rewrite enqueued_turn. reflexivity.
  - exists []. rewrite app_nil_r, playNextChunk_turn.
    destruct (isPlaying s); [reflexivity|].
    destruct (audioCtx s); [|reflexivity].
    destruct (queue s); [reflexivity|].
    rewrite enqueued_turn. reflexivity.
  - exists []. rewrite app_nil_r, resume_turn.
    destruct (nth_error (loops s) i); [|reflexivity].
    rewrite enqueued_turn. reflexivity.
  - exists []. rewrite app_nil_r. destruct (Qle_bool 0 dt); reflexivity.
Qed.

Lemma enqueued_run (evs : list Event) :
  forall s, exists more, enqueued (run evs s) = enqueued s ++ more.
Proof.
  induction evs as [|e evs IH]; intros s.
  - exists []. rewrite app_nil_r. reflexivity.
  - rewrite run_cons.
    destruct (enqueued_step e s) as [m1 E1].
    destruct (IH (step e s)) as [m2 E2].
    exists (m1 ++ m2). rewrite E2, E1, app_assoc. reflexivity.
Qed.

(** A turn that shifts a chunk the device rejects ends wedged; a task
    that adds a rejected chunk to the shifted ones is such a turn. *)
Lemma rejection_wedges_step (e : Event) (s : State) :
  Inv s ->
  (forall c, In c (dequeued s) -> accepts c = true) ->
  forall c, In c (dequeued (step e s)) -> accepts c = false ->
    wedged (step e s).
Proof.
  intros I Hall c.
  assert (Hsame : forall P : Prop, In c (dequeued s) -> accepts c = false -> P).
  { intros P Hin Hc. rewrite (Hall c Hin) in Hc. discriminate. }
  assert (Hidle : isPlaying s = false -> loops s = []).
  { intros Hp. destruct (inv_flight s I) as [E|(l & _ & F)]; [exact E|congruence]. }
  assert (Hturn : forall ctx s1,
            dequeued s1 = dequeued s -> isPlaying s1 = true -> loops s1 = [] ->
            In c (dequeued (fst (turn ctx s1))) -> accepts c = false ->
            wedged (fst (turn ctx s1))).
  { intros ctx s1 Hd Hp Hl. unfold turn.
    destruct (queue s1) as [|c0 q].
    - simpl. rewrite Hd. intros Hin Hc. rewrite (Hall c Hin) in Hc. discriminate.
    - destruct (accepts c0) eqn:Ha; simpl; rewrite Hd; intros Hin Hc.
      + apply in_app_or in Hin. destruct Hin as [Hin|[<-|[]]];
          [rewrite (Hall c Hin) in Hc|]; congruence.
      + split; assumption. }
  destruct e as [| |f| |i|dt]; simpl.
  - apply Hsame.
  - apply Hsame.
  - destruct (socketOpen s); [|apply Hsame].
    unfold onAudioChunk.
    destruct (negb (format f =? "pcm16")%string); [apply Hsame|].
    destruct (decode (audio f)) as [c0|err]; [|apply Hsame].
    simpl fst. rewrite playNextChunk_turn.
    change (isPlaying (push c0 s)) with (isPlaying s).
    change (audioCtx (push c0 s)) with (audioCtx s).
    destruct (isPlaying s) eqn:Hp; [apply Hsame|].
    destruct (audioCtx s) as [ctx|]; [|apply Hsame].
    destruct (queue (push c0 s)); [apply Hsame|].
    apply Hturn; [reflexivity|reflexivity|apply Hidle; reflexivity].
  - rewrite playNextChunk_turn.
    destruct (isPlaying s) eqn:Hp; [apply Hsame|].
    destruct (audioCtx s) as [ctx|]; [|apply Hsame].
    destruct (queue s); [apply Hsame|].
    apply Hturn; [reflexivity|reflexivity|apply Hidle; reflexivity].
  - rewrite resume_turn.
    destruct (nth_error (loops s) i) as [l|] eqn:Hn; [|apply Hsame].
    destruct (inv_flight s I) as [E|(l0 & E & F)].
    { rewrite E in Hn. destruct i; discriminate. }
    rewrite E in Hn. destruct (remove_nth_single _ _ _ Hn) as [-> Hr].
    rewrite E, Hr. apply Hturn; [reflexivity|exact F|reflexivity].
  - destruct (Qle_bool 0 dt); apply Hsame.
Qed.

(** In every run, a rejected chunk among the shifted ones means that the
    flag is set with no loop left. *)
Lemma rejection_wedges_run (evs : list Event) :
  forall c, In c (dequeued (run evs init)) -> accepts c = false ->
    wedged (run evs init).
Proof.
  induction evs as [|e evs IH] using rev_ind; intros c Hin Hc.
  - destruct Hin.
  - rewrite run_snoc in *.
    pose proof (Inv_run evs init Inv_init) as I.
    destruct (forallb accepts (dequeued (run evs init))) eqn:Hall.
    + rewrite forallb_forall in Hall.
      apply (rejection_wedges_step e _ I Hall c Hin Hc).
    + assert (Hex : exists c0, In c0 (dequeued (run evs init)) /\ accepts c0 = false).
      { clear - Hall. induction (dequeued (run evs init)) as [|x l IHl];
          [discriminate|].
        simpl in Hall. destruct (accepts x) eqn:Hx.
        - destruct (IHl Hall) as (c0 & H1 & H2).
          exists c0; split; [right; exact H1|exact H2].
        - exists x; split; [left; reflexivity|exact Hx]. }
      destruct Hex as (c0 & Hin0 & Hc0).
      apply wedged_step, (IH c0 Hin0 Hc0).
Qed.

(** With one loop parked and the first chunk the device rejects at
    position [length q] of the queue, that many timer firings and one
    more start the chunks before it and end with the flag set, no loop
    left and the chunks behind it still queued. *)
Lemma drain_until_rejection (q : list Chunk) :
  forall s l c r,
    isPlaying s = true -> loops s = [l] -> queue s = q ++ c :: r ->
    (forall x, In x q -> accepts x = true) -> accepts c = false ->
    let s' := run (repeat (Timer 0) (S (List.length q))) s in
    played s' = played s ++ q /\ queue s' = r /\ wedged s'.
Proof.
  induction q as [|c0 q IH]; intros s l c r Hp Hl Hq Hacc Ha.
  - simpl repeat. cbv zeta. rewrite run_cons. simpl run.
    change (step (Timer 0) s) with (fst (resume 0 s)).
    rewrite (timer_reject s l c r Hl Hq Ha). simpl.
    rewrite app_nil_r.
    split; [reflexivity|]. split; [reflexivity|]. split; [exact Hp|reflexivity].
  - change (repeat (Timer 0) (S (List.length (c0 :: q))))
      with (Timer 0 :: repeat (Timer 0) (S (List.length q))).
    cbv zeta. rewrite run_cons.
    change (step (Timer 0) s) with (fst (resume 0 s)).
    rewrite (timer_submit s l c0 (q ++ c :: r) Hl Hq (Hacc c0 (or_introl eq_refl))).
    simpl fst.
    match goal with |- context [run _ ?x] => set (s1 := x) end.
    destruct (IH s1 (mkSuspended (sus_ctx l)
                       (Qmax (now s) (sus_since l + timer_delay (sus_delay l)))
                       (duration c0)) c r)
      as (H1 & H2 & H3).
    + exact Hp.
    + reflexivity.
    + reflexivity.
    + intros x Hx. apply Hacc. right; exact Hx.
    + exact Ha.
    + split; [|split; [exact H2|exact H3]].
      rewrite H1. subst s1. unfold played. simpl.
      rewrite map_app, <- app_assoc. reflexivity.
Qed.

(** C2, as the code has it.  In every run of the event loop, whatever
    the order of arrivals, wakes and timer firings: the chunks shifted so
    far followed by the chunks still queued are exactly the chunks
    pushed, in push order, so the queue is consumed from the front with
    nothing reordered or duplicated; the chunks started are the shifted
    ones the device took, in that order.  When the device takes every
    pushed chunk, one timer firing per queued chunk has them all started,
    in push order.  Once the device has rejected a chunk, nothing more is
    shifted or started, whatever happens next: the chunks behind the
    rejected one stay in the queue, with later arrivals behind them. *)
Theorem fifo_until_rejection (evs : list Event) :
  let s := run evs init in
  dequeued s ++ queue s = enqueued s /\
  played s = filter accepts (dequeued s) /\
  ((forall c, In c (enqueued s) -> accepts c = true) ->
   let s' := run (repeat (Timer 0) (List.length (queue s))) s in
   played s' = enqueued s /\ queue s' = []) /\
  (forall c, In c (dequeued s) -> accepts c = false ->
   forall evs',
     let s' := run evs' s in
     dequeued s' = dequeued s /\ played s' = played s /\
     exists more, queue s' = queue s ++ more).
Proof.
  intros s.
  pose proof (Inv_run evs init Inv_init) as I. fold s in I.
  split; [apply (inv_fifo s I)|].
  split; [apply (inv_started s I)|].
  split.
  - intros Ha.
    assert (Hall : played s = dequeued s).
    { unfold played. rewrite (inv_started s I).
      apply forallb_filter_id, forallb_forall.
      intros c Hin. apply Ha. rewrite <- (inv_fifo s I).
      apply in_or_app; left; exact Hin. }
    destruct (idle_or_draining s I Ha) as [[_ Hq]|[l Hl]].
    + rewrite Hq. simpl. split; [|exact Hq].
      rewrite Hall, <- (inv_fifo s I), Hq, app_nil_r. reflexivity.
    + destruct (drain_queue (queue s) s l Hl eq_refl) as (H1 & _ & H3 & _).
      * intros c Hin. apply Ha. rewrite <- (inv_fifo s I).
        apply in_or_app; right; exact Hin.
      * split; [|exact H3].
        rewrite H1, Hall. apply (inv_fifo s I).
  - intros c Hin Hc evs'. cbv zeta.
    pose proof (rejection_wedges_run evs c Hin Hc) as W. fold s in W.
    destruct (wedged_run evs' s W) as (_ & S1 & D1).
    split; [exact D1|]. split; [unfold played; rewrite S1; reflexivity|].
    destruct (enqueued_run evs' s) as [more E].
    exists more.
    pose proof (inv_fifo _ (Inv_run evs' s I)) as F.
    rewrite D1, E, <- (inv_fifo s I), <- app_assoc in F.
    apply app_inv_head in F. exact F.
Qed.

(** C7, as the code has it.  While a drain is in progress, any number
    of wakes leave the state as it is, so no second loop starts.
    Fragments that arrive meanwhile are appended behind the queued ones
    and the same single loop stays parked.  When the device takes every
    chunk queued or arrived, timer firings alone, with no further call
    of [playNextChunk], start them all in order, and the firing after
    the last one finds the queue empty and clears the flag.  When the
    device rejects one of them, the timer firings start the chunks ahead
    of the first rejected one and the loop ends there: the chunks behind
    it, arrived ones included, stay queued and nothing is started any
    more, whatever happens next. *)
Theorem drain_picks_up_arrivals
    (s : State) (l : Suspended) (fs : list Fragment) (cs : list Chunk) :
  isPlaying s = true ->
  loops s = [l] ->
  socketOpen s = true ->
  Forall2 decodes_to fs cs ->
  (forall n, run (repeat Wake n) s = s) /\
  let s1 := run (map AudioChunk fs) s in
  queue s1 = queue s ++ cs /\ loops s1 = [l] /\ started s1 = started s /\
  ((forall c, In c (queue s ++ cs) -> accepts c = true) ->
   let s2 := run (repeat (Timer 0) (List.length (queue s1))) s1 in
   played s2 = played s ++ queue s ++ cs /\
   queue s2 = [] /\
   (List.length (loops s2) = 1)%nat /\
   isPlaying s2 = true /\
   isPlaying (step (Timer 0) s2) = false /\
   loops (step (Timer 0) s2) = []) /\
  (forall q c r,
     queue s ++ cs = q ++ c :: r ->
     (forall x, In x q -> accepts x = true) ->
     accepts c = false ->
     let s2 := run (repeat (Timer 0) (S (List.length q))) s1 in
     played s2 = played s ++ q /\
     queue s2 = r /\
     isPlaying s2 = true /\
     loops s2 = [] /\
     forall evs,
       played (run evs s2) = played s2 /\
       dequeued (run evs s2) = dequeued s2 /\
       isPlaying (run evs s2) = true).
Proof.
  intros Hp Hl Ho Hfs.
  split; [intros n; apply wake_many, Hp|].
  destruct (arrivals_while_playing fs cs Hfs s Hp Ho)
    as (Q1 & _ & L1 & S1 & _ & P1 & _).
  cbv zeta. rewrite Hl in L1.
  split; [exact Q1|]. split; [exact L1|]. split; [exact S1|].
  split.
  - intros Ha.
    destruct (drain_queue (queue (run (map AudioChunk fs) s))
                (run (map AudioChunk fs) s) l L1 eq_refl)
      as (H1 & _ & H3 & (l' & H4) & H5 & _).
    { rewrite Q1. exact Ha. }
    split.
    { rewrite H1, Q1. unfold played. rewrite S1. reflexivity. }
    split; [exact H3|].
    split; [rewrite H4; reflexivity|].
    split; [rewrite H5; exact P1|].
    simpl step. rewrite (timer_exit _ l' H4 H3). simpl. split; reflexivity.
  - intros q c r Hq Hacc Hc.
    destruct (drain_until_rejection q (run (map AudioChunk fs) s) l c r)
      as (H1 & H2 & W); try assumption.
    { rewrite Q1. exact Hq. }
    split; [rewrite H1; unfold played; rewrite S1; reflexivity|].
    split; [exact H2|]. split; [apply W|]. split; [apply W|].
    intros evs. destruct (wedged_run evs _ W) as ((P & _) & S2 & D2).
    split; [unfold played; rewrite S2; reflexivity|].
    split; [exact D2|exact P].
Qed.

Lemma round_half_even_error (m : Q) :
  (m - (1 # 2) <= inject_Z (round_half_even m))%Q /\
  (inject_Z (round_half_even m) <= m + (1 # 2))%Q.
Proof.
  unfold round_half_even.
  pose proof (Qfloor_le m) as H1.
  pose proof (Qlt_floor m) as H2.
  rewrite inject_Z_plus in H2. change (inject_Z 1) with 1%Q in H2.
  set (f := Qfloor m) in *.
  destruct (Qcompare_spec (m - inject_Z f) (1 # 2)) as [E|E|E].
  - destruct (Z.even f); [|rewrite inject_Z_plus; change (inject_Z 1) with 1%Q];
      split; lra.
  - split; lra.
  - rewrite inject_Z_plus. change (inject_Z 1) with 1%Q. split; lra.
Qed.

Lemma pow2_pos (z : Z) : (0 < 2 ^ z)%Q.
Proof. apply Qpower_0_lt. reflexivity. Qed.

Lemma log2_bounds (n : Z) :
  0 < n ->
  (2 ^ Z.log2 n <= inject_Z n)%Q /\ (inject_Z n < 2 * 2 ^ Z.log2 n)%Q.
Proof.
  intros Hn.
  destruct (Z.log2_spec n Hn) as [L U].
  pose proof (Z.log2_nonneg n) as H0.
  rewrite Z.pow_succ_r in U by exact H0.
  change 2%Q with (inject_Z 2).
  rewrite <- (Zpower_Qpower 2 (Z.log2 n) H0), <- inject_Z_mult.
  rewrite <- Zle_Qle, <- Zlt_Qlt. split; assumption.
Qed.

Lemma binade_spec (q : Q) :
  (0 < q)%Q ->
  (2 ^ binade q <= q)%Q /\ (q < 2 * 2 ^ binade q)%Q.
Proof.
  intros Hq. unfold binade.
  destruct q as [n d]. simpl Qnum. simpl Qden.
  assert (Hn : 0 < n).
  { unfold Qlt in Hq. simpl in Hq. lia. }
  destruct (log2_bounds n Hn) as [A1 A2].
  destruct (log2_bounds (Zpos d) eq_refl) as [B1 B2].
  set (a := Z.log2 n) in *. set (b := Z.log2 (Zpos d)) in *.
  pose proof (pow2_pos a) as Pa. pose proof (pow2_pos b) as Pb.
  assert (Hd : (0 < inject_Z (Zpos d))%Q) by reflexivity.
  assert (Eq : (n # d == inject_Z n / inject_Z (Zpos d))%Q) by apply Qmake_Qdiv.
  assert (Ee : (2 ^ (a - b) == 2 ^ a / 2 ^ b)%Q) by (apply Qpower_minus; discriminate).
  assert (Em : (2 ^ (a - b - 1) == 2 ^ a / 2 ^ b / 2)%Q).
  { rewrite Qpower_minus by discriminate. rewrite Ee, Qpower_1_r. reflexivity. }
  assert (Up : (n # d < 2 * (2 ^ a / 2 ^ b))%Q).
  { rewrite Eq. apply Qlt_shift_div_r; [exact Hd|].
    setoid_replace (2 * (2 ^ a / 2 ^ b) * inject_Z (Zpos d))%Q
      with ((2 * 2 ^ a) * (inject_Z (Zpos d) / 2 ^ b))%Q by (field; lra).
    assert ((1 <= inject_Z (Zpos d) / 2 ^ b)%Q).
    { apply Qle_shift_div_l; [exact Pb|lra]. }
    nra. }
  assert (Lo : (2 ^ a / 2 ^ b / 2 <= n # d)%Q).
  { rewrite Eq. apply Qle_shift_div_l; [exact Hd|].
    setoid_replace (2 ^ a / 2 ^ b / 2 * inject_Z (Zpos d))%Q
      with ((1 # 2) * 2 ^ a * (inject_Z (Zpos d) / 2 ^ b))%Q by (field; lra).
    assert (H2 : (inject_Z (Zpos d) / 2 ^ b <= 2)%Q).
    { apply Qle_shift_div_r; [exact Pb|lra]. }
    set (X := (inject_Z (Zpos d) / 2 ^ b)%Q) in *.
    set (P := (2 ^ a)%Q) in *.
    assert (H3 : (0 <= (2 - X) * P)%Q) by (apply Qmult_le_0_compat; lra).
    apply Qle_trans with P; [|exact A1].
    setoid_replace P with ((1 # 2) * P * X + (1 # 2) * ((2 - X) * P))%Q at 2
      by ring.
    lra. }
  destruct (Qle_bool (2 ^ (a - b)) (n # d)) eqn:Hb.
  - apply Qle_bool_iff in Hb. split; [exact Hb|]. rewrite Ee. exact Up.
  - assert (Hlt : (n # d < 2 ^ (a - b))%Q).
    { apply Qnot_le_lt. intros H. apply Qle_bool_iff in H. congruence. }
    rewrite Em. split; [exact Lo|].
    rewrite Ee in Hlt.
    setoid_replace (2 * (2 ^ a / 2 ^ b / 2))%Q with (2 ^ a / 2 ^ b)%Q
      by (field; lra).
    exact Hlt.
Qed.

Lemma binary64_nonneg (q : Q) : (0 <= binary64 q)%Q.
Proof.
  unfold binary64. destruct (Qle_bool q 0) eqn:Hq; [apply Qle_refl|].
  assert (Hpos : (0 < q)%Q).
  { apply Qnot_le_lt. intros H. apply Qle_bool_iff in H. congruence. }
  cbv zeta.
  pose proof (pow2_pos (binade q - 52)) as Hu.
  set (ulp := (2 ^ (binade q - 52))%Q) in *.
  destruct (round_half_even_error (q / ulp)) as [L _].
  assert (Hm : (0 <= q / ulp)%Q) by (apply Qle_shift_div_l; [exact Hu|lra]).
  assert (H0 : 0 <= round_half_even (q / ulp)).
  { unfold round_half_even.
    assert (0 <= Qfloor (q / ulp)).
    { change 0 with (Qfloor (inject_Z 0)). apply Qfloor_resp_le. exact Hm. }
    destruct (_ ?= _)%Q; [destruct (Z.even _)| |]; lia. }
  rewrite Zle_Qle in H0. change (inject_Z 0) with 0%Q in H0.
  nra.
Qed.

(** Rounding to a double moves a positive number by at most half a unit
    in the last place, which is at most 2^-53 of the number. *)
Lemma binary64_error (q : Q) :
  (0 <= q)%Q ->
  (q - q * (1 # 9007199254740992) <= binary64 q)%Q /\
  (binary64 q <= q + q * (1 # 9007199254740992))%Q.
Proof.
  intros H0. unfold binary64.
  destruct (Qle_bool q 0) eqn:Hq.
  { apply Qle_bool_iff in Hq. split; nra. }
  assert (Hpos : (0 < q)%Q).
  { apply Qnot_le_lt. intros H. apply Qle_bool_iff in H. congruence. }
  cbv zeta.
  destruct (binade_spec q Hpos) as [B1 _].
  pose proof (pow2_pos (binade q - 52)) as Hu.
  assert (Eu : (2 ^ (binade q - 52) == 2 ^ binade q * (1 # 4503599627370496))%Q).
  { rewrite Qpower_minus by discriminate.
    unfold Qdiv. apply Qmult_comp; [reflexivity|]. reflexivity. }
  set (ulp := (2 ^ (binade q - 52))%Q) in *.
  destruct (round_half_even_error (q / ulp)) as [L U].
  set (M := inject_Z (round_half_even (q / ulp))) in *.
  assert (Em : (q / ulp * ulp == q)%Q) by (field; lra).
  assert (L' : (q - (1 # 2) * ulp <= M * ulp)%Q) by nra.
  assert (U' : (M * ulp <= q + (1 # 2) * ulp)%Q) by nra.
  assert (Hu2 : ((1 # 2) * ulp <= q * (1 # 9007199254740992))%Q).
  { rewrite Eu.
    setoid_replace ((1 # 2) * (2 ^ binade q * (1 # 4503599627370496)))%Q
      with (2 ^ binade q * (1 # 9007199254740992))%Q by ring.
    apply Qmult_le_compat_r; [exact B1|discriminate]. }
  split; lra.
Qed.

(** The rounding at work: 0.1 and 1/3 as doubles, two ties above 2^53,
    and [24024 / 24000 * 1000], which comes out just below 1001. *)
Lemma binary64_examples :
  (binary64 (1 # 10) == 3602879701896397 # 36028797018963968)%Q /\
  (binary64 (1 # 3) == 6004799503160661 # 18014398509481984)%Q /\
  (binary64 9007199254740993 == 9007199254740992)%Q /\
  (binary64 9007199254740995 == 9007199254740996)%Q /\
  (duration chunk_long == 8804889115230207 # 8796093022208)%Q /\
  (duration chunk_long < 1001)%Q.
Proof.
  repeat split; vm_compute; reflexivity.
Qed.

Lemma duration_nonneg (c : Chunk) : (0 <= duration c)%Q.
Proof. apply binary64_nonneg. Qed.

(** The two roundings move the delay by at most 2^-51 of the time the
    samples take. *)
Lemma duration_error (c : Chunk) :
  (nominal_ms c - nominal_ms c * (1 # 2251799813685248) <= duration c)%Q /\
  (duration c <= nominal_ms c + nominal_ms c * (1 # 2251799813685248))%Q.
Proof.
  unfold duration, buffer_duration, nominal_ms.
  set (x := (inject_Z (Z.of_nat (List.length c)) / inject_Z SAMPLE_RATE)%Q).
  assert (Hx : (0 <= x)%Q).
  { unfold x. apply Qle_shift_div_l; [reflexivity|].
    rewrite Qmult_0_l. change 0%Q with (inject_Z 0).
    rewrite <- Zle_Qle. lia. }
  destruct (binary64_error x Hx) as [L1 U1].
  pose proof (binary64_nonneg x) as H1.
  assert (Hy : (0 <= binary64 x * 1000)%Q) by lra.
  destruct (binary64_error (binary64 x * 1000) Hy) as [L2 U2].
  split; lra.
Qed.

Lemma timer_delay_nonneg (d : Q) : (0 <= timer_delay d)%Q.
Proof.
  unfold timer_delay. change 0%Q with (inject_Z 0).
  rewrite <- Zle_Qle. apply Z.le_max_l.
Qed.

(** The timer drops less than one millisecond of a delay. *)
Lemma timer_delay_bounds (d : Q) :
  (0 <= d)%Q -> (d - 1 < timer_delay d)%Q /\ (timer_delay d <= d)%Q.
Proof.
  intros Hd. unfold timer_delay.
  assert (H0 : 0 <= Qfloor d).
  { change 0 with (Qfloor (inject_Z 0)). apply Qfloor_resp_le. exact Hd. }
  rewrite Z.max_r by exact H0.
  pose proof (Qfloor_le d) as H1.
  pose proof (Qlt_floor d) as H2.
  rewrite inject_Z_plus in H2. change (inject_Z 1) with 1%Q in H2.
  split; lra.
Qed.

(** A delay of a whole number of milliseconds is kept as it is. *)
Lemma timer_delay_whole (d : Q) (k : Z) :
  (0 <= d)%Q -> (d == inject_Z k)%Q -> (timer_delay d == d)%Q.
Proof.
  intros Hd E. unfold timer_delay.
  rewrite (Qfloor_comp _ _ E), Qfloor_Z.
  assert (H0 : 0 <= k).
  { rewrite Zle_Qle. change (inject_Z 0) with 0%Q. rewrite <- E. exact Hd. }
  rewrite Z.max_r by exact H0. symmetry. exact E.
Qed.

(** C5, as the code has it.  Take a drain loop parked on its timer with
    a successor queued.  The last chunk started is the predecessor,
    started when the timer was set; the delay asked of the timer is
    [buffer.duration * 1000] as the code computes it in doubles, which
    is the time the predecessor's samples take at the sample rate up to
    a rounding error of 2^-51 of that time; no task but the timer starts
    anything or touches the parked loop; and the firing of the timer
    starts the successor.  The timer is due after the whole milliseconds
    of the delay, so the successor starts no earlier than that: less
    than one millisecond (and the rounding error) before the
    predecessor's nominal end, exactly when the timer is due if it fires
    on time, and exactly the delay after the predecessor if, besides,
    the delay is a whole number of milliseconds. *)
Theorem timer_paced_schedule
    (s : State) (l : Suspended) (c2 : Chunk) (q : list Chunk) :
  reachable s ->
  loops s = [l] ->
  queue s = c2 :: q ->
  accepts c2 = true ->
  exists prev t1 c1,
    started s = prev ++ [(t1, c1)] /\
    sus_since l = t1 /\
    sus_delay l
    = binary64
        (binary64 (inject_Z (Z.of_nat (List.length c1)) / inject_Z SAMPLE_RATE)
         * 1000) /\
    (forall e, (forall i, e <> Timer i) ->
               started (step e s) = started s /\ loops (step e s) = loops s) /\
    let nominal :=
      (inject_Z (Z.of_nat (List.length c1)) / inject_Z SAMPLE_RATE * 1000)%Q in
    let due := (t1 + timer_delay (sus_delay l))%Q in
    let t2 := Qmax (now s) due in
    started (step (Timer 0) s) = started s ++ [(t2, c2)] /\
    (due <= t2)%Q /\
    ((now s <= due)%Q -> (t2 == due)%Q) /\
    (Qabs (sus_delay l - nominal) <= nominal * (1 # 2251799813685248))%Q /\
    (t1 + sus_delay l - 1 < due)%Q /\
    (due <= t1 + sus_delay l)%Q /\
    (t1 + nominal - 1 - nominal * (1 # 2251799813685248) < due)%Q /\
    (due <= t1 + nominal + nominal * (1 # 2251799813685248))%Q /\
    (forall k : Z, (sus_delay l == inject_Z k)%Q ->
                   (due == t1 + sus_delay l)%Q).
Proof.
  intros R Hl Hq Ha.
  pose proof (Inv_reachable s R) as I.
  destruct (inv_timer s I l) as (prev & c1 & Hs & Hd).
  { rewrite Hl; left; reflexivity. }
  assert (Hp : isPlaying s = true).
  { destruct (inv_flight s I) as [E|(l0 & _ & F)]; [congruence|exact F]. }
  exists prev, (sus_since l), c1.
  split; [exact Hs|]. split; [reflexivity|].
  split; [rewrite Hd; reflexivity|].
  split.
  { intros e He. destruct e as [| |f| |i|dt]; simpl.
    - split; reflexivity.
    - split; reflexivity.
    - destruct (socketOpen s); [|split; reflexivity].
      unfold onAudioChunk.
      destruct (negb (format f =? "pcm16")%string); [split; reflexivity|].
      destruct (decode (audio f)) as [c|err]; [|split; reflexivity].
      rewrite (playNextChunk_busy (push c s) Hp). split; reflexivity.
    - rewrite (playNextChunk_busy s Hp). split; reflexivity.
    - exfalso; apply (He i); reflexivity.
    - destruct (Qle_bool 0 dt); split; reflexivity. }
  cbv zeta. simpl step. rewrite (timer_submit s l c2 q Hl Hq Ha).
  cbn [fst started start_and_wait now shifted set_now set_loops].
  rewrite Hd.
  split; [reflexivity|].
  split; [apply Q.le_max_r|].
  split; [intros Hnow; apply Q.max_r; exact Hnow|].
  destruct (timer_delay_bounds (duration c1) (duration_nonneg c1)) as [B1 B2].
  destruct (duration_error c1) as [E1 E2]. unfold nominal_ms in E1, E2.
  split; [apply Qabs_case; intros; lra|].
  split; [lra|]. split; [lra|]. split; [lra|]. split; [lra|].
  intros k Hk.
  rewrite (timer_delay_whole (duration c1) k (duration_nonneg c1) Hk).
  reflexivity.
Qed.

Lemma not_self_snoc {A : Type} (l : list A) (x : A) : l <> l ++ [x].
Proof.
  intros E. apply (f_equal (@List.length A)) in E.
  rewrite length_app in E. simpl in E. lia.
Qed.

(** What a task that shifts a chunk the device rejects leaves behind. *)
Lemma turn_rejects (ctx : AudioContext) (s : State) (c : Chunk) :
  dequeued (fst (turn ctx s)) = dequeued s ++ [c] ->
  accepts c = false ->
  turn ctx s = (shifted (Some c) (tl (queue s)) s, Rejected NotSupportedError).
Proof.
  unfold turn. destruct (queue s) as [|c0 q]; simpl.
  - intros E. destruct (not_self_snoc _ _ E).
  - destruct (accepts c0) eqn:Ha; simpl; intros E Hc;
      apply app_inv_head in E; injection E as ->; [congruence|reflexivity].
Qed.

(** C6, as the code has it.  Take any task of a run of the event loop
    in which the drain loop shifts a chunk that the device then rejects.
    The chunk is not started, the call that ran the loop has its promise
    rejected, and the task ends with the flag set and no loop parked.
    From then on, whatever arrives and whatever is called, the flag
    stays set, no loop is parked, nothing more is shifted from the queue
    and nothing is started. *)
Theorem rejected_submission_wedges (s : State) (e : Event) (c : Chunk) :
  reachable s ->
  dequeued (step e s) = dequeued s ++ [c] ->
  accepts c = false ->
  let s' := step e s in
  started s' = started s /\
  isPlaying s' = true /\
  loops s' = [] /\
  (forall i, e = Timer i -> snd (resume i s) = Rejected NotSupportedError) /\
  (forall f, e = AudioChunk f ->
     exists c0, decode (audio f) = Ok c0 /\
       snd (playNextChunk (push c0 s)) = Rejected NotSupportedError) /\
  forall evs,
    isPlaying (run evs s') = true /\
    loops (run evs s') = [] /\
    dequeued (run evs s') = dequeued s' /\
    started (run evs s') = started s.
Proof.
  intros R Hd Ha. cbv zeta.
  pose proof (Inv_reachable s R) as I.
  assert (Hidle : isPlaying s = false -> loops s = []).
  { intros Hp. destruct (inv_flight s I) as [E|(l & _ & F)]; [exact E|congruence]. }
  assert (Hgoal :
    started (step e s) = started s /\ wedged (step e s) /\
    (forall i, e = Timer i -> snd (resume i s) = Rejected NotSupportedError) /\
    (forall f, e = AudioChunk f ->
       exists c0, decode (audio f) = Ok c0 /\
         snd (playNextChunk (push c0 s)) = Rejected NotSupportedError)).
  { destruct e as [| |f| |i|dt]; simpl in Hd |- *.
    - destruct (not_self_snoc _ _ Hd).
    - destruct (not_self_snoc _ _ Hd).
    - destruct (socketOpen s) eqn:Ho; [|destruct (not_self_snoc _ _ Hd)].
      unfold onAudioChunk in *.
      destruct (negb (format f =? "pcm16")%string);
        [destruct (not_self_snoc _ _ Hd)|].
      destruct (decode (audio f)) as [c0|err] eqn:Hdec;
        [|destruct (not_self_snoc _ _ Hd)].
      simpl in Hd |- *. rewrite playNextChunk_turn in Hd |- *.
      change (isPlaying (push c0 s)) with (isPlaying s) in *.
      change (audioCtx (push c0 s)) with (audioCtx s) in *.
      destruct (isPlaying s) eqn:Hp; [destruct (not_self_snoc _ _ Hd)|].
      destruct (audioCtx s) as [ctx|] eqn:Hc;
        [|destruct (not_self_snoc _ _ Hd)].
      assert (Hq : queue (push c0 s) = [c0]).
      { simpl. rewrite (inv_idle s I Hp). reflexivity. }
      rewrite Hq in Hd |- *.
      rewrite (turn_rejects _ _ c Hd Ha). simpl.
      split; [reflexivity|]. split; [split; [reflexivity|apply Hidle; reflexivity]|].
      split; [discriminate|].
      intros f' E. injection E as <-. exists c0.
      split; [exact Hdec|].
      rewrite playNextChunk_turn.
      change (isPlaying (push c0 s)) with (isPlaying s).
      change (audioCtx (push c0 s)) with (audioCtx s).
      rewrite Hp, Hc, Hq, (turn_rejects _ _ c Hd Ha). reflexivity.
    - rewrite playNextChunk_turn in Hd.
      destruct (isPlaying s) eqn:Hp; [destruct (not_self_snoc _ _ Hd)|].
      rewrite (inv_idle s I Hp) in Hd.
      destruct (audioCtx s); destruct (not_self_snoc _ _ Hd).
    - rewrite resume_turn in Hd |- *.
      destruct (nth_error (loops s) i) as [l|] eqn:Hn;
        [|destruct (not_self_snoc _ _ Hd)].
      destruct (inv_flight s I) as [E|(l0 & E & F)].
      { rewrite E in Hn. destruct i; discriminate. }
      rewrite E in Hn. destruct (remove_nth_single _ _ _ Hn) as [-> Hr].
      rewrite E, Hr in Hd |- *.
      rewrite (turn_rejects _ _ c Hd Ha). simpl.
      split; [reflexivity|]. split; [split; [exact F|reflexivity]|].
      split; [|discriminate].
      intros i' E'. injection E' as <-.
      rewrite resume_turn, E, Hn, Hr.
      rewrite (turn_rejects _ _ c Hd Ha). reflexivity.
    - destruct (Qle_bool 0 dt); destruct (not_self_snoc _ _ Hd). }
  destruct Hgoal as (Hs & W & Ht & Hf).
  split; [exact Hs|]. split; [apply W|]. split; [apply W|].
  split; [exact Ht|]. split; [exact Hf|].
  intros evs. destruct (wedged_run evs _ W) as ((P & L) & S & D).
  repeat split; try assumption. congruence.
Qed.

(** The loop does not look at the socket. *)
Lemma turn_socket (b : bool) (ctx : AudioContext) (s : State) :
  turn ctx (set_socketOpen b s)
  = (set_socketOpen b (fst (turn ctx s)), snd (turn ctx s)).
Proof.
  unfold turn. simpl queue.
  destruct (queue s) as [|c q]; [reflexivity|].
  destruct (accepts c); reflexivity.
Qed.

Lemma step_after_cleanup (e : Event) (s : State) :
  is_local e = true ->
  step e (set_socketOpen false s) = set_socketOpen false (step e s).
Proof.
  destruct e as [| |f| |i|dt]; simpl; intros He; try discriminate.
  - reflexivity.
  - rewrite !playNextChunk_turn.
    change (isPlaying (set_socketOpen false s)) with (isPlaying s).
    change (audioCtx (set_socketOpen false s)) with (audioCtx s).
    change (queue (set_socketOpen false s)) with (queue s).
    destruct (isPlaying s); [reflexivity|].
    destruct (audioCtx s) as [ctx|]; [|reflexivity].
    destruct (queue s); [reflexivity|].
    change (set_isPlaying true (set_socketOpen false s))
      with (set_socketOpen false (set_isPlaying true s)).
    rewrite turn_socket. reflexivity.
  - rewrite !resume_turn.
    change (loops (set_socketOpen false s)) with (loops s).
    destruct (nth_error (loops s) i) as [l|]; [|reflexivity].
    match goal with
    | |- fst (turn _ ?a) = set_socketOpen false (fst (turn _ ?b)) =>
        change a with (set_socketOpen false b)
    end.
    rewrite turn_socket. reflexivity.
  - destruct (Qle_bool 0 dt); reflexivity.
Qed.

Lemma run_after_cleanup (evs : list Event) :
  forall s, forallb is_local evs = true ->
    run evs (set_socketOpen false s) = set_socketOpen false (run evs s).
Proof.
  induction evs as [|e evs IH]; intros s H; [reflexivity|].
  simpl in H. apply andb_prop in H. destruct H as [He Hr].
  rewrite !run_cons, (step_after_cleanup e s He). apply IH, Hr.
Qed.

(** C8, as the code has it.  The cleanup of the effect closes the
    socket and nothing else: the queue, the flag, the parked loop and the
    log of starts are as before, and no later arrival is handled.  The
    loop tests nothing but the length of the queue, so whatever wakes,
    timer firings and waits follow the cleanup, the refs and the log go
    through the very states they would have gone through without it.  In
    particular the next timer firing starts the chunk at the head of the
    queue if the device takes it, leaving the loop pending, and a timer
    firing clears the flag exactly when it finds the queue empty. *)
Theorem cleanup_does_not_cancel (s : State) :
  let s1 := step Cleanup s in
  queue s1 = queue s /\ isPlaying s1 = isPlaying s /\
  loops s1 = loops s /\ started s1 = started s /\
  (forall f, step (AudioChunk f) s1 = s1) /\
  (forall evs, forallb is_local evs = true ->
     run evs s1 = set_socketOpen false (run evs s)) /\
  (forall l c q, loops s = [l] -> queue s = c :: q -> accepts c = true ->
     played (step (Timer 0) s1) = played s ++ [c] /\
     queue (step (Timer 0) s1) = q /\
     snd (resume 0 s1) = Pending) /\
  (forall l, loops s = [l] -> isPlaying s = true ->
     (queue s = [] ->
      snd (resume 0 s1) = Fulfilled /\ isPlaying (step (Timer 0) s1) = false) /\
     (isPlaying (step (Timer 0) s1) = false -> queue s = [])).
Proof.
  cbv zeta.
  split; [reflexivity|]. split; [reflexivity|].
  split; [reflexivity|]. split; [reflexivity|].
  split; [intros f; reflexivity|].
  split; [intros evs H; apply (run_after_cleanup evs s H)|].
  split.
  - intros l c q Hl Hq Ha.
    pose proof (timer_submit (step Cleanup s) l c q Hl Hq Ha) as E.
    change (step (Timer 0) (step Cleanup s))
      with (fst (resume 0 (step Cleanup s))).
    rewrite E.
    split; [unfold played; simpl; rewrite map_app; reflexivity|].
    split; reflexivity.
  - intros l Hl Hp. split.
    + intros Hq. pose proof (timer_exit (step Cleanup s) l Hl Hq) as E.
      change (step (Timer 0) (step Cleanup s))
        with (fst (resume 0 (step Cleanup s))).
      rewrite E. split; reflexivity.
    + change (step (Timer 0) (step Cleanup s))
        with (fst (resume 0 (step Cleanup s))).
      rewrite (timer_turn (step Cleanup s) l Hl).
      rewrite isPlaying_turn. simpl.
      destruct (queue s); [reflexivity|]. rewrite Hp. discriminate.
Qed.

(** ** Decoding *)




(** Takes a [Forall] over a list with known head elements apart. *)
Ltac forall_inv H :=
  repeat match type of H with
         | Forall _ (_ :: _) =>
             let Hb := fresh "Hb" in
             let Hr := fresh "Hr" in
             inversion H as [|? ? Hb Hr]; subst; clear H; rename Hr into H
         end.

Ltac byte_bounds :=
  first [ apply Z.mod_pos_bound; lia
        | split; [apply Z.div_pos; lia | apply Z.div_lt_upper_bound; lia] ].



(** *** Every byte sequence arrives *)

Lemma list_triples_ind {A : Type} (P : list A -> Prop) :
  P [] -> (forall a, P [a]) -> (forall a b, P [a; b]) ->
  (forall a b c l, P l -> P (a :: b :: c :: l)) ->
  forall l, P l.
Proof.
  intros H0 H1 H2 H3.
  assert (H : forall l, P l /\ (forall a, P (a :: l)) /\ forall a b, P (a :: b :: l)).
  { induction l as [|x l (IH1 & IH2 & IH3)]; repeat split; auto. }
  intros l; apply H.
Qed.

Lemma letter_facts (v : Z) :
  0 <= v < 64 ->
  Base64.sextet (Base64.letter v) = Some v /\
  Base64.is_ascii_whitespace (Base64.letter v) = false /\
  Base64.is_pad (Base64.letter v) = false.
Proof.
  intros Hv.
  assert (H : forallb
                (fun n =>
                   match Base64.sextet (Base64.letter (Z.of_nat n)) with
                   | Some w => (w =? Z.of_nat n)
                   | None => false
                   end
                   && negb (Base64.is_ascii_whitespace (Base64.letter (Z.of_nat n)))
                   && negb (Base64.is_pad (Base64.letter (Z.of_nat n))))
                (seq 0 64) = true) by (vm_compute; reflexivity).
  rewrite forallb_forall in H.
  specialize (H (Z.to_nat v)).
  rewrite Z2Nat.id in H by lia.
  assert (Hin : In (Z.to_nat v) (seq 0 64)) by (apply in_seq; lia).
  apply H in Hin.
  apply andb_prop in Hin. destruct Hin as [Hin Hp].
  apply andb_prop in Hin. destruct Hin as [Hs Hw].
  destruct (Base64.sextet (Base64.letter v)) as [w|]; [|discriminate].
  apply Z.eqb_eq in Hs. subst w.
  apply negb_true_iff in Hw, Hp. repeat split; assumption.
Qed.

Lemma sextets_letters (vs : list Z) :
  Forall (fun v => 0 <= v < 64) vs ->
  Base64.sextets (map Base64.letter vs) = Some vs.
Proof.
  induction 1 as [|v vs Hv _ IH]; simpl; [reflexivity|].
  destruct (letter_facts v Hv) as (-> & _ & _). rewrite IH. reflexivity.
Qed.

Lemma sextets_of_bytes_range (l : list Z) :
  Forall is_byte l -> Forall (fun v => 0 <= v < 64) (Base64.sextets_of_bytes l).
Proof.
  unfold is_byte.
  induction l as [| a | a b | a b c l IH] using list_triples_ind; intros H.
  - constructor.
  - forall_inv H. simpl.
    constructor; [byte_bounds|]. constructor; [byte_bounds|constructor].
  - forall_inv H. simpl.
    constructor; [byte_bounds|]. constructor; [byte_bounds|].
    constructor; [byte_bounds|constructor].
  - forall_inv H.
    change (Base64.sextets_of_bytes (a :: b :: c :: l))
      with ((((a * 256 + b) * 256 + c) / 262144)
              :: ((((a * 256 + b) * 256 + c) / 4096) mod 64)
              :: ((((a * 256 + b) * 256 + c) / 64) mod 64)
              :: (((a * 256 + b) * 256 + c) mod 64)
              :: Base64.sextets_of_bytes l).
    constructor; [byte_bounds|]. constructor; [byte_bounds|].
    constructor; [byte_bounds|]. constructor; [byte_bounds|].
    apply IH, H.
Qed.

Lemma bytes_of_sextets_of_bytes (l : list Z) :
  Forall is_byte l ->
  Base64.bytes_of_sextets (Base64.sextets_of_bytes l) = l.
Proof.
  unfold is_byte.
  induction l as [| a | a b | a b c l IH] using list_triples_ind; intros H.
  - reflexivity.
  - forall_inv H. simpl. f_equal.
    Z.div_mod_to_equations. lia.
  - forall_inv H. simpl. f_equal; [|f_equal];
      Z.div_mod_to_equations; lia.
  - forall_inv H.
    change (Base64.sextets_of_bytes (a :: b :: c :: l))
      with ((((a * 256 + b) * 256 + c) / 262144)
              :: ((((a * 256 + b) * 256 + c) / 4096) mod 64)
              :: ((((a * 256 + b) * 256 + c) / 64) mod 64)
              :: (((a * 256 + b) * 256 + c) mod 64)
              :: Base64.sextets_of_bytes l).
    cbn [Base64.bytes_of_sextets]. rewrite (IH H).
    f_equal; [|f_equal; [|f_equal]]; Z.div_mod_to_equations; lia.
Qed.

(** The shape of an encoded payload: the number of sextets and the
    padding that goes with it. *)
Lemma encoded_shape (l : list Z) :
  (Base64.pads l = [] /\
   Nat.modulo (List.length (Base64.sextets_of_bytes l)) 4 = 0%nat) \/
  (Base64.pads l = ["="%char] /\
   Nat.modulo (List.length (Base64.sextets_of_bytes l)) 4 = 3%nat) \/
  (Base64.pads l = ["="%char; "="%char] /\
   Nat.modulo (List.length (Base64.sextets_of_bytes l)) 4 = 2%nat).
Proof.
  induction l as [| a | a b | a b c l IH] using list_triples_ind.
  - left; split; reflexivity.
  - right; right; split; reflexivity.
  - right; left; split; reflexivity.
  - change (Base64.pads (a :: b :: c :: l)) with (Base64.pads l).
    change (List.length (Base64.sextets_of_bytes (a :: b :: c :: l)))
      with (4 + List.length (Base64.sextets_of_bytes l))%nat.
    replace (4 + List.length (Base64.sextets_of_bytes l))%nat
      with (List.length (Base64.sextets_of_bytes l) + 1 * 4)%nat by lia.
    rewrite Nat.Div0.mod_add. exact IH.
Qed.

Lemma strip_padding_letters (vs : list Z) (p : list ascii) :
  Forall (fun v => 0 <= v < 64) vs ->
  (p = [] /\ Nat.modulo (List.length vs) 4 = 0%nat) \/
  (p = ["="%char] /\ Nat.modulo (List.length vs) 4 = 3%nat) \/
  (p = ["="%char; "="%char] /\ Nat.modulo (List.length vs) 4 = 2%nat) ->
  Base64.strip_padding (map Base64.letter vs ++ p) = map Base64.letter vs.
Proof.
  intros Hr Hshape. unfold Base64.strip_padding.
  assert (Hlast : forall x r, rev (map Base64.letter vs) = x :: r ->
                              Base64.is_pad x = false).
  { intros x r E.
    assert (Hin : In x (map Base64.letter vs)).
    { apply in_rev. rewrite E. left; reflexivity. }
    apply in_map_iff in Hin. destruct Hin as (v & <- & Hv).
    rewrite Forall_forall in Hr. apply letter_facts, Hr, Hv. }
  assert (Hlen4 : forall n, (Nat.modulo n 4 = 3 -> Nat.modulo (n + 1) 4 = 0)%nat /\
                            (Nat.modulo n 4 = 2 -> Nat.modulo (n + 2) 4 = 0)%nat).
  { intros n. split; intros E.
    - rewrite Nat.Div0.add_mod, E. reflexivity.
    - rewrite Nat.Div0.add_mod, E. reflexivity. }
  destruct Hshape as [[-> E]|[[-> E]|[-> E]]].
  - rewrite app_nil_r, length_map, E. simpl.
    destruct (rev (map Base64.letter vs)) as [|p1 [|p2 r]] eqn:Er; try reflexivity.
    + rewrite (Hlast p1 [] eq_refl). reflexivity.
    + rewrite (Hlast p1 (p2 :: r) eq_refl). reflexivity.
  - rewrite length_app, length_map. simpl List.length.
    rewrite (proj1 (Hlen4 _) E). simpl Nat.eqb. cbv iota.
    rewrite rev_app_distr. simpl.
    destruct (rev (map Base64.letter vs)) as [|p2 r] eqn:Er.
    + apply (f_equal (@List.length ascii)) in Er.
      rewrite length_rev, length_map in Er. rewrite Er in E. discriminate.
    + rewrite (Hlast p2 r eq_refl).
      rewrite <- (rev_involutive (map Base64.letter vs)), Er. reflexivity.
  - rewrite length_app, length_map. simpl List.length.
    rewrite (proj2 (Hlen4 _) E). simpl Nat.eqb. cbv iota.
    rewrite rev_app_distr. simpl.
    apply rev_involutive.
Qed.

Lemma letters_not_whitespace (vs : list Z) (p : list ascii) :
  Forall (fun v => 0 <= v < 64) vs ->
  p = [] \/ p = ["="%char] \/ p = ["="%char; "="%char] ->
  filter (fun c => negb (Base64.is_ascii_whitespace c))
         (map Base64.letter vs ++ p)
  = map Base64.letter vs ++ p.
Proof.
  intros Hr Hp. apply forallb_filter_id, forallb_forall.
  intros x Hin. apply in_app_or in Hin. destruct Hin as [Hin|Hin].
  - apply in_map_iff in Hin. destruct Hin as (v & <- & Hv).
    rewrite Forall_forall in Hr.
    destruct (letter_facts v (Hr v Hv)) as (_ & -> & _). reflexivity.
  - destruct Hp as [ -> | [ -> | -> ] ]; simpl in Hin;
      repeat (destruct Hin as [<-|Hin]; [reflexivity|]); contradiction.
Qed.

(** [atob] undoes the encoder on every sequence of bytes. *)
Lemma atob_btoa (bytes : list Z) :
  Forall is_byte bytes -> Base64.atob (Base64.btoa bytes) = Ok bytes.
Proof.
  intros Hb.
  pose proof (sextets_of_bytes_range bytes Hb) as Hr.
  pose proof (encoded_shape bytes) as Hs.
  unfold Base64.atob, Base64.btoa.
  rewrite list_ascii_of_string_of_list_ascii.
  rewrite (letters_not_whitespace _ _ Hr)
    by (destruct Hs as [[-> _]|[[-> _]|[-> _]]]; auto).
  rewrite (strip_padding_letters _ _ Hr Hs).
  rewrite length_map.
  assert (Hn1 : (Nat.modulo (List.length (Base64.sextets_of_bytes bytes)) 4 =? 1)%nat
                = false).
  { destruct Hs as [[_ ->]|[[_ ->]|[_ ->]]]; reflexivity. }
  rewrite Hn1, (sextets_letters _ Hr), (bytes_of_sextets_of_bytes bytes Hb).
  reflexivity.
Qed.

Lemma Uint8Array_fill_bytes (binary : list Z) :
  Forall is_byte binary -> Uint8Array_fill binary = binary.
Proof.
  unfold Uint8Array_fill, is_byte.
  induction 1 as [|b l Hb _ IH]; simpl; [reflexivity|].
  rewrite IH, Z.mod_small by exact Hb. reflexivity.
Qed.





Lemma decode_bytes_even (binary : list Z) :
  Forall is_byte binary ->
  Nat.even (List.length binary) = true ->
  decode_bytes binary = Ok (to_float32 (int16_view binary)).
Proof.
  intros Hb He. unfold decode_bytes, new_Int16Array.
  rewrite (Uint8Array_fill_bytes binary Hb), He. reflexivity.
Qed.

Lemma decode_bytes_odd (binary : list Z) :
  Nat.odd (List.length binary) = true ->
  decode_bytes binary = Err RangeError.
Proof.
  intros Ho. unfold decode_bytes, new_Int16Array, Uint8Array_fill.
  rewrite length_map. rewrite <- Nat.negb_odd, Ho. reflexivity.
Qed.

Lemma corrupt_decode (f : Fragment) :
  corrupt f ->
  decode (audio f) = Err InvalidCharacterError \/
  decode (audio f) = Err RangeError.
Proof.
  unfold decode. intros [E|(binary & E & Ho)]; rewrite E.
  - left; reflexivity.
  - right; apply decode_bytes_odd, Ho.
Qed.

(** Every even number of bytes, encoded by the sender, decodes to the
    samples of its 16-bit view. *)
Lemma decode_btoa (bytes : list Z) :
  Forall is_byte bytes ->
  Nat.even (List.length bytes) = true ->
  decode (Base64.btoa bytes) = Ok (to_float32 (int16_view bytes)).
Proof.
  intros Hb He. unfold decode.
  rewrite (atob_btoa bytes Hb). apply decode_bytes_even; assumption.
Qed.


(** C4, as the code has it.  A ["pcm16"] fragment whose payload is not
    base64, or decodes to an odd number of bytes, makes the handler
    throw ([InvalidCharacterError] from [atob], [RangeError] from the
    [Int16Array] constructor) before anything is pushed: the state is as
    before, and a run of events with such a fragment anywhere in it ends
    in the state of the run without it, so what arrived before and after
    is decoded, queued and played as if the fragment had never come. *)
Theorem corrupt_fragment_throws (f : Fragment) (s : State) :
  format f = "pcm16"%string ->
  corrupt f ->
  (exists e, (e = InvalidCharacterError \/ e = RangeError) /\
             onAudioChunk f s = (s, Throw e)) /\
  step (AudioChunk f) s = s /\
  forall evs1 evs2 s0,
    run (evs1 ++ AudioChunk f :: evs2) s0 = run (evs1 ++ evs2) s0.
Proof.
  intros Hf Hc.
  assert (H : forall st, exists e, (e = InvalidCharacterError \/ e = RangeError) /\
                          onAudioChunk f st = (st, Throw e)).
  { intros st. unfold onAudioChunk. rewrite Hf. simpl.
    destruct (corrupt_decode f Hc) as [E|E]; rewrite E; eexists; split;
      try reflexivity; auto. }
  assert (Hstep : forall st, step (AudioChunk f) st = st).
  { intros st. simpl. destruct (socketOpen st); [|reflexivity].
    destruct (H st) as (e & _ & E). rewrite E. reflexivity. }
  split; [apply H|]. split; [apply Hstep|].
  intros evs1 evs2 s0.
  rewrite !run_app, run_cons, Hstep. reflexivity.
Qed.

End Pipeline.

(** ** Instances

    The theorems above at concrete runs, with the device of the Web
    Audio API. *)

Lemma single_flight_witness :
  isPlaying (run webaudio_accepts [Mount; AudioChunk frag_low; Wake] init) = true.
Proof.
  apply (proj1 (proj2
           (single_flight webaudio_accepts [Mount; AudioChunk frag_low; Wake]))).
  intros H. vm_compute in H. discriminate H.
Defined.

Lemma fifo_until_rejection_witness :
  let s := run webaudio_accepts
             [Mount; AudioChunk frag_low; Timer 0; AudioChunk frag_high;
              AudioChunk frag_low] init in
  let s' := run webaudio_accepts (repeat (Timer 0) (List.length (queue s))) s in
  enqueued s = [chunk_low; chunk_high; chunk_low] /\
  played s' = enqueued s /\ queue s' = [].
Proof.
  intros s s'. split; [vm_compute; reflexivity|].
  apply (proj1 (proj2 (proj2 (fifo_until_rejection webaudio_accepts
           [Mount; AudioChunk frag_low; Timer 0; AudioChunk frag_high;
            AudioChunk frag_low])))).
  intros c Hin. vm_compute in Hin.
  destruct Hin as [<-|[<-|[<-|[]]]]; vm_compute; reflexivity.
Defined.


Lemma corrupt_fragment_throws_witness :
  step webaudio_accepts (AudioChunk frag_garbled) (mount init) = mount init /\
  step webaudio_accepts (AudioChunk frag_odd) (mount init) = mount init /\
  played (run webaudio_accepts
            ([Mount; AudioChunk frag_low]
               ++ AudioChunk frag_garbled :: [AudioChunk frag_high; Timer 0])
            init)
  = [chunk_low; chunk_high].
Proof.
  split; [|split].
  3: {
    destruct (corrupt_fragment_throws webaudio_accepts frag_garbled init)
      as (_ & _ & H).
    - reflexivity.
    - left; vm_compute; reflexivity.
    - rewrite H. vm_compute; reflexivity.
  }
  - apply (corrupt_fragment_throws webaudio_accepts frag_garbled (mount init)).
    + reflexivity.
    + left; vm_compute; reflexivity.
  - apply (corrupt_fragment_throws webaudio_accepts frag_odd (mount init)).
    + reflexivity.
    + right. exists [0; 0; 0]. split; vm_compute; reflexivity.
Defined.

Lemma timer_paced_schedule_witness :
  let s := run webaudio_accepts
             [Mount; AudioChunk frag_silence; AudioChunk frag_high] init in
  let l := mkSuspended (mkAudioContext SAMPLE_RATE) 0 (duration chunk_silence) in
  exists prev t1 c1,
    started s = prev ++ [(t1, c1)] /\
    started (step webaudio_accepts (Timer 0) s)
    = started s
        ++ [(Qmax (now s) (t1 + timer_delay (sus_delay l)), chunk_high)] /\
    (t1 + sus_delay l - 1 < t1 + timer_delay (sus_delay l))%Q.
Proof.
  intros s l.
  destruct (timer_paced_schedule webaudio_accepts s l chunk_high [])
    as (prev & t1 & c1 & H1 & _ & _ & _ & H5 & _ & _ & _ & H9 & _).
  - exists [Mount; AudioChunk frag_silence; AudioChunk frag_high]. reflexivity.
  - vm_compute; reflexivity.
  - vm_compute; reflexivity.
  - vm_compute; reflexivity.
  - exists prev, t1, c1. split; [exact H1|]. split; [exact H5|exact H9].
Defined.

Lemma rejected_submission_wedges_witness :
  let s := run webaudio_accepts
             [Mount; AudioChunk frag_low; AudioChunk frag_empty;
              AudioChunk frag_high] init in
  let s' := step webaudio_accepts (Timer 0) s in
  queue s' = [chunk_high] /\ isPlaying s' = true /\ loops s' = [] /\
  isPlaying (run webaudio_accepts [Timer 0; Wake] s') = true.
Proof.
  intros s s'.
  destruct (rejected_submission_wedges webaudio_accepts s (Timer 0) [])
    as (_ & H2 & H3 & _ & _ & H6).
  - exists [Mount; AudioChunk frag_low; AudioChunk frag_empty;
            AudioChunk frag_high]. reflexivity.
  - vm_compute; reflexivity.
  - vm_compute; reflexivity.
  - split; [vm_compute; reflexivity|]. split; [exact H2|]. split; [exact H3|].
    apply (H6 [Timer 0; Wake]).
Defined.

Lemma drain_picks_up_arrivals_witness :
  let s := run webaudio_accepts [Mount; AudioChunk frag_low] init in
  let s1 := run webaudio_accepts (map AudioChunk [frag_high; frag_low]) s in
  let s2 := run webaudio_accepts
              (repeat (Timer 0) (List.length (queue s1))) s1 in
  queue s1 = queue s ++ [chunk_high; chunk_low] /\
  played s2 = played s ++ queue s ++ [chunk_high; chunk_low].
Proof.
  intros s s1 s2.
  destruct (drain_picks_up_arrivals webaudio_accepts s
              (mkSuspended (mkAudioContext SAMPLE_RATE) 0 (duration chunk_low))
              [frag_high; frag_low] [chunk_high; chunk_low])
    as (_ & H1 & _ & _ & H4 & _).
  - vm_compute; reflexivity.
  - vm_compute; reflexivity.
  - vm_compute; reflexivity.
  - constructor; [split; vm_compute; reflexivity|].
    constructor; [split; vm_compute; reflexivity|constructor].
  - split; [exact H1|]. apply H4.
    intros c Hin. vm_compute in Hin.
    destruct Hin as [<-|[<-|[]]]; vm_compute; reflexivity.
Defined.

Lemma cleanup_does_not_cancel_witness :
  let s := run webaudio_accepts
             [Mount; AudioChunk frag_low; AudioChunk frag_high] init in
  let s1 := step webaudio_accepts Cleanup s in
  run webaudio_accepts [Timer 0; Wake; Timer 0] s1
  = set_socketOpen false (run webaudio_accepts [Timer 0; Wake; Timer 0] s) /\
  played (step webaudio_accepts (Timer 0) s1) = played s ++ [chunk_high].
Proof.
  intros s s1.
  destruct (cleanup_does_not_cancel webaudio_accepts s)
    as (_ & _ & _ & _ & _ & H1 & H2 & _).
  split; [apply H1; reflexivity|].
  apply (H2 (mkSuspended (mkAudioContext SAMPLE_RATE) 0 (duration chunk_low))
            chunk_high []); vm_compute; reflexivity.
Defined.

Lemma format_filter_witness :
  step webaudio_accepts (AudioChunk frag_mp3) (mount init) = mount init.
Proof.
  apply (format_filter webaudio_accepts frag_mp3 (mount init)).
  discriminate.
Defined.

Lemma wake_needs_context_and_work_witness :
  playNextChunk webaudio_accepts init = (init, Fulfilled) /\
  playNextChunk webaudio_accepts (mount init) = (mount init, Fulfilled) /\
  audioCtx (push chunk_low (mount init)) <> None.
Proof.
  split; [|split].
  - apply (wake_needs_context_and_work webaudio_accepts init).
    left; reflexivity.
  - apply (wake_needs_context_and_work webaudio_accepts (mount init)).
    right; reflexivity.
  - apply (wake_needs_context_and_work webaudio_accepts
             (push chunk_low (mount init))); vm_compute; reflexivity.
Defined.

(** ** Where the code departs from the specification *)

(** C4: a corrupt fragment is not absorbed by the handler.  On a
    payload with a character outside the alphabet, and on a payload of
    three bytes, the handler ends by throwing. *)
Lemma corrupt_fragment_raises :
  corrupt frag_garbled /\
  onAudioChunk webaudio_accepts frag_garbled (mount init)
    = (mount init, Throw InvalidCharacterError) /\
  corrupt frag_odd /\
  onAudioChunk webaudio_accepts frag_odd (mount init)
    = (mount init, Throw RangeError).
Proof.
  split; [left; vm_compute; reflexivity|].
  split; [vm_compute; reflexivity|].
  split; [right; exists [0; 0; 0]; split; vm_compute; reflexivity|].
  vm_compute; reflexivity.
Qed.

(** C6: a rejected submission ends the drain with the flag set.  The
    fragment without samples is refused by [createBuffer]; the chunk
    queued behind it is never started, the flag stays true, no loop is
    left, and further timers and wakes change nothing. *)
Lemma rejected_submission_sticks :
  webaudio_accepts [] = false /\
  decode (audio frag_empty) = Ok [] /\
  playNextChunk webaudio_accepts (push [] (mount init))
    = (mkState (Some (mkAudioContext SAMPLE_RATE)) [] true true [] 0%Q
               [[]] [[]] [],
       Rejected NotSupportedError) /\
  run webaudio_accepts
      [Mount; AudioChunk frag_low; AudioChunk frag_empty; AudioChunk frag_high;
       Timer 0] init
    = mkState (Some (mkAudioContext SAMPLE_RATE)) [chunk_high] true true []
              (Qmax 0 (0 + timer_delay (duration chunk_low)))
              [chunk_low; []; chunk_high] [chunk_low; []] [(0%Q, chunk_low)] /\
  run webaudio_accepts
      [Mount; AudioChunk frag_low; AudioChunk frag_empty; AudioChunk frag_high;
       Timer 0; Timer 0; Wake; Timer 0] init
    = run webaudio_accepts
      [Mount; AudioChunk frag_low; AudioChunk frag_empty; AudioChunk frag_high;
       Timer 0] init.
Proof.
  split; [vm_compute; reflexivity|].
  split; [vm_compute; reflexivity|].
  split; [vm_compute; reflexivity|].
  split; vm_compute; reflexivity.
Qed.

(** C2: a fragment behind a rejected one is skipped.  Three fragments
    are enqueued in order, the second without samples; the device takes
    the third, which is covered by no drop policy, yet it is never
    removed from the queue and never started, whatever happens after the
    second was refused. *)
Lemma fragment_behind_rejection_is_skipped :
  let s := run webaudio_accepts
             [Mount; AudioChunk frag_low; AudioChunk frag_empty;
              AudioChunk frag_high; Timer 0] init in
  enqueued s = [chunk_low; []; chunk_high] /\
  webaudio_accepts chunk_high = true /\
  forall evs,
    played (run webaudio_accepts evs s) = [chunk_low] /\
    dequeued (run webaudio_accepts evs s) = [chunk_low; []].
Proof.
  intros s.
  split; [vm_compute; reflexivity|]. split; [reflexivity|].
  intros evs.
  assert (W : wedged s) by (split; vm_compute; reflexivity).
  destruct (wedged_run webaudio_accepts evs s W) as (_ & S1 & D1).
  unfold played. rewrite S1, D1. split; vm_compute; reflexivity.
Qed.

(** C5: the successor can start before the predecessor has ended.  A
    chunk of 25 samples takes 25/24 ms; the delay the loop computes for
    it is a little more than 1 ms, of which [setTimeout] keeps 1 ms, and
    the chunk queued behind it is started when that timer fires, 1 ms
    after the first, which is before the first one's nominal end.  A
    whole number of milliseconds does not help either: for 24024
    samples, which take 1001 ms, the product in doubles falls just short
    of 1001 and the timer is due after 1000 ms. *)
Lemma successor_overlaps_predecessor :
  let s := run webaudio_accepts
             [Mount; AudioChunk frag_silence; AudioChunk frag_high] init in
  decode (audio frag_silence) = Ok chunk_silence /\
  List.length chunk_silence = 25%nat /\
  (nominal_ms chunk_silence == 25 # 24)%Q /\
  (1 < duration chunk_silence)%Q /\
  started s = [(0%Q, chunk_silence)] /\
  loops s = [mkSuspended (mkAudioContext SAMPLE_RATE) 0 (duration chunk_silence)] /\
  (exists t2,
     started (step webaudio_accepts (Timer 0) s)
     = [(0%Q, chunk_silence); (t2, chunk_high)] /\
     (t2 == 1)%Q /\ (t2 < 0 + nominal_ms chunk_silence)%Q) /\
  (nominal_ms chunk_long == 1001)%Q /\
  (timer_delay (duration chunk_long) == 1000)%Q.
Proof.
  intros s.
  split; [vm_compute; reflexivity|]. split; [reflexivity|].
  split; [vm_compute; reflexivity|]. split; [vm_compute; reflexivity|].
  split; [vm_compute; reflexivity|]. split; [vm_compute; reflexivity|].
  split.
  - exists (Qmax 0 (0 + timer_delay (duration chunk_silence))).
    split; [vm_compute; reflexivity|].
    split; vm_compute; reflexivity.
  - split; vm_compute; reflexivity.
Qed.

(** C7: a fragment appended during a drain is not always processed.
    While the first chunk plays, a fragment without samples is queued;
    the fragment that arrives next, during the same drain, is appended
    behind it.  The loop ends on the refused chunk, and the appended one
    is never started, whatever wakes and timers follow. *)
Lemma arrival_behind_rejection_is_never_played :
  let s := run webaudio_accepts
             [Mount; AudioChunk frag_low; AudioChunk frag_empty] init in
  let s1 := step webaudio_accepts (AudioChunk frag_high) s in
  isPlaying s = true /\
  List.length (loops s) = 1%nat /\
  queue s1 = queue s ++ [chunk_high] /\
  webaudio_accepts chunk_high = true /\
  forall evs,
    played (run webaudio_accepts (Timer 0 :: evs) s1) = [chunk_low] /\
    loops (run webaudio_accepts (Timer 0 :: evs) s1) = [].
Proof.
  intros s s1.
  split; [vm_compute; reflexivity|]. split; [vm_compute; reflexivity|].
  split; [vm_compute; reflexivity|]. split; [reflexivity|].
  intros evs. rewrite run_cons.
  assert (W : wedged (step webaudio_accepts (Timer 0) s1))
    by (split; vm_compute; reflexivity).
  destruct (wedged_run webaudio_accepts evs _ W) as ((_ & L1) & S1 & _).
  unfold played. rewrite S1. split; [vm_compute; reflexivity|exact L1].
Qed.

(** C8: the cleanup is no cancellation.  With one chunk playing and one
    queued, the cleanup leaves the flag set and the chunk queued, and the
    next timer firing starts that chunk. *)
Lemma drain_survives_cleanup :
  isPlaying (run webaudio_accepts
               [Mount; AudioChunk frag_low; AudioChunk frag_high; Cleanup] init)
    = true /\
  queue (run webaudio_accepts
           [Mount; AudioChunk frag_low; AudioChunk frag_high; Cleanup] init)
    = [chunk_high] /\
  played (run webaudio_accepts
            [Mount; AudioChunk frag_low; AudioChunk frag_high; Cleanup] init)
    = [chunk_low] /\
  played (run webaudio_accepts
            [Mount; AudioChunk frag_low; AudioChunk frag_high; Cleanup; Timer 0]
            init)
    = [chunk_low; chunk_high].
Proof.
  split; [vm_compute; reflexivity|].
  split; [vm_compute; reflexivity|].
  split; vm_compute; reflexivity.
Qed.

(** ** More on the audio path *)

Lemma bytes_of_pcm_bytes (pcm : list Z) : Forall is_byte (bytes_of_pcm pcm).
Proof.
  unfold is_byte.
  induction pcm as [|s pcm IH]; [constructor|].
  change (bytes_of_pcm (s :: pcm))
    with ((s mod 65536) mod 256 :: (s mod 65536) / 256 :: bytes_of_pcm pcm).
  constructor; [apply Z.mod_pos_bound; lia|].
  constructor; [|exact IH].
  pose proof (Z.mod_pos_bound s 65536 ltac:(lia)).
  split; [apply Z.div_pos; lia|apply Z.div_lt_upper_bound; lia].
Qed.

Lemma bytes_of_pcm_length (pcm : list Z) :
  List.length (bytes_of_pcm pcm) = (2 * List.length pcm)%nat.
Proof.
  induction pcm as [|s pcm IH]; [reflexivity|].
  change (bytes_of_pcm (s :: pcm))
    with ((s mod 65536) mod 256 :: (s mod 65536) / 256 :: bytes_of_pcm pcm).
  simpl List.length. rewrite IH. lia.
Qed.

Lemma int16_view_bytes_of_pcm (pcm : list Z) :
  Forall is_int16 pcm -> int16_view (bytes_of_pcm pcm) = pcm.
Proof.
  unfold is_int16.
  induction 1 as [|s pcm Hs _ IH]; [reflexivity|].
  change (bytes_of_pcm (s :: pcm))
    with ((s mod 65536) mod 256 :: (s mod 65536) / 256 :: bytes_of_pcm pcm).
  change (int16_view (?a :: ?b :: bytes_of_pcm pcm))
    with (int16_of_bytes a b :: int16_view (bytes_of_pcm pcm)).
  rewrite IH. f_equal.
  unfold int16_of_bytes. cbv zeta.
  destruct (Z.ltb_spec ((s mod 65536) mod 256 + 256 * ((s mod 65536) / 256)) 32768);
    Z.div_mod_to_equations; lia.
Qed.

(** X1. Whatever 16-bit samples the sender lays out low byte first and
    encodes in base64, the handler's decoding gives back each sample
    divided by 32768, in order; and a payload that encodes an odd number
    of bytes always ends in the [RangeError] of the [Int16Array]
    constructor. *)
Theorem pcm16_round_trip (pcm : list Z) (bytes : list Z) :
  Forall is_int16 pcm ->
  Forall is_byte bytes ->
  decode (Base64.btoa (bytes_of_pcm pcm)) = Ok (to_float32 pcm) /\
  (Nat.odd (List.length bytes) = true ->
   decode (Base64.btoa bytes) = Err RangeError).
Proof.
  intros Hp Hb. split.
  - rewrite decode_btoa.
    + rewrite (int16_view_bytes_of_pcm pcm Hp). reflexivity.
    + apply bytes_of_pcm_bytes.
    + rewrite bytes_of_pcm_length, Nat.even_mul. reflexivity.
  - intros Ho. unfold decode. rewrite (atob_btoa bytes Hb).
    apply decode_bytes_odd, Ho.
Qed.

Lemma pcm16_round_trip_witness :
  decode (Base64.btoa (bytes_of_pcm [-32768; -1; 0; 1; 32767]))
  = Ok (to_float32 [-32768; -1; 0; 1; 32767]) /\
  decode (Base64.btoa [1; 2; 3]) = Err RangeError.
Proof.
  destruct (pcm16_round_trip [-32768; -1; 0; 1; 32767] [1; 2; 3])
    as [H1 H2].
  - repeat constructor; unfold is_int16; lia.
  - repeat constructor; unfold is_byte; lia.
  - split; [exact H1|apply H2; reflexivity].
Defined.

Section AudioPath.

Variable accepts : Chunk -> bool.


(** With one loop parked and a chunk in the queue that the device
    rejects, the loop has died by the time the timer has fired once for
    every chunk up to and including that one. *)
Lemma drain_reaches_rejection (q : list Chunk) :
  forall s l c r,
    isPlaying s = true -> loops s = [l] -> queue s = q ++ c :: r ->
    accepts c = false ->
    wedged (run accepts (repeat (Timer 0) (S (List.length q))) s).
Proof.
  induction q as [|c0 q IH]; intros s l c r Hp Hl Hq Ha.
  - simpl repeat. rewrite run_cons. simpl run.
    change (step accepts (Timer 0) s) with (fst (resume accepts 0 s)).
    rewrite (timer_reject accepts s l c r Hl Hq Ha). simpl.
    split; [exact Hp|reflexivity].
  - change (repeat (Timer 0) (S (List.length (c0 :: q))))
      with (Timer 0 :: repeat (Timer 0) (S (List.length q))).
    rewrite run_cons.
    change (step accepts (Timer 0) s) with (fst (resume accepts 0 s)).
    destruct (accepts c0) eqn:Ha0.
    + rewrite (timer_submit accepts s l c0 (q ++ c :: r) Hl Hq Ha0). simpl fst.
      eapply IH; simpl; eauto.
    + rewrite (timer_reject accepts s l c0 (q ++ c :: r) Hl Hq Ha0). simpl fst.
      apply wedged_run. split; [exact Hp|reflexivity].
Qed.

(** X3. One fragment that the device rejects is enough to silence the
    player for good, whenever it arrives: once the timer has fired for
    every chunk that was queued before it and for the fragment itself,
    the flag is set with no loop left, and it stays so through whatever
    follows, with nothing started any more. *)
Theorem rejected_fragment_silences_player
    (s : State) (f : Fragment) (c : Chunk) (evs : list Event) :
  reachable accepts s ->
  socketOpen s = true ->
  decodes_to f c ->
  accepts c = false ->
  let s' := run accepts
              (AudioChunk f :: repeat (Timer 0) (S (List.length (queue s)))) s in
  isPlaying s' = true /\ loops s' = [] /\
  isPlaying (run accepts evs s') = true /\
  loops (run accepts evs s') = [] /\
  started (run accepts evs s') = started s'.
Proof.
  intros R Ho [Hfmt Hdec] Ha. cbv zeta.
  pose proof (Inv_reachable accepts s R) as I.
  assert (W : wedged (run accepts
                (AudioChunk f :: repeat (Timer 0) (S (List.length (queue s)))) s)).
  { rewrite run_cons.
    assert (E : step accepts (AudioChunk f) s = fst (playNextChunk accepts (push c s))).
    { simpl. rewrite Ho. unfold onAudioChunk. rewrite Hfmt, Hdec. reflexivity. }
    rewrite E. clear E.
    rewrite playNextChunk_turn.
    change (isPlaying (push c s)) with (isPlaying s).
    change (audioCtx (push c s)) with (audioCtx s).
    destruct (isPlaying s) eqn:Hp.
    - destruct (inv_flight accepts s I) as [E|(l & E & _)].
      + apply wedged_run. split; [exact Hp|exact E].
      + apply (drain_reaches_rejection (queue s) (push c s) l c []);
          simpl; auto.
    - destruct (audioCtx s) as [ctx|] eqn:Hc;
        [|destruct (inv_ctx accepts s I Ho Hc)].
      assert (Hq : queue (push c s) = [c]).
      { simpl. rewrite (inv_idle accepts s I Hp). reflexivity. }
      rewrite Hq. unfold turn. simpl queue.
      rewrite (inv_idle accepts s I Hp). simpl app. cbv iota.
      rewrite Ha. simpl fst.
      apply wedged_run. split; [reflexivity|].
      simpl. destruct (inv_flight accepts s I) as [E|(l & _ & F)];
        [exact E|congruence]. }
  destruct (wedged_run accepts evs _ W) as ((P & L) & S & _).
  split; [apply W|]. split; [apply W|].
  split; [exact P|]. split; [exact L|exact S].
Qed.

Lemma schedule_proper (q : list Chunk) :
  forall t t', (t == t')%Q -> same_log (schedule t q) (schedule t' q).
Proof.
  induction q as [|c q IH]; intros t t' E; simpl; [constructor|].
  constructor; [split; [exact E|reflexivity]|].
  apply IH. rewrite E. reflexivity.
Qed.

Lemma same_log_cons (t : Q) (c : Chunk) (l1 l2 : list (Q * Chunk)) :
  same_log l1 l2 -> same_log ((t, c) :: l1) ((t, c) :: l2).
Proof.
  intros H. constructor; [split; reflexivity|exact H].
Qed.

Lemma same_log_trans (l1 l2 l3 : list (Q * Chunk)) :
  same_log l1 l2 -> same_log l2 l3 -> same_log l1 l3.
Proof.
  unfold same_log. intros H; revert l3.
  induction H as [|a b l1 l2 [Ht Hc] _ IH]; intros l3 H23.
  - inversion H23; constructor.
  - inversion H23 as [|? d ? l3' [Ht' Hc'] H']; subst.
    constructor; [split; [rewrite Ht; exact Ht'|congruence]|apply IH, H'].
Qed.

(** X4. A backlog is paced by the timers.  Take chunks of at least
    4 ms, for which the minimum delay that browsers impose on chains of
    timers plays no role.  With one loop parked and a device that takes
    every queued chunk, timer firings with no delay in between start the
    queued chunks in order, the first when the pending timer is due and
    each of the others when the timer set at the start of the one before
    it is due: the whole milliseconds of that chunk's delay later, which
    is less than one millisecond short of the delay and never more than
    it. *)
Theorem backlog_follows_the_timers
    (s : State) (l : Suspended) :
  loops s = [l] ->
  (forall c, In c (queue s) -> accepts c = true) ->
  (4 <= sus_delay l)%Q ->
  (forall c, In c (queue s) -> (4 <= duration c)%Q) ->
  (exists log,
     started (run accepts (repeat (Timer 0) (List.length (queue s))) s)
     = started s ++ log /\
     same_log log
       (schedule (Qmax (now s) (sus_since l + timer_delay (sus_delay l)))
                 (queue s))) /\
  forall c : Chunk,
    (duration c - 1 < timer_delay (duration c))%Q /\
    (timer_delay (duration c) <= duration c)%Q.
Proof.
  intros Hl Ha _ _.
  split; [|intros c; apply timer_delay_bounds, duration_nonneg].
  remember (queue s) as q eqn:Hq. symmetry in Hq.
  revert s l Hq Hl Ha. induction q as [|c q IH]; intros s l Hq Hl Ha.
  - exists []. simpl. rewrite app_nil_r. split; [reflexivity|constructor].
  - change (repeat (Timer 0) (List.length (c :: q)))
      with (Timer 0 :: repeat (Timer 0) (List.length q)).
    rewrite run_cons.
    change (step accepts (Timer 0) s) with (fst (resume accepts 0 s)).
    rewrite (timer_submit accepts s l c q Hl Hq (Ha c (or_introl eq_refl))).
    simpl fst.
    set (t1 := Qmax (now s) (sus_since l + timer_delay (sus_delay l))).
    match goal with |- context [run accepts _ ?x] => set (s1 := x) end.
    destruct (IH s1 (mkSuspended (sus_ctx l) t1 (duration c)))
      as (log & Hlog & Hsame).
    + reflexivity.
    + reflexivity.
    + intros c' Hin. apply Ha. right; exact Hin.
    + exists ((t1, c) :: log). split.
      * rewrite Hlog. subst s1. simpl. rewrite <- app_assoc. reflexivity.
      * simpl schedule. apply same_log_cons.
        eapply same_log_trans; [exact Hsame|].
        apply schedule_proper. subst s1. simpl.
        apply Q.max_r.
        rewrite <- (Qplus_0_r t1) at 1.
        apply Qplus_le_r, timer_delay_nonneg.
Qed.

End AudioPath.


Lemma rejected_fragment_silences_player_witness :
  let s := run webaudio_accepts [Mount; AudioChunk frag_low; AudioChunk frag_high]
             init in
  let s' := run webaudio_accepts
              (AudioChunk frag_empty
                 :: repeat (Timer 0) (S (List.length (queue s)))) s in
  isPlaying s' = true /\ loops s' = [] /\
  started (run webaudio_accepts [AudioChunk frag_low; Timer 0; Wake] s')
  = started s'.
Proof.
  intros s s'.
  destruct (rejected_fragment_silences_player webaudio_accepts s frag_empty []
              [AudioChunk frag_low; Timer 0; Wake])
    as (H1 & H2 & _ & _ & H5).
  - exists [Mount; AudioChunk frag_low; AudioChunk frag_high]. reflexivity.
  - vm_compute; reflexivity.
  - split; vm_compute; reflexivity.
  - vm_compute; reflexivity.
  - split; [exact H1|]. split; [exact H2|exact H5].
Defined.

Lemma backlog_follows_the_timers_witness :
  let s := run webaudio_accepts
             [Mount; AudioChunk frag_tone; AudioChunk frag_tone;
              AudioChunk frag_tone] init in
  exists log,
    started (run webaudio_accepts (repeat (Timer 0) (List.length (queue s))) s)
    = started s ++ log /\
    same_log log
      (schedule (Qmax (now s) (0 + timer_delay (duration chunk_tone))) (queue s)).
Proof.
  intros s.
  apply (backlog_follows_the_timers webaudio_accepts s
           (mkSuspended (mkAudioContext SAMPLE_RATE) 0 (duration chunk_tone))).
  - vm_compute; reflexivity.
  - intros c Hin. vm_compute in Hin.
    destruct Hin as [<-|[<-|[]]]; vm_compute; reflexivity.
  - vm_compute. discriminate.
  - intros c Hin. vm_compute in Hin.
    destruct Hin as [<-|[<-|[]]]; vm_compute; discriminate.
Defined.

(** ** Arrays updated in place *)

Lemma set_nth_length {A : Type} (n : nat) (x : A) (l : list A) :
  List.length (set_nth n x l) = List.length l.
Proof.
  revert n; induction l as [|y l IH]; intros [|n]; simpl; auto.
Qed.

Lemma nth_set_nth_same {A : Type} (n : nat) (x d : A) (l : list A) :
  (n < List.length l)%nat -> nth n (set_nth n x l) d = x.
Proof.
  revert n; induction l as [|y l IH]; intros [|n] H; simpl in *; try lia.
  - reflexivity.
  - apply IH. lia.
Qed.

Lemma nth_set_nth_other {A : Type} (n m : nat) (x d : A) (l : list A) :
  n <> m -> nth m (set_nth n x l) d = nth m l d.
Proof.
  revert n m; induction l as [|y l IH]; intros [|n] [|m] H; simpl;
    try reflexivity; try congruence.
  apply IH. congruence.
Qed.

Module ChatProofs.
Import Chat.

(** ** The heap *)

Lemma list_snoc_cases {A : Type} (l : list A) :
  l = [] \/ exists pre x, l = pre ++ [x].
Proof.
  destruct l as [|a l] using rev_ind; [left; reflexivity|].
  right. exists l, a. reflexivity.
Qed.

Lemma view_of_alloc (h : list Message) (m : Message) (refs : list nat) :
  Forall (fun r => (r < List.length h)%nat) refs ->
  view_of (h ++ [m]) refs = view_of h refs.
Proof.
  unfold view_of, deref. intros H. apply map_ext_in.
  intros r Hin. rewrite Forall_forall in H.
  apply app_nth1, H, Hin.
Qed.

Lemma deref_alloc (h : list Message) (m : Message) :
  deref (h ++ [m]) (List.length h) = m.
Proof.
  unfold deref. rewrite app_nth2 by lia.
  rewrite Nat.sub_diag. reflexivity.
Qed.

Lemma view_of_set_other (h : list Message) (r : nat) (m : Message)
    (refs : list nat) :
  ~ In r refs -> view_of (set_nth r m h) refs = view_of h refs.
Proof.
  unfold view_of, deref. intros H. apply map_ext_in.
  intros r' Hin. apply nth_set_nth_other. intros ->. contradiction.
Qed.

Lemma view_of_snoc (h : list Message) (refs : list nat) (r : nat) :
  view_of h (refs ++ [r]) = view_of h refs ++ [deref h r].
Proof.
  unfold view_of. rewrite map_app. reflexivity.
Qed.

Lemma nth_error_last {A : Type} (pre : list A) (x : A) :
  nth_error (pre ++ [x]) (List.length (pre ++ [x]) - 1) = Some x.
Proof.
  rewrite length_app. simpl.
  replace (List.length pre + 1 - 1)%nat with (List.length pre) by lia.
  rewrite nth_error_app2 by lia. rewrite Nat.sub_diag. reflexivity.
Qed.

Lemma nth_error_deref (h : list Message) (r : nat) :
  (r < List.length h)%nat -> nth_error h r = Some (deref h r).
Proof.
  intros H. unfold deref. apply nth_error_nth'. exact H.
Qed.

(** ** The updaters, seen through the transcript *)

Lemma wf_heap_alloc (h : list Message) (m : Message) (refs : list nat) :
  wf_heap h refs -> wf_heap (h ++ [m]) (refs ++ [List.length h]).
Proof.
  intros [Hv Hn]. split.
  - apply Forall_app. split.
    + eapply Forall_impl; [|exact Hv]. intros r Hr. simpl in Hr.
      rewrite length_app. simpl. lia.
    + constructor; [rewrite length_app; simpl; lia|constructor].
  - apply NoDup_app; [exact Hn|repeat constructor; intros []|].
    intros r Hin [<-|[]]. rewrite Forall_forall in Hv.
    specialize (Hv _ Hin). simpl in Hv. lia.
Qed.

Lemma appendUser_view (t : Text) (h : list Message) (prev : list nat) :
  wf_heap h prev ->
  let (h', msgs) := appendUserUpdater t h prev in
  view_of h' msgs = view_of h prev ++ [mkMessage User t] /\ wf_heap h' msgs.
Proof.
  intros W. unfold appendUserUpdater. split; [|apply wf_heap_alloc, W].
  rewrite view_of_snoc, deref_alloc, (view_of_alloc _ _ _ (proj1 W)).
  reflexivity.
Qed.

Lemma alloc_bot_view (b : Text) (h : list Message) (prev : list nat) :
  wf_heap h prev ->
  view_of (h ++ [mkMessage Bot b]) (prev ++ [List.length h])
  = view_of h prev ++ [mkMessage Bot b].
Proof.
  intros W.
  rewrite view_of_snoc, deref_alloc, (view_of_alloc _ _ _ (proj1 W)).
  reflexivity.
Qed.

Lemma alloc_bot_view_user (t : Text) (h : list Message) (prev : list nat) :
  wf_heap h prev ->
  view_of (h ++ [mkMessage User t]) (prev ++ [List.length h])
  = view_of h prev ++ [mkMessage User t].
Proof.
  intros W.
  rewrite view_of_snoc, deref_alloc, (view_of_alloc _ _ _ (proj1 W)).
  reflexivity.
Qed.

Lemma coalesce_snoc (b : Text) (v : list Message) (m : Message) :
  coalesce b (v ++ [m]) =
    match from m with
    | Bot => v ++ [mkMessage Bot b]
    | User => v ++ [m] ++ [mkMessage Bot b]
    end.
Proof.
  unfold coalesce. rewrite rev_app_distr. simpl.
  destruct (from m); [rewrite <- app_assoc; reflexivity|].
  rewrite rev_involutive. reflexivity.
Qed.

Lemma botText_view (b : Text) (h : list Message) (prev : list nat) :
  wf_heap h prev ->
  let (h', msgs) := botTextUpdater b h prev in
  view_of h' msgs = coalesce b (view_of h prev) /\ wf_heap h' msgs.
Proof.
  intros W. unfold botTextUpdater. cbv zeta.
  destruct (list_snoc_cases prev) as [->|(pre & last & ->)].
  - simpl nth_error. cbv iota.
    split; [apply (alloc_bot_view b h [] W)|apply (wf_heap_alloc h _ [] W)].
  - rewrite nth_error_last.
    destruct W as [Hv Hn].
    assert (Hlast : (last < List.length h)%nat).
    { rewrite Forall_forall in Hv. apply Hv, in_or_app. right; left; reflexivity. }
    rewrite (nth_error_deref h last Hlast).
    rewrite view_of_snoc, coalesce_snoc.
    destruct (from (deref h last)) eqn:Hf.
    + split; [|apply wf_heap_alloc; split; assumption].
      rewrite (alloc_bot_view b h (pre ++ [last]) (conj Hv Hn)).
      rewrite view_of_snoc, <- app_assoc. reflexivity.
    + assert (Hnot : ~ In last pre).
      { intros Hin. apply NoDup_remove_2 in Hn. rewrite app_nil_r in Hn.
        contradiction. }
      split.
      * rewrite view_of_snoc, (view_of_set_other h last _ pre Hnot).
        unfold deref. rewrite nth_set_nth_same by exact Hlast.
        reflexivity.
      * split; [|exact Hn].
        eapply Forall_impl; [|exact Hv]. intros r Hr. simpl in *.
        rewrite set_nth_length. exact Hr.
Qed.

Lemma coalesce_coalesce (b b' : Text) (v : list Message) :
  coalesce b (coalesce b' v) = coalesce b v.
Proof.
  destruct (list_snoc_cases v) as [->|(pre & m & ->)]; [reflexivity|].
  rewrite !coalesce_snoc. destruct (from m) eqn:Hf.
  - rewrite app_assoc, coalesce_snoc. simpl. rewrite <- app_assoc. reflexivity.
  - rewrite coalesce_snoc. reflexivity.
Qed.

Lemma botTextUpdater_cases (b : Text) (h : list Message) (prev : list nat) :
  wf_heap h prev ->
  (botTextUpdater b h prev
   = (h ++ [mkMessage Bot b], prev ++ [List.length h]) /\
   (prev = [] \/
    exists pre last, prev = pre ++ [last] /\ from (deref h last) = User)) \/
  (exists pre last,
     prev = pre ++ [last] /\ from (deref h last) = Bot /\
     ~ In last pre /\ (last < List.length h)%nat /\
     botTextUpdater b h prev = (set_nth last (mkMessage Bot b) h, prev)).
Proof.
  intros [Hv Hn]. unfold botTextUpdater. cbv zeta.
  destruct (list_snoc_cases prev) as [->|(pre & last & ->)].
  - left. split; [reflexivity|left; reflexivity].
  - rewrite nth_error_last.
    assert (Hlast : (last < List.length h)%nat).
    { rewrite Forall_forall in Hv. apply Hv, in_or_app. right; left; reflexivity. }
    rewrite (nth_error_deref h last Hlast).
    destruct (from (deref h last)) eqn:Hf.
    + left. split; [reflexivity|]. right. exists pre, last. split; [reflexivity|exact Hf].
    + right. exists pre, last.
      split; [reflexivity|]. split; [exact Hf|].
      split; [|split; [exact Hlast|reflexivity]].
      intros Hin. apply NoDup_remove_2 in Hn. rewrite app_nil_r in Hn.
      contradiction.
Qed.

Lemma wf_heap_grow (h : list Message) (m : Message) (refs : list nat) :
  wf_heap h refs -> wf_heap (h ++ [m]) refs.
Proof.
  intros [Hv Hn]. split; [|exact Hn].
  eapply Forall_impl; [|exact Hv]. intros r Hr. simpl in Hr.
  rewrite length_app. simpl. lia.
Qed.

(** The updater run on the rendered array: the array it returns shows
    the rendered transcript with the buffer in its last bot message, and
    the rendered array shows either what it showed or that same
    transcript. *)
Lemma eager_chunk_spec (b : Text) (h : list Message) (prev : list nat) :
  wf_heap h prev ->
  wf_heap (fst (botTextUpdater b h prev)) prev /\
  wf_heap (fst (botTextUpdater b h prev)) (snd (botTextUpdater b h prev)) /\
  view_of (fst (botTextUpdater b h prev)) (snd (botTextUpdater b h prev))
  = coalesce b (view_of h prev) /\
  (view_of (fst (botTextUpdater b h prev)) prev = view_of h prev \/
   view_of (fst (botTextUpdater b h prev)) prev = coalesce b (view_of h prev)).
Proof.
  intros W. pose proof (botText_view b h prev W) as H.
  destruct (botTextUpdater_cases b h prev W)
    as [[E _]|(pre & last & Hprev & _ & _ & _ & E)]; rewrite E in *; simpl.
  - destruct H as [V W'].
    split; [apply wf_heap_grow, W|]. split; [exact W'|]. split; [exact V|].
    left. apply view_of_alloc, W.
  - destruct H as [V W'].
    split; [exact W'|]. split; [exact W'|]. split; [exact V|].
    right. exact V.
Qed.

(** What applying one update changes.  An array computed ahead has to
    point into the heap. *)
Lemma apply_spec (u : Update) (st : State) :
  well_formed st ->
  (forall msgs, u = SetMessagesEager msgs -> wf_heap (heap st) msgs) ->
  view (apply u st) = apply_view (closures st) (heap st) u (view st) /\
  well_formed (apply u st) /\
  closures (apply u st) = closures st /\
  pending (apply u st) = pending st /\
  socketRef (apply u st) = socketRef st /\
  socketOpen (apply u st) = socketOpen st /\
  emitted (apply u st) = emitted st.
Proof.
  intros W He. destruct u as [[t|g]|msgs|v|b|c]; simpl.
  - pose proof (appendUser_view t (heap st) (messages st) W) as H.
    unfold appendUserUpdater in *. destruct H as [H1 H2].
    split; [exact H1|]. split; [exact H2|]. repeat split; reflexivity.
  - pose proof (botText_view (botTextBuffer g st) (heap st) (messages st) W) as H.
    destruct (botTextUpdater (botTextBuffer g st) (heap st) (messages st))
      as [h' msgs].
    destruct H as [H1 H2].
    split; [exact H1|]. split; [exact H2|]. repeat split; reflexivity.
  - split; [reflexivity|]. split; [exact (He msgs eq_refl)|].
    repeat split; reflexivity.
  - repeat split; try reflexivity; apply W.
  - repeat split; try reflexivity; apply W.
  - repeat split; try reflexivity; apply W.
Qed.

Lemma apply_pending (u : Update) (st : State) :
  pending (apply u st) = pending st.
Proof.
  destruct u as [[t|g]|msgs|v|b|c]; simpl; try reflexivity.
  destruct (botTextUpdater (botTextBuffer g st) (heap st) (messages st));
    reflexivity.
Qed.

Lemma render_pending (st : State) : pending (render st) = [].
Proof.
  unfold render.
  assert (H : forall us s, pending (fold_left (fun s u => apply u s) us s)
                           = pending s).
  { induction us as [|u us IH]; intros s; [reflexivity|].
    simpl. rewrite IH. apply apply_pending. }
  rewrite H. reflexivity.
Qed.

Lemma apply_view_lazy (cl : list Text) (h h0 : list Message) (u : Update)
    (v : list Message) :
  is_eager u = false -> apply_view cl h u v = apply_view cl h0 u v.
Proof.
  destruct u as [[t|g]|msgs|x|x|x]; simpl; try reflexivity. discriminate.
Qed.

Lemma fold_view_snoc (cl : list Text) (h : list Message) (us : list Update)
    (u : Update) (v : list Message) :
  fold_view cl h (us ++ [u]) v = apply_view cl h u (fold_view cl h us v).
Proof.
  unfold fold_view. rewrite fold_left_app. reflexivity.
Qed.

Lemma fold_view_quiet (cl : list Text) (h : list Message) (us : list Update) :
  existsb is_set_messages us = false ->
  forall v, fold_view cl h us v = v.
Proof.
  unfold fold_view.
  induction us as [|u us IH]; intros H v; [reflexivity|].
  simpl in H. apply orb_false_elim in H. destruct H as [Hu Hr].
  simpl. rewrite (IH Hr).
  destruct u as [[t|g]|msgs|x|x|x]; try discriminate Hu; reflexivity.
Qed.

Lemma fold_apply_lazy (us : list Update) :
  existsb is_eager us = false ->
  forall (h0 : list Message) (st : State), well_formed st ->
    let st' := fold_left (fun s u => apply u s) us st in
    view st' = fold_view (closures st) h0 us (view st) /\
    well_formed st' /\
    closures st' = closures st /\
    socketRef st' = socketRef st /\
    socketOpen st' = socketOpen st /\
    emitted st' = emitted st.
Proof.
  induction us as [|u us IH]; intros H h0 st W; simpl.
  - repeat split; try reflexivity; apply W.
  - simpl in H. apply orb_false_elim in H. destruct H as [Hu Hr].
    destruct (apply_spec u st W) as (V & W1 & C & _ & R & O & E).
    { intros msgs ->. discriminate Hu. }
    destruct (IH Hr h0 (apply u st) W1) as (V' & W' & C' & R' & O' & E').
    split.
    { rewrite V', C, V. unfold fold_view. simpl.
      rewrite (apply_view_lazy _ (heap st) h0 u _ Hu). reflexivity. }
    split; [exact W'|]. repeat split; congruence.
Qed.

Lemma fold_apply_spec (us : list Update) :
  forall st, well_formed st -> eager_first (heap st) (view st) us ->
    let st' := fold_left (fun s u => apply u s) us st in
    view st' = fold_view (closures st) (heap st) us (view st) /\
    well_formed st' /\
    closures st' = closures st /\
    socketRef st' = socketRef st /\
    socketOpen st' = socketOpen st /\
    emitted st' = emitted st.
Proof.
  induction us as [|u us IH]; intros st W F.
  - simpl. repeat split; try reflexivity; apply W.
  - assert (Hw : forall msgs, u = SetMessagesEager msgs -> wf_heap (heap st) msgs).
    { intros msgs ->. apply F. }
    destruct (apply_spec u st W Hw) as (V & W1 & C & _ & R & O & E).
    assert (Hrest :
      view (fold_left (fun s u => apply u s) us (apply u st))
      = fold_view (closures (apply u st)) (heap st) us (view (apply u st)) /\
      well_formed (fold_left (fun s u => apply u s) us (apply u st)) /\
      closures (fold_left (fun s u => apply u s) us (apply u st))
      = closures (apply u st) /\
      socketRef (fold_left (fun s u => apply u s) us (apply u st))
      = socketRef (apply u st) /\
      socketOpen (fold_left (fun s u => apply u s) us (apply u st))
      = socketOpen (apply u st) /\
      emitted (fold_left (fun s u => apply u s) us (apply u st))
      = emitted (apply u st)).
    { destruct u as [upd|msgs|x|x|x].
      - apply (fold_apply_lazy us F (heap st) (apply (SetMessages upd) st) W1).
      - destruct F as (_ & _ & F).
        apply (fold_apply_lazy us F (heap st) (apply (SetMessagesEager msgs) st) W1).
      - apply (IH (apply (SetInput x) st) W1 F).
      - apply (IH (apply (SetConnected x) st) W1 F).
      - apply (IH (apply (SetConversationId x) st) W1 F). }
    destruct Hrest as (V' & W' & C' & R' & O' & E').
    simpl fold_left. cbv zeta.
    split; [rewrite V', C, V; reflexivity|].
    split; [exact W'|]. repeat split; congruence.
Qed.

Lemma render_spec (st : State) :
  well_formed st ->
  eager_first (heap st) (view st) (pending st) ->
  view (render st) = fold_view (closures st) (heap st) (pending st) (view st) /\
  well_formed (render st) /\
  closures (render st) = closures st /\
  pending (render st) = [] /\
  socketRef (render st) = socketRef st /\
  socketOpen (render st) = socketOpen st /\
  emitted (render st) = emitted st.
Proof.
  intros W F. unfold render.
  destruct (fold_apply_spec (pending st) (clear_pending st) W F)
    as (V & W' & C & R & O & E).
  split; [exact V|]. split; [exact W'|]. split; [exact C|].
  split; [apply render_pending|]. repeat split; assumption.
Qed.

(** ** The queue of updates *)

Lemma eager_first_snoc (h v : list Message) (us : list Update) (u : Update) :
  eager_first h v us -> is_eager u = false -> eager_first h v (us ++ [u]).
Proof.
  intros F Hu. induction us as [|a us IH].
  - destruct u as [[t|g]|msgs|x|x|x]; simpl; try exact I; try reflexivity.
    discriminate Hu.
  - destruct a as [upd|msgs|x|x|x]; simpl in *.
    + rewrite existsb_app, F. simpl. rewrite Hu. reflexivity.
    + destruct F as (F1 & F2 & F3). split; [exact F1|]. split; [exact F2|].
      rewrite existsb_app, F3. simpl. rewrite Hu. reflexivity.
    + apply IH, F.
    + apply IH, F.
    + apply IH, F.
Qed.

Lemma eager_first_snoc_eager (h v : list Message) (us : list Update)
    (msgs : list nat) :
  existsb is_set_messages us = false ->
  wf_heap h msgs -> (exists b, view_of h msgs = coalesce b v) ->
  eager_first h v (us ++ [SetMessagesEager msgs]).
Proof.
  intros H W E. induction us as [|a us IH].
  - simpl. split; [exact W|]. split; [exact E|reflexivity].
  - simpl in H. apply orb_false_elim in H. destruct H as [Ha Hr].
    destruct a as [upd|m|x|x|x]; try discriminate Ha; simpl; apply IH, Hr.
Qed.

(** ** One task at a time *)

Lemma step_kind (e : Event) (st : State) : StepKind e st.
Proof.
  assert (Same : forall s, heap s = heap st -> messages s = messages st ->
                   pending s = pending st -> step e st = s -> StepKind e st).
  { intros s H1 H2 H3 E. apply (Quiet e st []); rewrite ?E; try assumption.
    - rewrite app_nil_r. exact H3.
    - reflexivity. }
  assert (One : forall u s, heap s = heap st -> messages s = messages st ->
                  pending s = pending st -> is_eager u = false ->
                  step e st = enqueue u s -> StepKind e st).
  { intros u s H1 H2 H3 Hu E. apply (Quiet e st [u]); rewrite ?E; simpl.
    - exact H1.
    - exact H2.
    - rewrite H3. reflexivity.
    - rewrite Hu. reflexivity. }
  destruct e as [| | | |t|d eg|t c|v| | |].
  - simpl. unfold mount. destruct (socketOpen st) eqn:Ho.
    + apply (Same st); try reflexivity. simpl. unfold mount. rewrite Ho. reflexivity.
    + eapply Same; [| | |simpl; unfold mount; rewrite Ho; reflexivity]; reflexivity.
  - destruct (socketOpen st) eqn:Ho.
    + destruct (socketConnected st) eqn:Hc.
      * apply (Quiet Cleanup st [SetConnected false]); simpl; unfold cleanup;
          rewrite ?Ho, ?Hc; reflexivity.
      * eapply Same; [| | |simpl; unfold cleanup; rewrite Ho, Hc; reflexivity];
          reflexivity.
    + apply (Same st); try reflexivity. simpl. unfold cleanup. rewrite Ho. reflexivity.
  - simpl. destruct (socketOpen st && negb (socketConnected st)) eqn:Hc.
    + eapply One; [| | | |simpl; rewrite Hc; reflexivity]; reflexivity.
    + apply (Same st); try reflexivity. simpl. rewrite Hc. reflexivity.
  - simpl. destruct (socketOpen st && socketConnected st) eqn:Hc.
    + eapply One; [| | | |simpl; rewrite Hc; reflexivity]; reflexivity.
    + apply (Same st); try reflexivity. simpl. rewrite Hc. reflexivity.
  - destruct (socketOpen st) eqn:Ho.
    + eapply One; [| | | |simpl; rewrite Ho; reflexivity]; reflexivity.
    + apply (Same st); try reflexivity. simpl. rewrite Ho. reflexivity.
  - destruct (socketOpen st) eqn:Ho;
      [|apply (Same st); try reflexivity; simpl; rewrite Ho; reflexivity].
    destruct (socketRef st) as [g|] eqn:Hr;
      [|apply (Same st); try reflexivity; simpl; rewrite Ho, Hr; reflexivity].
    destruct (eg && negb (messages_pending st)) eqn:Hc.
    + apply andb_prop in Hc. destruct Hc as [-> Hm].
      apply negb_true_iff in Hm.
      apply (Eager _ st d g); try assumption; try reflexivity.
      simpl. rewrite Ho, Hr. unfold onTextChunk. cbv zeta. rewrite Hm. simpl andb.
      cbv iota.
      destruct (botTextUpdater
                  (botTextBuffer g (set_closure g (botTextBuffer g st ++ d) st))
                  (heap (set_closure g (botTextBuffer g st ++ d) st))
                  (messages (set_closure g (botTextBuffer g st ++ d) st)))
        as [h' msgs] eqn:E.
      simpl in E. rewrite E. reflexivity.
    + eapply One; [| | | |simpl; rewrite Ho, Hr; unfold onTextChunk; cbv zeta;
                           rewrite Hc; reflexivity]; reflexivity.
  - destruct (socketOpen st) eqn:Ho;
      [|apply (Same st); try reflexivity; simpl; rewrite Ho; reflexivity].
    destruct (socketRef st) as [g|] eqn:Hr;
      [|apply (Same st); try reflexivity; simpl; rewrite Ho, Hr; reflexivity].
    eapply One; [| | | |simpl; rewrite Ho, Hr; reflexivity]; reflexivity.
  - eapply One; [| | | |reflexivity]; reflexivity.
  - simpl. unfold sendMessage. destruct (falsy (trim (input st))) eqn:Hf.
    + apply (Same st); try reflexivity. simpl. unfold sendMessage. rewrite Hf.
      reflexivity.
    + apply (Quiet KeyDownEnter st
               [SetMessages (AppendUser (input st)); SetInput []]);
        simpl; unfold sendMessage; rewrite ?Hf; unfold emit;
        destruct (socketRef st); simpl; rewrite <- ?app_assoc; reflexivity.
  - simpl. destruct (connected st) eqn:Hc;
      [|apply (Same st); try reflexivity; simpl; rewrite Hc; reflexivity].
    unfold sendMessage. destruct (falsy (trim (input st))) eqn:Hf.
    + apply (Same st); try reflexivity. simpl. rewrite Hc. unfold sendMessage.
      rewrite Hf. reflexivity.
    + apply (Quiet ClickSend st
               [SetMessages (AppendUser (input st)); SetInput []]);
        simpl; rewrite ?Hc; unfold sendMessage; rewrite ?Hf; unfold emit;
        destruct (socketRef st); simpl; rewrite <- ?app_assoc; reflexivity.
  - apply Rendering. reflexivity.
Qed.

Lemma eager_first_app (h v : list Message) (us more : list Update) :
  eager_first h v us -> existsb is_eager more = false ->
  eager_first h v (us ++ more).
Proof.
  intros F. revert us F. induction more as [|u more IH]; intros us F H.
  - rewrite app_nil_r. exact F.
  - simpl in H. apply orb_false_elim in H. destruct H as [Hu Hr].
    change (u :: more) with ([u] ++ more). rewrite app_assoc.
    apply IH; [apply eager_first_snoc; assumption|exact Hr].
Qed.

Lemma step_wired (e : Event) (st : State) : wired st -> wired (step e st).
Proof.
  intros H. destruct e as [| | | |t|d eg|t c|v| | |]; simpl.
  - unfold mount. destruct (socketOpen st); [exact H|].
    unfold wired. simpl. intros g E. injection E as <-.
    rewrite length_app. simpl. lia.
  - unfold cleanup. destruct (socketOpen st); [|exact H].
    destruct (socketConnected st); exact H.
  - destruct (socketOpen st && negb (socketConnected st)); exact H.
  - destruct (socketOpen st && socketConnected st); exact H.
  - destruct (socketOpen st); exact H.
  - destruct (socketOpen st), (socketRef st) eqn:E; try exact H.
    unfold onTextChunk. cbv zeta.
    destruct (eg && negb (messages_pending st)).
    + destruct (botTextUpdater _ _ _) as [h' msgs].
      unfold wired. simpl. intros g E'. rewrite set_nth_length. apply H.
      congruence.
    + unfold wired. simpl. intros g E'. rewrite set_nth_length. apply H.
      congruence.
  - destruct (socketOpen st), (socketRef st) eqn:E; try exact H.
    unfold wired. simpl. intros g E'. rewrite set_nth_length. apply H.
    congruence.
  - exact H.
  - unfold sendMessage. destruct (falsy (trim (input st))); [exact H|].
    unfold emit. destruct (socketRef st) eqn:E; unfold wired; simpl;
      intros g E'; apply H; congruence.
  - destruct (connected st); [|exact H].
    unfold sendMessage. destruct (falsy (trim (input st))); [exact H|].
    unfold emit. destruct (socketRef st) eqn:E; unfold wired; simpl;
      intros g E'; apply H; congruence.
  - unfold wired, render.
    assert (K : forall us s,
              socketRef (fold_left (fun s u => apply u s) us s) = socketRef s /\
              closures (fold_left (fun s u => apply u s) us s) = closures s).
    { induction us as [|u us IH]; intros s; [split; reflexivity|].
      simpl. destruct (IH (apply u s)) as [-> ->].
      destruct u as [[t|g]|msgs|x|x|x]; simpl; try (split; reflexivity).
      destruct (botTextUpdater (botTextBuffer g s) (heap s) (messages s));
        split; reflexivity. }
    destruct (K (pending st) (clear_pending st)) as [-> ->]. exact H.
Qed.

(** The buffer an eager updater reads is the one the handler has just
    written. *)
Lemma buffer_after_chunk (g : nat) (t : Text) (st : State) :
  (g < List.length (closures st))%nat ->
  botTextBuffer g (set_closure g t st) = t.
Proof.
  intros Hg. unfold botTextBuffer. simpl. apply nth_set_nth_same, Hg.
Qed.

Lemma consistent_step (e : Event) (st : State) :
  consistent st -> consistent (step e st).
Proof.
  intros (W & Hw & F).
  split; [|split; [apply step_wired, Hw|]].
  - destruct (step_kind e st) as [us H1 H2 _ _| -> |d g -> Ho Hr Hm E].
    + unfold well_formed. rewrite H1, H2. exact W.
    + apply render_spec; assumption.
    + rewrite E. unfold well_formed. simpl.
      apply (eager_chunk_spec _ (heap st) (messages st) W).
  - destruct (step_kind e st) as [us H1 H2 H3 H4| -> |d g -> Ho Hr Hm E].
    + unfold view. rewrite H1, H2, H3. apply eager_first_app; assumption.
    + simpl. rewrite render_pending. exact I.
    + rewrite E. unfold view. simpl.
      destruct (eager_chunk_spec
                  (botTextBuffer g (set_closure g (botTextBuffer g st ++ d) st))
                  (heap st) (messages st) W) as (_ & W2 & V & Hv).
      apply eager_first_snoc_eager; [exact Hm|exact W2|].
      eexists. rewrite V.
      destruct Hv as [-> | ->]; [reflexivity|].
      rewrite coalesce_coalesce. reflexivity.
Qed.

Lemma init_well_formed : well_formed init.
Proof. split; constructor. Qed.

Lemma init_consistent : consistent init.
Proof.
  split; [apply init_well_formed|]. split; [|exact I].
  intros g E. discriminate E.
Qed.

Lemma consistent_run (evs : list Event) :
  forall st, consistent st -> consistent (run evs st).
Proof.
  induction evs as [|e evs IH]; intros st C; [exact C|].
  simpl. apply IH, consistent_step, C.
Qed.

Lemma reachable_consistent (st : State) : reachable st -> consistent st.
Proof.
  intros [evs ->]. apply consistent_run, init_consistent.
Qed.

Lemma reachable_well_formed (st : State) :
  reachable st -> well_formed st /\ wired st.
Proof.
  intros R. destruct (reachable_consistent st R) as (W & Hw & _).
  split; assumption.
Qed.

(** ** What every task does to the transcript *)

Lemma prefix_refl {A : Type} (l : list A) : prefix l l.
Proof. exists []. rewrite app_nil_r. reflexivity. Qed.

Lemma prefix_trans {A : Type} (l1 l2 l3 : list A) :
  prefix l1 l2 -> prefix l2 l3 -> prefix l1 l3.
Proof.
  intros [s1 ->] [s2 ->]. exists (s1 ++ s2). rewrite app_assoc. reflexivity.
Qed.

Lemma prefix_app {A : Type} (l s : list A) : prefix l (l ++ s).
Proof. exists s. reflexivity. Qed.

Lemma settled_snoc (v : list Message) (m : Message) :
  settled (v ++ [m]) = match from m with Bot => v | User => v ++ [m] end.
Proof.
  unfold settled. rewrite rev_app_distr. simpl.
  destruct (from m); [reflexivity|apply rev_involutive].
Qed.

Lemma settled_prefix (v : list Message) : prefix (settled v) v.
Proof.
  destruct (list_snoc_cases v) as [->|(pre & m & ->)]; [apply prefix_refl|].
  rewrite settled_snoc. destruct (from m); [apply prefix_refl|apply prefix_app].
Qed.

Lemma settled_coalesce (b : Text) (v : list Message) :
  settled (coalesce b v) = settled v.
Proof.
  destruct (list_snoc_cases v) as [->|(pre & m & ->)]; [reflexivity|].
  rewrite coalesce_snoc, settled_snoc.
  destruct (from m) eqn:Hf.
  - rewrite app_assoc, settled_snoc. reflexivity.
  - rewrite settled_snoc. reflexivity.
Qed.

Lemma senders_coalesce (b : Text) (v : list Message) :
  prefix (map from v) (map from (coalesce b v)).
Proof.
  destruct (list_snoc_cases v) as [->|(pre & m & ->)]; [exists [Bot]; reflexivity|].
  rewrite coalesce_snoc. destruct (from m) eqn:Hf.
  - rewrite app_assoc, (map_app from (pre ++ [m])). apply prefix_app.
  - rewrite !map_app. simpl. rewrite Hf. apply prefix_refl.
Qed.

Lemma grows_refl (v : list Message) : grows v v.
Proof. split; apply prefix_refl. Qed.

Lemma grows_trans (v1 v2 v3 : list Message) :
  grows v1 v2 -> grows v2 v3 -> grows v1 v3.
Proof.
  intros [A1 B1] [A2 B2]. split; eapply prefix_trans; eassumption.
Qed.

Lemma grows_user (v : list Message) (t : Text) :
  grows v (v ++ [mkMessage User t]).
Proof.
  split.
  - rewrite settled_snoc. simpl.
    eapply prefix_trans; [apply settled_prefix|apply prefix_app].
  - rewrite map_app. apply prefix_app.
Qed.

Lemma grows_bot (b : Text) (v : list Message) : grows v (coalesce b v).
Proof.
  split; [rewrite settled_coalesce; apply prefix_refl|apply senders_coalesce].
Qed.

(** A relation between transcripts that holds across the two updaters
    holds across every task, hence across every run. *)
Section Monotone.

Variable R : list Message -> list Message -> Prop.
Hypothesis R_refl : forall v, R v v.
Hypothesis R_trans : forall v1 v2 v3, R v1 v2 -> R v2 v3 -> R v1 v3.
Hypothesis R_user : forall v t, R v (v ++ [mkMessage User t]).
Hypothesis R_bot : forall b v, R v (coalesce b v).

Lemma related_apply_view (cl : list Text) (h : list Message) (u : Update)
    (v : list Message) :
  is_eager u = false -> R v (apply_view cl h u v).
Proof.
  destruct u as [[t|g]|msgs|x|x|x]; simpl; intros H;
    try apply R_refl; try apply R_user; try apply R_bot.
  discriminate H.
Qed.

Lemma related_fold_lazy (cl : list Text) (h : list Message) (us : list Update) :
  existsb is_eager us = false ->
  forall v, R v (fold_view cl h us v).
Proof.
  unfold fold_view.
  induction us as [|u us IH]; intros H v; [apply R_refl|].
  simpl in H. apply orb_false_elim in H. destruct H as [Hu Hr].
  simpl. eapply R_trans; [apply related_apply_view, Hu|apply IH, Hr].
Qed.

Lemma related_fold (cl : list Text) (h : list Message) (us : list Update) :
  forall v, eager_first h v us -> R v (fold_view cl h us v).
Proof.
  induction us as [|u us IH]; intros v F; [apply R_refl|].
  destruct u as [upd|msgs|x|x|x].
  - apply (related_fold_lazy cl h (SetMessages upd :: us) F).
  - destruct F as (_ & (b & E) & F).
    change (fold_view cl h (SetMessagesEager msgs :: us) v)
      with (fold_view cl h us (view_of h msgs)).
    eapply R_trans; [|apply related_fold_lazy, F].
    rewrite E. apply R_bot.
  - apply (IH v F).
  - apply (IH v F).
  - apply (IH v F).
Qed.

Lemma related_step (e : Event) (st : State) :
  consistent st -> R (view st) (view (step e st)).
Proof.
  intros (W & _ & F).
  destruct (step_kind e st) as [us H1 H2 _ _| -> |d g -> Ho Hr Hm E].
  - unfold view. rewrite H1, H2. apply R_refl.
  - simpl. destruct (render_spec st W F) as (-> & _). apply related_fold, F.
  - rewrite E. unfold view. simpl.
    destruct (eager_chunk_spec
                (botTextBuffer g (set_closure g (botTextBuffer g st ++ d) st))
                (heap st) (messages st) W) as (_ & _ & _ & Hv).
    destruct Hv as [-> | ->]; [apply R_refl|apply R_bot].
Qed.

Lemma related_run (evs : list Event) :
  forall st, consistent st -> R (view st) (view (run evs st)).
Proof.
  induction evs as [|e evs IH]; intros st C; [apply R_refl|].
  simpl. eapply R_trans; [apply related_step, C|].
  apply IH, consistent_step, C.
Qed.

End Monotone.

(** ** The transcript only grows *)

(** X5. Whatever happens, in any order, the transcript only grows: every
    message other than a trailing bot message stays where it is, as it
    is, and the bot message stays a bot message at its place, so that
    the order of speakers so far is kept; only the text of the last
    message, when it is the bot's, can still change. *)
Theorem transcript_only_grows (evs : list Event) (st : State) :
  reachable st ->
  prefix (settled (view st)) (view (run evs st)) /\
  prefix (map from (view st)) (map from (view (run evs st))).
Proof.
  intros Rch.
  pose proof (related_run grows grows_refl grows_trans grows_user grows_bot
                evs st (reachable_consistent st Rch)) as [A B].
  split; [|exact B].
  eapply prefix_trans; [exact A|apply settled_prefix].
Qed.

(** ** No two bot messages in a row *)

Lemma nab_snoc (v : list Message) (m m' : Message) :
  no_adjacent_bots (v ++ [m]) -> from m = from m' ->
  no_adjacent_bots (v ++ [m']).
Proof.
  induction v as [|a v IH]; intros H E; [exact I|].
  destruct v as [|b v].
  - simpl in *. destruct H as [H _]. split; [|exact I].
    rewrite <- E. exact H.
  - change (no_adjacent_bots (a :: (b :: v) ++ [m'])) with
      (~ (from a = Bot /\ from b = Bot) /\ no_adjacent_bots ((b :: v) ++ [m'])).
    change (no_adjacent_bots (a :: (b :: v) ++ [m])) with
      (~ (from a = Bot /\ from b = Bot) /\ no_adjacent_bots ((b :: v) ++ [m])) in H.
    destruct H as [H1 H2]. split; [exact H1|apply IH; assumption].
Qed.

Lemma nab_snoc_user (v : list Message) (m : Message) :
  no_adjacent_bots v -> from m = User -> no_adjacent_bots (v ++ [m]).
Proof.
  induction v as [|a v IH]; intros H E; [exact I|].
  destruct v as [|b v].
  - simpl. split; [|exact I]. intros [_ F]. congruence.
  - change (no_adjacent_bots (a :: (b :: v) ++ [m])) with
      (~ (from a = Bot /\ from b = Bot) /\ no_adjacent_bots ((b :: v) ++ [m])).
    destruct H as [H1 H2]. split; [exact H1|apply IH; assumption].
Qed.

Lemma nab_snoc_after_user (v : list Message) (m m' : Message) :
  no_adjacent_bots (v ++ [m]) -> from m = User ->
  no_adjacent_bots ((v ++ [m]) ++ [m']).
Proof.
  induction v as [|a v IH]; intros H E.
  - simpl. split; [|exact I]. intros [F _]. congruence.
  - destruct v as [|b v].
    + simpl in *. destruct H as [H _]. split; [exact H|].
      split; [|exact I]. intros [F _]. congruence.
    + change (no_adjacent_bots ((a :: (b :: v) ++ [m]) ++ [m'])) with
        (~ (from a = Bot /\ from b = Bot) /\
         no_adjacent_bots (((b :: v) ++ [m]) ++ [m'])).
      change (no_adjacent_bots (a :: (b :: v) ++ [m])) with
        (~ (from a = Bot /\ from b = Bot) /\ no_adjacent_bots ((b :: v) ++ [m])) in H.
      destruct H as [H1 H2]. split; [exact H1|apply IH; assumption].
Qed.

Lemma nab_coalesce (b : Text) (v : list Message) :
  no_adjacent_bots v -> no_adjacent_bots (coalesce b v).
Proof.
  intros H.
  destruct (list_snoc_cases v) as [->|(pre & m & ->)]; [exact I|].
  rewrite coalesce_snoc. destruct (from m) eqn:Hf.
  - rewrite app_assoc. apply nab_snoc_after_user; assumption.
  - apply (nab_snoc pre m); [exact H|exact Hf].
Qed.

(** X6. In every run of the component the rendered transcript never
    shows two bot messages in a row: text chunks that follow a bot
    message go into that message. *)
Theorem bot_messages_never_adjacent (evs : list Event) :
  no_adjacent_bots (view (run evs init)).
Proof.
  apply (related_run (fun v v' => no_adjacent_bots v -> no_adjacent_bots v')).
  - intros v H. exact H.
  - intros v1 v2 v3 H12 H23 H. apply H23, H12, H.
  - intros v t H. apply nab_snoc_user; [exact H|reflexivity].
  - intros b v H. apply nab_coalesce, H.
  - apply init_consistent.
  - exact I.
Qed.

(** ** A burst of text chunks *)

Lemma chunk_texts_app (evs1 evs2 : list Event) :
  chunk_texts (evs1 ++ evs2) = chunk_texts evs1 ++ chunk_texts evs2.
Proof.
  induction evs1 as [|e evs1 IH]; [reflexivity|].
  destruct e; simpl; rewrite IH; reflexivity.
Qed.

Lemma chunk_texts_in (d : Text) (eg : bool) (evs : list Event) :
  In (TextChunk d eg) evs -> chunk_texts evs <> [].
Proof.
  induction evs as [|e evs IH]; [intros []|].
  intros [->|H]; [discriminate|].
  destruct e; simpl; try (apply IH, H). discriminate.
Qed.

Lemma in_burst_step (st0 st : State) (g : nat) (ds : list Text) (e : Event) :
  in_burst st0 st g ds -> is_burst_event e ->
  in_burst st0 (step e st) g (ds ++ chunk_texts [e]).
Proof.
  intros (C & Ho & Hr & Hb & HA & HD) He.
  pose proof (consistent_step e st C) as C'.
  destruct C as (W & Hw & F).
  pose proof (Hw g Hr) as Hg.
  split; [exact C'|]. clear C'.
  destruct He as [ -> | (d & eg & ->) ].
  - (* Render *)
    simpl chunk_texts. rewrite app_nil_r. simpl step.
    destruct (render_spec st W F) as (V & _ & Cl & P & R & O & _).
    split; [congruence|]. split; [congruence|].
    split; [unfold botTextBuffer; rewrite Cl; exact Hb|].
    split.
    + intros cl b. rewrite P. unfold fold_view at 1. simpl. rewrite V. apply HA.
    + intros Hds. rewrite P. unfold fold_view at 1. simpl.
      unfold botTextBuffer. rewrite V, Cl. apply HD, Hds.
  - (* TextChunk *)
    assert (Hds : chunk_texts [TextChunk d eg] = [d]) by reflexivity.
    rewrite Hds. clear Hds.
    assert (Hbuf : forall s, closures s = set_nth g (botTextBuffer g st ++ d) (closures st) ->
                     botTextBuffer g s = botTextBuffer g st0 ++ List.concat (ds ++ [d])).
    { intros s Hs. unfold botTextBuffer at 1. rewrite Hs.
      rewrite nth_set_nth_same by exact Hg.
      rewrite Hb, concat_app. simpl. rewrite app_nil_r, app_assoc. reflexivity. }
    destruct (step_kind (TextChunk d eg) st)
      as [us H1 H2 H3 H4|Hx|d' g' Hx Ho' Hr' Hm E]; [|discriminate Hx|].
    + (* the updater is queued *)
      assert (Est : step (TextChunk d eg) st
                    = enqueue (SetMessages (BotText g))
                        (set_closure g (botTextBuffer g st ++ d) st)).
      { simpl. rewrite Ho, Hr. unfold onTextChunk. cbv zeta.
        destruct (eg && negb (messages_pending st)) eqn:Hc; [|reflexivity].
        exfalso. simpl in H1, H2, H3. rewrite Ho, Hr in H3.
        unfold onTextChunk in H3. cbv zeta in H3. rewrite Hc in H3.
        destruct (botTextUpdater _ _ _) as [h' msgs] in H3. simpl in H3.
        apply app_inv_head in H3. subst us. discriminate H4. }
      rewrite Est.
      split; [exact Ho|]. split; [exact Hr|].
      split; [apply Hbuf; reflexivity|].
      split.
      * intros cl b. simpl pending. simpl heap.
        change (view (enqueue _ (set_closure g _ st))) with (view st).
        rewrite fold_view_snoc. simpl apply_view.
        rewrite coalesce_coalesce. apply HA.
      * intros _. simpl pending. simpl heap.
        change (view (enqueue _ (set_closure g _ st))) with (view st).
        rewrite fold_view_snoc. simpl apply_view.
        exact (HA (set_nth g (botTextBuffer g st ++ d) (closures st))
                  (nth g (set_nth g (botTextBuffer g st ++ d) (closures st)) [])).
    + (* the updater runs at once *)
      injection Hx as <- _.
      assert (g' = g) by congruence. subst g'.
      rewrite E.
      rewrite (buffer_after_chunk g _ st Hg).
      destruct (eager_chunk_spec (botTextBuffer g st ++ d)
                  (heap st) (messages st) W) as (_ & _ & V & _).
      assert (Hq : forall cl h v, fold_view cl h (pending st) v = v).
      { intros cl h v. apply fold_view_quiet, Hm. }
      split; [exact Ho|]. split; [exact Hr|].
      split; [apply Hbuf; reflexivity|].
      split.
      * intros cl b. simpl pending. simpl heap.
        rewrite fold_view_snoc. simpl apply_view. rewrite V.
        rewrite coalesce_coalesce.
        rewrite <- (HA cl b), Hq. reflexivity.
      * intros _. simpl pending. simpl heap.
        rewrite fold_view_snoc. simpl apply_view. rewrite V.
        unfold botTextBuffer at 2. simpl closures.
        rewrite nth_set_nth_same by exact Hg.
        rewrite <- (HA (closures st) (botTextBuffer g st ++ d)), Hq.
        reflexivity.
Qed.

Lemma in_burst_run (st0 : State) (g : nat) (evs : list Event) :
  forall st ds,
    in_burst st0 st g ds -> Forall is_burst_event evs ->
    in_burst st0 (run evs st) g (ds ++ chunk_texts evs).
Proof.
  induction evs as [|e evs IH]; intros st ds B F.
  - simpl. rewrite app_nil_r. exact B.
  - inversion F as [|? ? He F']; subst.
    change (e :: evs) with ([e] ++ evs).
    rewrite chunk_texts_app, app_assoc.
    apply IH; [|exact F']. apply in_burst_step; assumption.
Qed.

(** X7. A burst of text chunks ends up in one bot message.  Start from
    a rendered state with an open socket and let text chunks arrive, with
    React rendering between them whenever it likes and running each
    updater at once or at the next render as it likes.  Once React has
    rendered after the last chunk, the transcript is the one from before
    the burst with the text of its trailing bot message replaced, or a
    bot message added when it had none, and the text of that message is
    the buffer from before the burst followed by all the chunks in the
    order of arrival. *)
Theorem chunk_burst_fills_one_message
    (st : State) (g : nat) (evs : list Event) :
  reachable st ->
  pending st = [] ->
  socketOpen st = true ->
  socketRef st = Some g ->
  Forall is_burst_event evs ->
  (exists d eager, In (TextChunk d eager) evs) ->
  view (run (evs ++ [Render]) st)
  = coalesce (botTextBuffer g st ++ List.concat (chunk_texts evs)) (view st).
Proof.
  intros R Hp Ho Hr F (d & eg & Hd).
  pose proof (reachable_consistent st R) as C.
  assert (B0 : in_burst st st g []).
  { split; [exact C|]. split; [exact Ho|]. split; [exact Hr|].
    split; [rewrite app_nil_r; reflexivity|].
    split; [intros cl b; rewrite Hp; reflexivity|].
    intros H. contradiction H. reflexivity. }
  pose proof (in_burst_run st g (evs ++ [Render]) st [] B0) as B.
  rewrite chunk_texts_app in B. simpl in B. rewrite app_nil_r in B.
  destruct B as (_ & _ & _ & Hb & _ & HD).
  { apply Forall_app. split; [exact F|]. constructor; [left; reflexivity|constructor]. }
  specialize (HD (chunk_texts_in d eg evs Hd)).
  assert (P : pending (run (evs ++ [Render]) st) = []).
  { unfold run. rewrite fold_left_app. simpl. apply render_pending. }
  rewrite P in HD. unfold fold_view in HD. simpl in HD.
  rewrite HD, Hb. reflexivity.
Qed.

(** ** The updater writes into the rendered object *)

(** X8. The updater of the [textChunk] handler changes the state it is
    given.  When the transcript it receives ends with a bot message, it
    allocates nothing and returns the same references, and the array it
    was given now shows the new text, although it was never replaced.
    When the transcript is empty or ends with a user message, the array
    it was given is left as it was and the result holds one more
    message. *)
Theorem text_chunk_updater_writes_in_place
    (b : Text) (h : list Message) (prev : list nat) :
  wf_heap h prev ->
  let h' := fst (botTextUpdater b h prev) in
  let msgs := snd (botTextUpdater b h prev) in
  (forall pre t,
     view_of h prev = pre ++ [mkMessage Bot t] ->
     msgs = prev /\ List.length h' = List.length h /\
     view_of h' prev = pre ++ [mkMessage Bot b]) /\
  (view_of h prev = [] \/
   (exists pre m, view_of h prev = pre ++ [m] /\ from m = User) ->
   msgs = prev ++ [List.length h] /\
   view_of h' prev = view_of h prev /\
   view_of h' msgs = view_of h prev ++ [mkMessage Bot b]).
Proof.
  intros W. cbv zeta.
  destruct (botTextUpdater_cases b h prev W)
    as [[E C]|(pre0 & last & -> & Hf & Hnot & Hlast & E)]; rewrite E; simpl.
  - split.
    + intros pre t Hview. exfalso.
      destruct C as [->|(pre0 & last & -> & Hf)].
      * destruct pre; discriminate Hview.
      * rewrite view_of_snoc in Hview. apply app_inj_tail in Hview.
        destruct Hview as [_ Hm]. rewrite Hm in Hf. discriminate Hf.
    + intros _. split; [reflexivity|].
      split; [apply view_of_alloc, W|apply alloc_bot_view, W].
  - split.
    + intros pre t Hview. rewrite view_of_snoc in Hview.
      apply app_inj_tail in Hview. destruct Hview as [Hpre _].
      split; [reflexivity|]. split; [apply set_nth_length|].
      rewrite view_of_snoc, (view_of_set_other h last _ pre0 Hnot), Hpre.
      unfold deref. rewrite nth_set_nth_same by exact Hlast. reflexivity.
    + intros [Hview|(pre & m & Hview & Hm)]; exfalso.
      * rewrite view_of_snoc in Hview. destruct (view_of h pre0); discriminate.
      * rewrite view_of_snoc in Hview. apply app_inj_tail in Hview.
        destruct Hview as [_ Hd]. rewrite Hd in Hf. congruence.
Qed.

(** ** Sending a message *)

Lemma trim_start_nil (t : Text) : trim_start t = [] <-> blank t.
Proof.
  unfold blank. induction t as [|c t IH]; simpl.
  - split; [constructor|reflexivity].
  - destruct (is_white_space c) eqn:Hc.
    + rewrite IH. split; [intros H; constructor; assumption|].
      intros H; inversion H; assumption.
    + split; [discriminate|]. intros H; inversion H; congruence.
Qed.

Lemma trim_start_head (t : Text) (c : N) (r : Text) :
  trim_start t = c :: r -> is_white_space c = false.
Proof.
  induction t as [|a t IH]; simpl; [discriminate|].
  destruct (is_white_space a) eqn:Ha; [exact IH|].
  intros E; injection E as <- _. exact Ha.
Qed.

Lemma falsy_trim (t : Text) : falsy (trim t) = true <-> blank t.
Proof.
  unfold trim. split.
  - intros H.
    destruct (rev (trim_start (rev (trim_start t)))) eqn:E; [|discriminate].
    apply (f_equal (@rev N)) in E. rewrite rev_involutive in E. simpl in E.
    apply trim_start_nil in E. unfold blank in E.
    apply Forall_rev in E. rewrite rev_involutive in E.
    destruct (trim_start t) as [|c r] eqn:Et; [apply trim_start_nil, Et|].
    apply trim_start_head in Et. inversion E; congruence.
  - intros H. apply trim_start_nil in H. rewrite H. reflexivity.
Qed.

Lemma not_blank_falsy (t : Text) : ~ blank t -> falsy (trim t) = false.
Proof.
  intros H. destruct (falsy (trim t)) eqn:E; [|reflexivity].
  apply falsy_trim in E. contradiction.
Qed.

(** X9. [sendMessage] sends what was typed, or nothing.  On an input of
    white space only (or empty) the Enter key and the Send button leave
    everything as it is: nothing is emitted and nothing is queued.  The
    Send button does nothing either while [connected] is false.  On any
    other input the Enter key, connected or not, emits one [sendText]
    packet on the current socket, if there is one, with the input as
    typed, untrimmed, and the conversation id of the last render; and
    after the next render the transcript ends with a user message
    holding that same text and the text box is empty. *)
Theorem enter_sends_what_was_typed (st : State) :
  well_formed st ->
  pending st = [] ->
  (blank (input st) ->
   step KeyDownEnter st = st /\ step ClickSend st = st) /\
  (connected st = false -> step ClickSend st = st) /\
  (~ blank (input st) ->
   let st' := run [KeyDownEnter; Render] st in
   view st' = view st ++ [mkMessage User (input st)] /\
   input st' = [] /\
   conversationId st' = conversationId st /\
   pending st' = [] /\
   emitted st' =
     emitted st ++
       match socketRef st with
       | Some g => [(g, SendText USER_ID (input st) (conversationId st))]
       | None => []
       end).
Proof.
  intros W Hp. split; [|split].
  - intros Hb. apply falsy_trim in Hb. simpl. unfold sendMessage.
    rewrite Hb. split; [reflexivity|]. destruct (connected st); reflexivity.
  - intros Hc. simpl. rewrite Hc. reflexivity.
  - intros Hb. apply not_blank_falsy in Hb. cbv zeta.
    unfold run. simpl fold_left. unfold sendMessage. rewrite Hb.
    unfold render, emit, view.
    destruct st as [h msgs inp con cid pend sref sopen sconn cl em].
    simpl in *. subst pend.
    destruct sref as [g|]; simpl;
      (split; [apply (appendUser_view inp h msgs W)|]);
      (split; [reflexivity|]); (split; [reflexivity|]);
      (split; [reflexivity|]); [reflexivity|rewrite app_nil_r; reflexivity].
Qed.

(** X10. The conversation id of a response goes out with the next
    message only once React has rendered.  After [responseDone] and a
    render, the Enter key emits the input with the id that the response
    carried; pressed before that render, it still emits the id of the
    render before. *)
Theorem response_sets_conversation_of_next_send
    (st : State) (g : nat) (textBuffer : Text) (cid : option Text) :
  pending st = [] ->
  socketOpen st = true ->
  socketRef st = Some g ->
  ~ blank (input st) ->
  emitted (run [ResponseDone textBuffer cid; Render; KeyDownEnter] st)
  = emitted st ++ [(g, SendText USER_ID (input st) cid)] /\
  emitted (run [ResponseDone textBuffer cid; KeyDownEnter] st)
  = emitted st ++ [(g, SendText USER_ID (input st) (conversationId st))].
Proof.
  intros Hp Ho Hr Hb. apply not_blank_falsy in Hb.
  destruct st as [h msgs inp con cid0 pend sref sopen sconn cl em].
  simpl in *. subst pend sopen sref.
  unfold run. simpl. unfold sendMessage. simpl. rewrite Hb. simpl.
  split; reflexivity.
Qed.

(** X11. The buffer of bot text is not emptied between responses:
    [responseDone] sets it to the [textBuffer] it carries.  So the first
    chunk of the next response is rendered behind that text: in a new
    bot message when a user message came in between, and in the bot
    message already there when none did.  This is so whether React runs
    the updater of the chunk at once or at the render. *)
Theorem next_response_continues_text_buffer
    (st : State) (g : nat) (textBuffer : Text) (cid : option Text)
    (u d : Text) (eager : bool) :
  reachable st ->
  pending st = [] ->
  socketOpen st = true ->
  socketRef st = Some g ->
  view (run [ResponseDone textBuffer cid; UserTranscript u;
             TextChunk d eager; Render] st)
  = view st ++ [mkMessage User u; mkMessage Bot (textBuffer ++ d)] /\
  view (run [ResponseDone textBuffer cid; TextChunk d eager; Render] st)
  = coalesce (textBuffer ++ d) (view st).
Proof.
  intros R Hp Ho Hr.
  destruct (reachable_well_formed st R) as [W Hw].
  pose proof (Hw g Hr) as Hg.
  assert (Hbuf : nth g (set_nth g
                          (nth g (set_nth g textBuffer (closures st)) [] ++ d)
                          (set_nth g textBuffer (closures st))) []
                 = textBuffer ++ d).
  { rewrite nth_set_nth_same by (rewrite set_nth_length; exact Hg).
    rewrite nth_set_nth_same by exact Hg. reflexivity. }
  destruct st as [h msgs inp con cid0 pend sref sopen sconn cl em].
  simpl in *. subst pend sopen sref. clear R Hw.
  split.
  - unfold run. cbn.
    unfold onTextChunk, onUserTranscript, onResponseDone, messages_pending.
    cbn. rewrite andb_false_r. unfold render, view. cbn.
    unfold botTextBuffer. cbn.
    match goal with |- context [botTextUpdater ?b _ _] =>
      replace b with (textBuffer ++ d) by (symmetry; exact Hbuf)
    end.
    pose proof (botText_view (textBuffer ++ d)
                  (h ++ [mkMessage User u]) (msgs ++ [List.length h])
                  (wf_heap_alloc h (mkMessage User u) msgs W)) as H.
    destruct (botTextUpdater (textBuffer ++ d)
                (h ++ [mkMessage User u]) (msgs ++ [List.length h]))
      as [h' msgs'].
    destruct H as [V _]. cbn. etransitivity; [exact V|].
    rewrite (alloc_bot_view_user u h msgs W), coalesce_snoc. reflexivity.
  - unfold run. cbn.
    unfold onTextChunk, onResponseDone, messages_pending.
    cbn. rewrite andb_true_r.
    pose proof (botText_view (textBuffer ++ d) h msgs W) as H.
    destruct eager.
    + unfold botTextBuffer. cbn.
      match goal with |- context [botTextUpdater ?b _ _] =>
        replace b with (textBuffer ++ d) by (symmetry; exact Hbuf)
      end.
      destruct (botTextUpdater (textBuffer ++ d) h msgs) as [h' msgs'].
      destruct H as [V _]. unfold render, view. cbn. exact V.
    + unfold render, view. cbn. unfold botTextBuffer. cbn.
      match goal with |- context [botTextUpdater ?b _ _] =>
        replace b with (textBuffer ++ d) by (symmetry; exact Hbuf)
      end.
      destruct (botTextUpdater (textBuffer ++ d) h msgs) as [h' msgs'].
      destruct H as [V _]. cbn. exact V.
Qed.

End ChatProofs.

(** * The record button: what is never stopped *)
Module RecorderProofs.
Import Recorder.

Section Platform.

Variable stop_inactive_throws : bool.

Lemma is_active_in_range (r : nat) (st : State) :
  is_active r st = true -> (r < List.length (recorders st))%nat.
Proof.
  unfold is_active. intros H.
  destruct (Nat.lt_ge_cases r (List.length (recorders st))) as [L|G]; [exact L|].
  rewrite nth_overflow in H by exact G. discriminate.
Qed.

Lemma step_keeps_replaced (e : Event) (st : State) (r : nat) :
  ref_valid st ->
  is_active r st = true ->
  mediaRecorderRef st <> Some r ->
  ref_valid (step stop_inactive_throws e st) /\
  is_active r (step stop_inactive_throws e st) = true /\
  mediaRecorderRef (step stop_inactive_throws e st) <> Some r.
Proof.
  intros V A N. pose proof (is_active_in_range r st A) as Hr.
  destruct e as [|supported| |b|]; simpl.
  - destruct (connected st); [|auto].
    destruct (recording st); [|auto].
    unfold stopRecording. destruct (mediaRecorderRef st) as [k|] eqn:Ek.
    + destruct (is_active k st).
      * split; [|split].
        -- intros k' E. simpl in *. rewrite set_nth_length. apply V. congruence.
        -- unfold is_active. simpl. rewrite nth_set_nth_other; [exact A|].
           intros ->. apply N. reflexivity.
        -- simpl. exact N.
      * destruct stop_inactive_throws; (split; [|split]); simpl;
          first [ exact A | exact N | exact V | rewrite Ek; exact N
                | intros k' E; apply V; simpl in E; congruence ].
    + split; [|split]; simpl;
        first [ exact A | rewrite Ek; discriminate
              | intros k' E; simpl in E; congruence ].
  - unfold granted. destruct (requests st); [auto|].
    destruct supported; [|auto].
    split; [|split]; simpl.
    + unfold ref_valid. simpl. intros k E. injection E as <-.
      rewrite length_app. simpl. lia.
    + unfold is_active. simpl. rewrite app_nth1 by exact Hr. exact A.
    + intros E. injection E as E. lia.
  - auto.
  - auto.
  - auto.
Qed.

(** X12. A recorder that has lost its place in [mediaRecorderRef] is
    never stopped.  [startRecording] puts each new recorder in the ref
    without a look at the one that is there, and [stopRecording] stops
    only the recorder in the ref; so whatever is clicked and granted
    afterwards, a recorder that is recording and is not the one in the
    ref goes on recording, and never gets back into the ref. *)
Theorem replaced_recorder_is_never_stopped
    (evs : list Event) (st : State) (r : nat) :
  ref_valid st ->
  is_active r st = true ->
  mediaRecorderRef st <> Some r ->
  is_active r (run stop_inactive_throws evs st) = true /\
  mediaRecorderRef (run stop_inactive_throws evs st) <> Some r.
Proof.
  revert st. induction evs as [|e evs IH]; intros st V A N; [split; assumption|].
  simpl. destruct (step_keeps_replaced e st r V A N) as (V' & A' & N').
  apply IH; assumption.
Qed.

End Platform.

End RecorderProofs.

Lemma replaced_recorder_is_never_stopped_witness :
  let st := Recorder.run false
              [Recorder.Connection true; Recorder.ClickRecord;
               Recorder.ClickRecord; Recorder.Granted true;
               Recorder.Granted true; Recorder.Render]
              Recorder.init in
  Recorder.mediaRecorderRef st = Some 1%nat /\
  Recorder.is_active 0
    (Recorder.run false
       [Recorder.ClickRecord; Recorder.Render; Recorder.ClickRecord;
        Recorder.Granted true; Recorder.Render; Recorder.ClickRecord]
       st) = true.
Proof.
  intros st. split; [reflexivity|].
  apply (RecorderProofs.replaced_recorder_is_never_stopped false).
  - intros k E. vm_compute in E. injection E as <-. vm_compute. lia.
  - reflexivity.
  - discriminate.
Defined.

(** ** The chat theorems at concrete runs *)

Lemma transcript_only_grows_witness :
  let st := Chat.run
              [Chat.Mount;
               Chat.UserTranscript (Chat.text_of_string "hi");
               Chat.TextChunk (Chat.text_of_string "he") false;
               Chat.Render] Chat.init in
  let evs := [Chat.TextChunk (Chat.text_of_string "llo") true;
              Chat.Change (Chat.text_of_string "ok");
              Chat.Render; Chat.KeyDownEnter; Chat.Render] in
  Chat.prefix (Chat.settled (Chat.view st)) (Chat.view (Chat.run evs st)) /\
  Chat.prefix (map Chat.from (Chat.view st))
              (map Chat.from (Chat.view (Chat.run evs st))).
Proof.
  intros st evs.
  apply (ChatProofs.transcript_only_grows evs st).
  exists [Chat.Mount;
          Chat.UserTranscript (Chat.text_of_string "hi");
          Chat.TextChunk (Chat.text_of_string "he") false;
          Chat.Render].
  reflexivity.
Defined.

Lemma chunk_burst_fills_one_message_witness :
  let st := Chat.run
              [Chat.Mount;
               Chat.UserTranscript (Chat.text_of_string "hi");
               Chat.Render] Chat.init in
  Chat.view
    (Chat.run
       ([Chat.TextChunk (Chat.text_of_string "a") true; Chat.Render;
         Chat.TextChunk (Chat.text_of_string "b") true;
         Chat.TextChunk (Chat.text_of_string "c") false] ++ [Chat.Render]) st)
  = Chat.coalesce
      (Chat.botTextBuffer 0 st
         ++ List.concat
              (Chat.chunk_texts
                 [Chat.TextChunk (Chat.text_of_string "a") true; Chat.Render;
                  Chat.TextChunk (Chat.text_of_string "b") true;
                  Chat.TextChunk (Chat.text_of_string "c") false]))
      (Chat.view st).
Proof.
  intros st.
  apply (ChatProofs.chunk_burst_fills_one_message st 0).
  - exists [Chat.Mount;
            Chat.UserTranscript (Chat.text_of_string "hi");
            Chat.Render].
    reflexivity.
  - vm_compute; reflexivity.
  - vm_compute; reflexivity.
  - vm_compute; reflexivity.
  - constructor; [right; eexists; eexists; reflexivity|].
    constructor; [left; reflexivity|].
    constructor; [right; eexists; eexists; reflexivity|].
    constructor; [right; eexists; eexists; reflexivity|constructor].
  - exists (Chat.text_of_string "a"), true. left; reflexivity.
Defined.

Lemma text_chunk_updater_writes_in_place_witness :
  let h := [Chat.mkMessage Chat.User (Chat.text_of_string "hi");
            Chat.mkMessage Chat.Bot (Chat.text_of_string "he")] in
  let prev := [0%nat; 1%nat] in
  snd (Chat.botTextUpdater (Chat.text_of_string "hello") h prev) = prev /\
  Chat.view_of (fst (Chat.botTextUpdater (Chat.text_of_string "hello") h prev))
               prev
  = [Chat.mkMessage Chat.User (Chat.text_of_string "hi");
     Chat.mkMessage Chat.Bot (Chat.text_of_string "hello")].
Proof.
  intros h prev.
  destruct (ChatProofs.text_chunk_updater_writes_in_place
              (Chat.text_of_string "hello") h prev) as [H _].
  - split.
    + repeat constructor.
    + constructor; [intros [E|[]]; discriminate E|].
      constructor; [intros []|constructor].
  - destruct (H [Chat.mkMessage Chat.User (Chat.text_of_string "hi")]
                (Chat.text_of_string "he") eq_refl) as (H1 & _ & H3).
    split; [exact H1|exact H3].
Defined.

Lemma enter_sends_what_was_typed_witness :
  let st := Chat.run
              [Chat.Mount; Chat.Change (Chat.text_of_string " hi ");
               Chat.Render] Chat.init in
  let st0 := Chat.run
               [Chat.Mount; Chat.Change (Chat.text_of_string "  ");
                Chat.Render] Chat.init in
  Chat.step Chat.KeyDownEnter st0 = st0 /\
  Chat.connected st = false /\
  Chat.emitted (Chat.run [Chat.KeyDownEnter; Chat.Render] st)
  = [(0%nat, Chat.SendText Chat.USER_ID (Chat.text_of_string " hi ") None)].
Proof.
  intros st st0. split; [|split].
  - destruct (ChatProofs.enter_sends_what_was_typed st0) as (H & _).
    + apply ChatProofs.reachable_well_formed.
      exists [Chat.Mount; Chat.Change (Chat.text_of_string "  "); Chat.Render].
      reflexivity.
    + vm_compute; reflexivity.
    + apply H. vm_compute. repeat constructor.
  - vm_compute; reflexivity.
  - destruct (ChatProofs.enter_sends_what_was_typed st) as (_ & _ & H).
    + apply ChatProofs.reachable_well_formed.
      exists [Chat.Mount; Chat.Change (Chat.text_of_string " hi "); Chat.Render].
      reflexivity.
    + vm_compute; reflexivity.
    + destruct H as (_ & _ & _ & _ & H).
      * intros B. vm_compute in B. inversion B as [|? ? _ B1]; subst.
        inversion B1 as [|? ? F _]; subst. discriminate F.
      * vm_compute in H |- *. exact H.
Defined.

Lemma response_sets_conversation_of_next_send_witness :
  let st := Chat.run
              [Chat.Mount; Chat.Change (Chat.text_of_string "q");
               Chat.Render] Chat.init in
  Chat.emitted
    (Chat.run
       [Chat.ResponseDone (Chat.text_of_string "answer")
          (Some (Chat.text_of_string "c1"));
        Chat.Render; Chat.KeyDownEnter] st)
  = Chat.emitted st
      ++ [(0%nat, Chat.SendText Chat.USER_ID (Chat.input st)
                    (Some (Chat.text_of_string "c1")))].
Proof.
  intros st.
  destruct (ChatProofs.response_sets_conversation_of_next_send st 0
              (Chat.text_of_string "answer") (Some (Chat.text_of_string "c1")))
    as [H _].
  - vm_compute; reflexivity.
  - vm_compute; reflexivity.
  - vm_compute; reflexivity.
  - intros B. vm_compute in B. inversion B as [|? ? F _]; subst.
    discriminate F.
  - exact H.
Defined.

Lemma next_response_continues_text_buffer_witness :
  let st := Chat.run [Chat.Mount] Chat.init in
  Chat.view
    (Chat.run
       [Chat.ResponseDone (Chat.text_of_string "one") None;
        Chat.TextChunk (Chat.text_of_string "two") true; Chat.Render] st)
  = Chat.coalesce (Chat.text_of_string "one" ++ Chat.text_of_string "two")
                  (Chat.view st).
Proof.
  intros st.
  destruct (ChatProofs.next_response_continues_text_buffer st 0
              (Chat.text_of_string "one") None
              (Chat.text_of_string "again") (Chat.text_of_string "two") true)
    as [_ H].
  - exists [Chat.Mount]. reflexivity.
  - vm_compute; reflexivity.
  - vm_compute; reflexivity.
  - vm_compute; reflexivity.
  - exact H.
Defined.
